(** * lintblame: change tracker, diagnostics and analyzer adapters

    A shallow embedding of [lintblame.go] and of its test
    [TestSortaSorted].  The source holds three successive versions of the
    program; the embedding follows the one with [ModifiedTimes.SortaSorted],
    [GoCmd] and the polling loop that refreshes the file list, which is the
    one the test exercises.

    Conventions of the embedding.
    - A Go [string] is a [string] (a sequence of bytes).
    - A [time.Time] is the instant it denotes, an integer count of
      nanoseconds since the zero time ([time.Time{}], the value of an
      uninitialised [var mostRecentTime time.Time]).  [Time.Equal],
      [Time.After] and [Time.Before] compare instants only.
    - A Go [map] is a [gmap]; a [range] over a map visits every entry once,
      in an order the language leaves unspecified, so a loop over a map is
      a function of the list of entries in the order visited, and that list
      is any permutation of the entries.
    - [log.Fatal] (which ends the process) and a run-time panic are
      outcomes of the computation, see [Outcome].
    - Files, modification times and external commands are read from an
      environment passed as an argument, see [Stat] and [World].
    - The goroutines of [printResults] are run one after the other: a
      batch completes when every analysis returns, and is lost when one of
      them ends the process. *)

From Stdlib Require Import ZArith Ascii String List Lia Bool.
From Stdlib Require DecimalString DecimalPos DecimalZ.
From stdpp Require Import base option list strings gmap fin_maps sorting.

Local Open Scope string_scope.
Local Open Scope list_scope.
Local Open Scope Z_scope.

(** ** time.Time *)

Module GoTime.

(** The zero [time.Time]. *)
Definition zero : Z := 0.

(** [t.After(u)], [t.Before(u)], [t.Equal(u)]. *)
Definition After (t u : Z) : bool := u <? t.
Definition Before (t u : Z) : bool := t <? u.
Definition Equal (t u : Z) : bool := t =? u.

(** One civil day in UTC, in nanoseconds. *)
Definition day : Z := 86400 * 1000000000.

(** [t.AddDate(0, 0, n)] for a time in UTC. *)
Definition AddDays (t n : Z) : Z := t + n * day.

End GoTime.

(** ** The change tracker: [ModifiedTimes] *)

Record ModifiedTimes := mkModifiedTimes { TimeMap : gmap string Z }.

(** [os.Stat(path)] followed by [fileInfo.ModTime()]: [None] when [Stat]
    returns an error, the modification time otherwise. *)
Definition Stat := string -> option Z.

(** [func (m *ModifiedTimes) CheckTime(path string) bool].  The receiver is
    a pointer, the updated tracker is returned next to the result. *)
Definition CheckTime (stat : Stat) (m : ModifiedTimes) (path : string)
  : bool * ModifiedTimes :=
  match stat path with
  | Some mt =>
      let hasChanged :=
        match TimeMap m !! path with
        | Some storedTime => negb (GoTime.Equal storedTime mt)
        | None => true
        end in
      if hasChanged
      then (true, mkModifiedTimes (<[path := mt]> (TimeMap m)))
      else (false, m)
  | None => (false, m)
  end.

(** [func (m ModifiedTimes) Len() int]. *)
Definition Len (m : ModifiedTimes) : nat := size (TimeMap m).

(** One iteration of the loop of [SortaSorted]; the loop state is
    [(returnSlice, mostRecentTime)]. *)
Definition sortaStep (st : list string * Z) (entry : string * Z)
  : list string * Z :=
  let '(returnSlice, mostRecentTime) := st in
  let '(path, time) := entry in
  if GoTime.After time mostRecentTime
  then (returnSlice ++ [path], time)
  else ([path] ++ returnSlice, mostRecentTime).

(** The loop of [SortaSorted] run over the entries in the order [range]
    visits them. *)
Definition sortaLoop (visited : list (string * Z)) (st : list string * Z)
  : list string * Z :=
  fold_left sortaStep visited st.

(** [func (m ModifiedTimes) SortaSorted() []string], for the order
    [visited] in which [range m.TimeMap] yields the entries. *)
Definition SortaSorted (visited : list (string * Z)) : list string :=
  fst (sortaLoop visited ([], GoTime.zero)).

(** The orders in which [range m.TimeMap] may visit the entries. *)
Definition rangeOrder (m : ModifiedTimes) (visited : list (string * Z)) : Prop :=
  visited ≡ₚ map_to_list (TimeMap m).

(** A run of the tracker: a sequence of [CheckTime] calls, each against the
    file system as it is at the time of the call. *)
Fixpoint observeAll (calls : list (Stat * string)) (m : ModifiedTimes)
  : ModifiedTimes :=
  match calls with
  | [] => m
  | (stat, path) :: rest => observeAll rest (snd (CheckTime stat m path))
  end.

(** [NewModifiedTimes] starts from [make(map[string]time.Time)]. *)
Definition emptyTimes : ModifiedTimes := mkModifiedTimes ∅.

(** The times on disk of the path [p], as seen by the successive calls for
    that path, never go backwards.  Nothing is asked of the other paths. *)
Definition neverBackwards (p : string) (calls : list (Stat * string)) : Prop :=
  forall (i j : nat) (s1 s2 : Stat) (t1 t2 : Z),
    (i <= j)%nat ->
    calls !! i = Some (s1, p) -> calls !! j = Some (s2, p) ->
    s1 p = Some t1 -> s2 p = Some t2 -> t1 <= t2.

(** ** Outcomes of a computation *)

(** A call returns a value, ends the process through [log.Fatal] or
    [log.Fatalf] (the message is logged, then [os.Exit(1)]), or panics at
    run time. *)
Inductive Outcome (A : Type) : Type :=
| Ok (a : A)
| Fatal (msg : string)
| Panic (msg : string).

Arguments Ok {A} a.
Arguments Fatal {A} msg.
Arguments Panic {A} msg.

Definition bind {A B : Type} (x : Outcome A) (f : A -> Outcome B) : Outcome B :=
  match x with
  | Ok a => f a
  | Fatal msg => Fatal msg
  | Panic msg => Panic msg
  end.

Notation "x <- e1 ;; e2" := (bind e1 (fun x => e2))
  (at level 100, e1 at next level, right associativity).

(** A [for _, x := range xs] loop whose body may end the process. *)
Fixpoint forEach {A S : Type} (body : S -> A -> Outcome S) (xs : list A) (s : S)
  : Outcome S :=
  match xs with
  | [] => Ok s
  | x :: rest => s' <- body s x ;; forEach body rest s'
  end.

(** [xs[i]] on a slice: a run-time panic when [i] is out of range. *)
Definition index {A : Type} (xs : list A) (i : Z) : Outcome A :=
  if (i <? 0) || (Z.of_nat (length xs) <=? i)
  then Panic "index out of range"
  else match xs !! Z.to_nat i with
       | Some x => Ok x
       | None => Panic "index out of range"
       end.

(** ** Bytes and character classes *)

Definition byte (c : ascii) : Z := Z.of_N (N_of_ascii c).

Definition bytes (s : string) : list ascii := list_ascii_of_string s.
Definition text (l : list ascii) : string := string_of_list_ascii l.

Definition isByte (c d : ascii) : bool := byte c =? byte d.

(** [\d], [\w] and [\s] of Go's regexp syntax (ASCII only), and [.], which
    does not match a line feed. *)
Definition isDigit (c : ascii) : bool := (48 <=? byte c) && (byte c <=? 57).
Definition isWord (c : ascii) : bool :=
  isDigit c || ((65 <=? byte c) && (byte c <=? 90))
  || ((97 <=? byte c) && (byte c <=? 122)) || (byte c =? 95).
Definition isSpace (c : ascii) : bool :=
  (byte c =? 9) || (byte c =? 10) || (byte c =? 12) || (byte c =? 13)
  || (byte c =? 32).
Definition isWordOrSpace (c : ascii) : bool := isWord c || isSpace c.
Definition notNewline (c : ascii) : bool := negb (byte c =? 10).

(** ** strconv.ParseInt *)

(** The digits of [ParseUint] in base 10, the value accumulated without
    bound; the range is checked by [ParseInt]. *)
Fixpoint parseDigits (s : list ascii) (acc : Z) : option Z :=
  match s with
  | [] => Some acc
  | c :: rest =>
      if isDigit c then parseDigits rest (acc * 10 + (byte c - 48)) else None
  end.

(** The size of [int] in bits. *)
Definition IntSize : Z := 64.

(** [strconv.ParseInt(s, 10, 0)]: an optional sign, then one or more decimal
    digits; a value that does not fit [int] is an error.  [None] stands for
    a non-nil [err] (a syntax or a range error), [Some n] for [(n, nil)]. *)
Definition ParseInt (s : string) : option Z :=
  match bytes s with
  | [] => None
  | c :: rest =>
      let neg := isByte c "-" in
      let digits := if isByte c "+" || neg then rest else c :: rest in
      match digits with
      | [] => None
      | _ =>
          match parseDigits digits 0 with
          | None => None
          | Some un =>
              let cutoff := 2 ^ (IntSize - 1) in
              if negb neg && (cutoff <=? un) then None
              else if neg && (cutoff <? un) then None
              else Some (if neg then - un else un)
          end
      end
  end.

(** ** Package regexp

    The four patterns of [rexes] use literals, the classes [\d], [\w], [\s],
    [[\w\s]] and [.], greedy repetition of a class ([+], [*], [{4}]),
    capturing groups, and the line anchors [^] and [$] under the flag
    [(?m)].  Go's regexp returns the match a backtracking search finds
    first (leftmost, then by preference of the greedy operators); [run] is
    that search, with the rest of the pattern as a continuation.  The
    matcher works on bytes: the classes are ASCII, and [.] takes every byte
    of a multi-byte character in turn. *)

Module Regexp.

Inductive re : Type :=
| Eps
| Chr (c : ascii)
| Cls (p : ascii -> bool)
| Rep (p : ascii -> bool) (min : nat) (max : option nat)
| Grp (i : nat) (r : re)
| Bol
| Eol
| Cat (r1 r2 : re).

(** The text of the groups closed so far, the latest first. *)
Definition Caps := list (nat * list ascii).

(** A position is the byte before it, if any, and the input from it on. *)
Definition Cont := option ascii -> list ascii -> Caps -> option (list ascii * Caps).

(** What is left of a repetition bound after one more iteration. *)
Definition less (max : option nat) : option nat :=
  match max with
  | Some n => Some (Nat.pred n)
  | None => None
  end.

Definition allows (max : option nat) : bool :=
  match max with
  | Some O => false
  | _ => true
  end.

(** Greedy repetition of a class: take one more byte if possible, and fall
    back to stopping here when the rest of the pattern fails after that. *)
Fixpoint rep (p : ascii -> bool) (min : nat) (max : option nat) (k : Cont)
  (prev : option ascii) (s : list ascii) (caps : Caps) {struct s}
  : option (list ascii * Caps) :=
  let stop := match min with O => k prev s caps | S _ => None end in
  match s with
  | c :: s' =>
      if p c && allows max
      then match rep p (Nat.pred min) (less max) k (Some c) s' caps with
           | Some r => Some r
           | None => stop
           end
      else stop
  | [] => stop
  end.

Definition atLineStart (prev : option ascii) : bool :=
  match prev with
  | None => true
  | Some c => byte c =? 10
  end.

Definition atLineEnd (s : list ascii) : bool :=
  match s with
  | [] => true
  | c :: _ => byte c =? 10
  end.

(** The bytes of [s] before its suffix [s']. *)
Definition consumed (s s' : list ascii) : list ascii :=
  take (length s - length s') s.

Fixpoint run (r : re) (k : Cont) (prev : option ascii) (s : list ascii)
  (caps : Caps) : option (list ascii * Caps) :=
  match r with
  | Eps => k prev s caps
  | Chr c =>
      match s with
      | d :: s' => if isByte d c then k (Some d) s' caps else None
      | [] => None
      end
  | Cls p =>
      match s with
      | d :: s' => if p d then k (Some d) s' caps else None
      | [] => None
      end
  | Rep p min max => rep p min max k prev s caps
  | Grp i r1 =>
      run r1 (fun prev' s' caps' => k prev' s' ((i, consumed s s') :: caps'))
        prev s caps
  | Bol => if atLineStart prev then k prev s caps else None
  | Eol => if atLineEnd s then k prev s caps else None
  | Cat r1 r2 => run r1 (fun prev' s' caps' => run r2 k prev' s' caps') prev s caps
  end.

Definition accept : Cont := fun _ s caps => Some (s, caps).

(** The number of the last group of a pattern. *)
Fixpoint groups (r : re) : nat :=
  match r with
  | Grp i r1 => Nat.max i (groups r1)
  | Cat r1 r2 => Nat.max (groups r1) (groups r2)
  | _ => O
  end.

Fixpoint capture (caps : Caps) (i : nat) : list ascii :=
  match caps with
  | [] => []
  | (j, w) :: rest => if Nat.eqb i j then w else capture rest i
  end.

(** The result slice of a match: the whole match, then each group. *)
Definition submatch (r : re) (whole : list ascii) (caps : Caps) : list string :=
  text whole :: map (fun i => text (capture caps i)) (seq 1 (groups r)).

(** The leftmost match at or after a position: the match, the input after
    it, and the groups. *)
Fixpoint find (r : re) (prev : option ascii) (s : list ascii)
  : option (list ascii * list ascii * Caps) :=
  match run r accept prev s [] with
  | Some (rest, caps) => Some (consumed s rest, rest, caps)
  | None =>
      match s with
      | [] => None
      | c :: s' => find r (Some c) s'
      end
  end.

(** [re.FindStringSubmatch(s)]: [None] is the nil slice of no match. *)
Definition FindStringSubmatch (r : re) (s : string) : option (list string) :=
  match find r None (bytes s) with
  | Some (whole, _, caps) => Some (submatch r whole caps)
  | None => None
  end.

(** Successive matches, each search starting where the previous match
    ended.  Every round shortens the input, [fuel] bounds the rounds (see
    [findAll_fuel]).  No pattern of [rexes] matches the empty string; for
    one that does, the search moves on by one byte after an empty match
    (Go moreover drops an empty match that abuts the match before it). *)
Fixpoint findAll (fuel : nat) (r : re) (prev : option ascii) (s : list ascii)
  : list (list string) :=
  match fuel with
  | O => []
  | S fuel' =>
      match find r prev s with
      | None => []
      | Some (whole, rest, caps) =>
          submatch r whole caps ::
            match whole, rest with
            | [], [] => []
            | [], c :: rest' => findAll fuel' r (Some c) rest'
            | _ :: _, _ => findAll fuel' r (last whole) rest
            end
      end
  end.

(** [re.FindAllStringSubmatch(s, -1)]. *)
Definition FindAllStringSubmatch (r : re) (s : string) : list (list string) :=
  findAll (S (String.length s)) r None (bytes s).

(** A pattern written as the sequence of its items. *)
Definition items (rs : list re) : re := foldr Cat Eps rs.

Definition plus (p : ascii -> bool) : re := Rep p 1 None.
Definition star (p : ascii -> bool) : re := Rep p 0 None.
Definition times (p : ascii -> bool) (n : nat) : re := Rep p n (Some n).

End Regexp.

(** ** The patterns of [rexes] *)

Module rexes.
Import Regexp.

(** [\w+:(\d+):(\d+):\s(\w+)\s(.+)(?m)$] *)
Definition pep8 : re :=
  items [plus isWord; Chr ":"; Grp 1 (plus isDigit); Chr ":";
         Grp 2 (plus isDigit); Chr ":"; Cls isSpace; Grp 3 (plus isWord);
         Cls isSpace; Grp 4 (plus notNewline); Eol].

(** [(?m)^(\w):\s+(\d+),\s*(\d+):\s(.+)$] *)
Definition pylint : re :=
  items [Bol; Grp 1 (Cls isWord); Chr ":"; plus isSpace; Grp 2 (plus isDigit);
         Chr ","; star isSpace; Grp 3 (plus isDigit); Chr ":"; Cls isSpace;
         Grp 4 (plus notNewline); Eol].

(** [\(([\w\s]+)\d{4}] *)
Definition blameName : re :=
  items [Chr "("; Grp 1 (plus isWordOrSpace); times isDigit 4].

(** [\w+:(\d+):\s(.+)(?m)$] *)
Definition goBuild : re :=
  items [plus isWord; Chr ":"; Grp 1 (plus isDigit); Chr ":"; Cls isSpace;
         Grp 2 (plus notNewline); Eol].

End rexes.

(** ** Diagnostics: [Wart] *)

Record Wart := mkWart {
  Reporter : string;
  Line : Z;
  Column : Z;
  IssueCode : string;
  Message : string
}.

(** [func NewWart(reporter, line, column, issueCode, message string) Wart]. *)
Definition NewWart (reporter line column issueCode message : string)
  : Outcome Wart :=
  match ParseInt line with
  | None => Fatal ("Failed parsing line number " +:+ line)
  | Some line64 =>
      match ParseInt column with
      | None => Fatal ("Failed parsing column number " +:+ column)
      | Some col64 =>
          Ok {| Reporter := reporter; Line := line64; Column := col64;
                IssueCode := issueCode; Message := message |}
      end
  end.

(** ** Packages strings and filepath *)

(** [strings.Split(s, sep)] for a separator of one byte. *)
Fixpoint splitBytes (sep : ascii) (s : list ascii) : list (list ascii) :=
  match s with
  | [] => [[]]
  | c :: rest =>
      if isByte c sep then [] :: splitBytes sep rest
      else match splitBytes sep rest with
           | first :: others => (c :: first) :: others
           | [] => [[c]]
           end
  end.

Definition Split (s : string) (sep : ascii) : list string :=
  map text (splitBytes sep (bytes s)).

(** White space of [unicode.IsSpace] below U+0080. *)
Definition isSpaceByte (c : ascii) : bool :=
  ((9 <=? byte c) && (byte c <=? 13)) || (byte c =? 32).

Fixpoint trimLeft (s : list ascii) : list ascii :=
  match s with
  | c :: rest => if isSpaceByte c then trimLeft rest else s
  | [] => []
  end.

(** [strings.TrimSpace(s)] for ASCII text. *)
Definition TrimSpace (s : string) : string :=
  text (rev (trimLeft (rev (trimLeft (bytes s))))).

(** The loop of [filepath.Ext], from the last byte backwards: [before] is
    the path up to index [i], reversed, [suffix] is [path[i+1:]]. *)
Fixpoint extLoop (before suffix : list ascii) : list ascii :=
  match before with
  | [] => []
  | c :: before' =>
      if isByte c "/" then []
      else if isByte c "." then c :: suffix
      else extLoop before' (c :: suffix)
  end.

(** [filepath.Ext(path)]. *)
Definition Ext (path : string) : string :=
  text (extLoop (rev (bytes path)) []).

(** The second result of [filepath.Split(path)]: what follows the last
    separator. *)
Fixpoint baseLoop (before suffix : list ascii) : list ascii :=
  match before with
  | [] => suffix
  | c :: before' => if isByte c "/" then suffix else baseLoop before' (c :: suffix)
  end.

Definition SplitFile (path : string) : string :=
  text (baseLoop (rev (bytes path)) []).

(** ** The analysed file: [TargetFile] *)

Record TargetFile := mkTargetFile {
  Path : string;
  ContentLines : list string;
  BlameLines : list string;
  Warts : gmap Z (list Wart)
}.

(** What the program reads from its environment.  [ReadFile] is
    [ioutil.ReadFile] ([None] for an error).  [Output name args] is
    [exec.Command(name, args...).Output()] and [CombinedOutput] its
    namesake: the bytes captured and whether [err] is non-nil.  A command
    that cannot be started gives no bytes and an error; a command that
    exits with a non-zero status gives what it printed and an error. *)
Record World := mkWorld {
  ReadFile : string -> option string;
  Output : string -> list string -> string * bool;
  CombinedOutput : string -> list string -> string * bool
}.

(** [func (tf *TargetFile) Blame()]. *)
Definition Blame (w : World) (tf : TargetFile) : TargetFile :=
  let results := (Output w "git" ["blame"; Path tf]).1 in
  let err := (Output w "git" ["blame"; Path tf]).2 in
  mkTargetFile (Path tf) (ContentLines tf)
    (if err then [] else Split results "010")
    (Warts tf).

(** [func (tf TargetFile) ExtEquals(ext string) bool]. *)
Definition ExtEquals (tf : TargetFile) (ext : string) : bool :=
  String.eqb (Ext (Path tf)) ext.

(** [func (tf *TargetFile) AddWart(wart Wart)]. *)
Definition AddWart (tf : TargetFile) (wart : Wart) : TargetFile :=
  let warts :=
    match Warts tf !! Line wart with
    | Some _ => Warts tf
    | None => <[Line wart := []]> (Warts tf)
    end in
  mkTargetFile (Path tf) (ContentLines tf) (BlameLines tf)
    (<[Line wart := default [] (warts !! Line wart) ++ [wart]]> warts).

(** The body of the loops over the matches: [mk] builds the [NewWart] call
    from the groups of one match. *)
Definition addMatch (mk : list string -> Outcome Wart) (tf : TargetFile)
  (group : list string) : Outcome TargetFile :=
  wart <- mk group ;; Ok (AddWart tf wart).

(** [func (tf *TargetFile) Pep8()]. *)
Definition Pep8 (w : World) (tf : TargetFile) : Outcome TargetFile :=
  if negb (String.eqb (Ext (Path tf)) ".py") then Ok tf
  else
    let results := (Output w "pep8" [Path tf]).1 in
    let parsed := Regexp.FindAllStringSubmatch rexes.pep8 results in
    forEach
      (addMatch (fun group =>
         g1 <- index group 1 ;; g2 <- index group 2 ;;
         g3 <- index group 3 ;; g4 <- index group 4 ;;
         NewWart "PEP8" g1 g2 g3 g4))
      parsed tf.

(** [func (tf *TargetFile) GoCmd(goCmd string)]. *)
Definition GoCmd (w : World) (goCmd : string) (tf : TargetFile)
  : Outcome TargetFile :=
  if negb (ExtEquals tf ".go") then Ok tf
  else
    let file := SplitFile (Path tf) in
    let results := (CombinedOutput w "go" [goCmd; file]).1 in
    let parsed := Regexp.FindAllStringSubmatch rexes.goBuild results in
    forEach
      (addMatch (fun group =>
         g1 <- index group 1 ;; g2 <- index group 2 ;;
         NewWart goCmd g1 "0" "-" g2))
      parsed tf.

Definition GoBuild (w : World) (tf : TargetFile) : Outcome TargetFile :=
  GoCmd w "build" tf.

Definition GoVet (w : World) (tf : TargetFile) : Outcome TargetFile :=
  GoCmd w "vet" tf.

(** [func (tf *TargetFile) PyLint()]. *)
Definition PyLint (w : World) (tf : TargetFile) : Outcome TargetFile :=
  if negb (String.eqb (Ext (Path tf)) ".py") then Ok tf
  else
    let results := (Output w "pylint" ["--output-format=text"; Path tf]).1 in
    let parsed := Regexp.FindAllStringSubmatch rexes.pylint results in
    forEach
      (addMatch (fun group =>
         g1 <- index group 1 ;; g2 <- index group 2 ;;
         g3 <- index group 3 ;; g4 <- index group 4 ;;
         NewWart "Pylint" g2 g3 g1 g4))
      parsed tf.

(** [func (tf TargetFile) BlameName(line int) string].  [match[1]] on the
    nil slice of a failed match panics like any index out of range. *)
Definition BlameName (tf : TargetFile) (line : Z) : Outcome string :=
  if (length (BlameLines tf) =? 0)%nat then Ok "-"
  else
    blameLine <- index (BlameLines tf) (line - 1) ;;
    let match_ := default [] (Regexp.FindStringSubmatch rexes.blameName blameLine) in
    name <- index match_ 1 ;;
    Ok (TrimSpace name).

(** [func NewTargetFile(path string) *TargetFile]. *)
Definition NewTargetFile (w : World) (path : string) : Outcome TargetFile :=
  let tf := mkTargetFile path [] [] ∅ in
  match ReadFile w path with
  | None => Fatal ("Unable to read file " +:+ path)
  | Some content =>
      let tf := mkTargetFile (Path tf) (Split content "010") (BlameLines tf)
                  (Warts tf) in
      let tf := Blame w tf in
      tf <- Pep8 w tf ;;
      tf <- PyLint w tf ;;
      tf <- GoBuild w tf ;;
      tf <- GoVet w tf ;;
      Ok tf
  end.

(** The fan-out of [printResults]: one [makeTargetFile] per path, each
    sending its [TargetFile] on the channel, and as many receives.  Every
    file is analysed and received unless one of the analyses ends the
    process; the order in which the results arrive is left out (they are
    listed in the order of the paths). *)
Fixpoint fanOut (w : World) (filepaths : list string)
  : Outcome (list TargetFile) :=
  match filepaths with
  | [] => Ok []
  | path :: rest =>
      tf <- NewTargetFile w path ;;
      tfs <- fanOut w rest ;;
      Ok (tf :: tfs)
  end.

(** ** Display and the polling loop of [main] *)

(** [func printWarts(targetFile *TargetFile)], as far as it can fail: for
    every line with warts it calls [BlameName(line)] and reads
    [ContentLines[line-1]].  The text printed is left out. *)
Definition printWarts (tf : TargetFile) : Outcome unit :=
  forEach
    (fun (_ : unit) (entry : Z * list Wart) =>
       blameName <- BlameName tf entry.1 ;;
       content <- index (ContentLines tf) (entry.1 - 1) ;;
       Ok tt)
    (map_to_list (Warts tf)) tt.

(** [func printResults(modTimes ModifiedTimes)], for the order [visited] in
    which [SortaSorted] ranges over the map: the fan-out, then
    [printWarts] for each file received. *)
Definition printResults (w : World) (visited : list (string * Z)) : Outcome unit :=
  let filepaths := SortaSorted visited in
  tfs <- fanOut w filepaths ;;
  forEach (fun (_ : unit) tf => printWarts tf) tfs tt.

(** The inner loop of [main]: [CheckTime] on each path until one has
    changed. *)
Fixpoint checkUntilChanged (stat : Stat) (modTimes : ModifiedTimes)
  (filepaths : list string) : bool * ModifiedTimes :=
  match filepaths with
  | [] => (false, modTimes)
  | file :: rest =>
      let r := CheckTime stat modTimes file in
      if r.1 then (true, r.2) else checkUntilChanged stat r.2 rest
  end.

(** [func NewModifiedTimes() *ModifiedTimes]; [targetPaths] is the outcome
    of the call [targetPaths()], which ends the program when the directory
    or the git commands fail. *)
Definition NewModifiedTimes (targetPaths : Outcome (list string)) (stat : Stat)
  : Outcome ModifiedTimes :=
  paths <- targetPaths ;;
  Ok (observeAll (map (fun file => (stat, file)) paths) emptyTimes).

(** What one round of the loop reads: the external commands and files, the
    modification times, the outcome of [targetPaths()], and the order in
    which [range] visits a map. *)
Record Env := mkEnv {
  world : World;
  stat : Stat;
  targetPaths : Outcome (list string);
  order : ModifiedTimes -> list (string * Z)
}.

(** One round of the [for] loop of [main], from the state
    [(modTimes, loopCount)] to the next one. *)
Definition pollRound (env : Env) (filepaths : list string)
  (st : ModifiedTimes * Z) : Outcome (ModifiedTimes * Z) :=
  let '(modTimes, loopCount) := st in
  let r := checkUntilChanged (stat env) modTimes filepaths in
  let runUpdate := r.1 in
  let modTimes := r.2 in
  _ <- (if runUpdate then printResults (world env) (order env modTimes)
        else Ok tt) ;;
  modTimes <-
    (if Z.rem loopCount 5 =? 0 then
       let oldLen := Len modTimes in
       modTimes <- NewModifiedTimes (targetPaths env) (stat env) ;;
       _ <- (if negb (Len modTimes =? oldLen)%nat
             then printResults (world env) (order env modTimes)
             else Ok tt) ;;
       Ok modTimes
     else Ok modTimes) ;;
  Ok (modTimes, loopCount + 1).

(** ** Failures of the collaborators *)

(** [w'] is [w] with failures added: runs of git that fail, analyzers that
    cannot be started (no bytes captured) or that exit with a non-zero
    status (the same bytes, the status is not constrained).  The files
    read are the same. *)
Definition degradedFrom (w w' : World) : Prop :=
  (forall path, ReadFile w' path = ReadFile w path) /\
  (forall args, Output w' "git" args = Output w "git" args \/
                (Output w' "git" args).2 = true) /\
  (forall name args, name <> "git" ->
     (Output w' name args).1 = (Output w name args).1 \/
     (Output w' name args).1 = "") /\
  (forall name args,
     (CombinedOutput w' name args).1 = (CombinedOutput w name args).1 \/
     (CombinedOutput w' name args).1 = "").

(** The diagnostics of [warts'] are diagnostics of [warts], on the same
    lines and in the same order. *)
Definition wartsWithin (warts' warts : gmap Z (list Wart)) : Prop :=
  forall line ws', warts' !! line = Some ws' ->
    exists ws, warts !! line = Some ws /\ ws' `sublist_of` ws.

(** [tf'] is [tf] degraded: the same path and content, the same blame
    lines or none, and no diagnostic that [tf] does not have. *)
Definition degradedResult (tf tf' : TargetFile) : Prop :=
  Path tf' = Path tf /\
  ContentLines tf' = ContentLines tf /\
  (BlameLines tf' = BlameLines tf \/ BlameLines tf' = []) /\
  wartsWithin (Warts tf') (Warts tf).

(** ** What a pattern matches

    [Matches r prev w rest]: the pattern [r] matches the bytes [w], found
    after the byte [prev] and before the input [rest].  This is the
    meaning of the patterns, independent of the search order of [run]. *)

Definition lastOr (prev : option ascii) (w : list ascii) : option ascii :=
  match last w with
  | Some c => Some c
  | None => prev
  end.

Definition within (max : option nat) (n : nat) : Prop :=
  match max with
  | Some m => (n <= m)%nat
  | None => True
  end.

Inductive Matches : Regexp.re -> option ascii -> list ascii -> list ascii -> Prop :=
| Matches_Eps prev rest :
    Matches Regexp.Eps prev [] rest
| Matches_Chr c d prev rest :
    isByte d c = true -> Matches (Regexp.Chr c) prev [d] rest
| Matches_Cls (p : ascii -> bool) d prev rest :
    p d = true -> Matches (Regexp.Cls p) prev [d] rest
| Matches_Rep (p : ascii -> bool) min max w prev rest :
    Forall (fun c => p c = true) w ->
    (min <= length w)%nat -> within max (length w) ->
    Matches (Regexp.Rep p min max) prev w rest
| Matches_Grp i r prev w rest :
    Matches r prev w rest -> Matches (Regexp.Grp i r) prev w rest
| Matches_Bol prev rest :
    Regexp.atLineStart prev = true -> Matches Regexp.Bol prev [] rest
| Matches_Eol prev rest :
    Regexp.atLineEnd rest = true -> Matches Regexp.Eol prev [] rest
| Matches_Cat r1 r2 prev w1 w2 rest :
    Matches r1 prev w1 (w2 ++ rest) ->
    Matches r2 (lastOr prev w1) w2 rest ->
    Matches (Regexp.Cat r1 r2) prev (w1 ++ w2) rest.

(** The pattern occurs somewhere in the text. *)
Definition occursIn (r : Regexp.re) (s : list ascii) : Prop :=
  exists pre w rest, s = pre ++ w ++ rest /\ Matches r (last pre) w rest.

(** A blame line with an author: an opening parenthesis, then one or more
    word or space characters, then four digits. *)
Definition hasBlameName (blameLine : string) : Prop :=
  exists pre name year rest,
    bytes blameLine = pre ++ ["("%char] ++ name ++ year ++ rest /\
    name <> [] /\ Forall (fun c => isWordOrSpace c = true) name /\
    length year = 4%nat /\ Forall (fun c => isDigit c = true) year.

(** ** The earlier tracker: [MostRecent] and [PathsByModTime]

    The last version of the source file orders the paths with these two
    methods in place of [SortaSorted]. *)

(** One iteration of the loop of [MostRecent]; the loop state is
    [(returnPath, mostRecentTime)]. *)
Definition mostRecentStep (st : string * Z) (entry : string * Z) : string * Z :=
  let '(returnPath, mostRecentTime) := st in
  let '(path, time) := entry in
  if GoTime.Before mostRecentTime time then (path, time)
  else (returnPath, mostRecentTime).

(** [func (m ModifiedTimes) MostRecent() string], for the order [visited] in
    which [range m.timeMap] yields the entries. *)
Definition MostRecent (visited : list (string * Z)) : string :=
  (fold_left mostRecentStep visited ("", GoTime.zero)).1.

(** [sort.Sort(ByTime{times})]: the slice sorted by [Less], that is by
    [Before].  The library is free in its choice of algorithm and is not
    stable; the elements being instants, every sorted permutation of the
    slice is the same list (see [sorted_times_unique]). *)
Definition sortTimes (times : list Z) : list Z := merge_sort Z.le times.

(** The map [timesToPaths] after the first loop of [PathsByModTime]: a
    later entry with the same time replaces an earlier one. *)
Definition timesToPaths (visited : list (string * Z)) : gmap Z string :=
  fold_left (fun acc entry => <[entry.2 := entry.1]> acc) visited ∅.

(** [func (m ModifiedTimes) PathsByModTime() []string], for the order
    [visited] in which [range m.timeMap] yields the entries. *)
Definition PathsByModTime (visited : list (string * Z)) : list string :=
  let times := visited.*2 in
  (fun time_ => default "" (timesToPaths visited !! time_)) <$> sortTimes times.

(** A path whose time on disk can be read and is not the one stored. *)
Definition stale (stat : Stat) (m : ModifiedTimes) (path : string) : Prop :=
  exists mt, stat path = Some mt /\ TimeMap m !! path <> Some mt.

(** ** The groups of a match *)

(** The numbers of the groups of a pattern, in the order they are closed. *)
Fixpoint groupIds (r : Regexp.re) : list nat :=
  match r with
  | Regexp.Grp i r1 => groupIds r1 ++ [i]
  | Regexp.Cat r1 r2 => groupIds r1 ++ groupIds r2
  | _ => []
  end.

(** [r1] is the pattern inside the group [i] of [r]. *)
Fixpoint inGroup (i : nat) (r1 r : Regexp.re) : Prop :=
  match r with
  | Regexp.Grp j r' => (i = j /\ r1 = r') \/ inGroup i r1 r'
  | Regexp.Cat a b => inGroup i r1 a \/ inGroup i r1 b
  | _ => False
  end.

(** The text recorded for a group is matched by the pattern inside it. *)
Definition groupText (r : Regexp.re) (entry : nat * list ascii) : Prop :=
  exists r1 prev rest, inGroup entry.1 r1 r /\ Matches r1 prev entry.2 rest.

(** One or more bytes of a class. *)
Definition someOf (p : ascii -> bool) (w : list ascii) : Prop :=
  w <> [] /\ Forall (fun c => p c = true) w.

(** ** Diagnostics of the adapters *)

(** What holds of a diagnostic that an adapter has extracted for the file
    [path]: natural numbers that fit [int], a code and a message that are
    not empty, and a reporter that goes with the extension of the file; the
    go tools give column 0 and the code "-". *)
Definition fromAdapter (path : string) (wart : Wart) : Prop :=
  0 <= Line wart <= 2 ^ 63 - 1 /\ 0 <= Column wart <= 2 ^ 63 - 1 /\
  IssueCode wart <> "" /\ Message wart <> "" /\
  ((Ext path = ".py" /\
    (Reporter wart = "PEP8" \/ Reporter wart = "Pylint")) \/
   (Ext path = ".go" /\
    (Reporter wart = "build" \/ Reporter wart = "vet") /\
    Column wart = 0 /\ IssueCode wart = "-")).

(** The message of [NewWart] for a number that is written with digits only
    and does not fit [int]. *)
Definition numberTooBig (msg : string) : Prop :=
  exists digits,
    someOf isDigit digits /\ ParseInt (text digits) = None /\
    (msg = "Failed parsing line number " +:+ text digits \/
     msg = "Failed parsing column number " +:+ text digits).

(** ** Printing *)

(** [strings.Join(parts, sep)] for a separator of one byte. *)
Fixpoint joinBytes (sep : ascii) (parts : list (list ascii)) : list ascii :=
  match parts with
  | [] => []
  | [part] => part
  | part :: rest => part ++ sep :: joinBytes sep rest
  end.

Definition Join (parts : list string) (sep : ascii) : string :=
  text (joinBytes sep (bytes <$> parts)).

(** The verb [%d] of [fmt.Sprintf] on an [int]: the decimal digits, after a
    minus sign for a negative number. *)
Definition FormatInt (n : Z) : string :=
  DecimalString.NilZero.string_of_int (Z.to_int n).

(** [func (w Wart) String() string]. *)
Definition Wart_String (w : Wart) : string :=
  FormatInt (Line w) +:+ ": [" +:+ Reporter w +:+ " " +:+ IssueCode w
  +:+ "] " +:+ Message w.

(** The value of a decimal numeral read from the left, after [acc]. *)
Fixpoint uintValue (d : Decimal.uint) (acc : Z) : Z :=
  match d with
  | Decimal.Nil => acc
  | Decimal.D0 d => uintValue d (acc * 10 + 0)
  | Decimal.D1 d => uintValue d (acc * 10 + 1)
  | Decimal.D2 d => uintValue d (acc * 10 + 2)
  | Decimal.D3 d => uintValue d (acc * 10 + 3)
  | Decimal.D4 d => uintValue d (acc * 10 + 4)
  | Decimal.D5 d => uintValue d (acc * 10 + 5)
  | Decimal.D6 d => uintValue d (acc * 10 + 6)
  | Decimal.D7 d => uintValue d (acc * 10 + 7)
  | Decimal.D8 d => uintValue d (acc * 10 + 8)
  | Decimal.D9 d => uintValue d (acc * 10 + 9)
  end.

(** ** The paths to watch *)

(** [strings.HasPrefix(s, prefix)]. *)
Definition HasPrefix (s prefix : string) : bool := String.prefix prefix s.

(** The two branches of the pattern [.py|.go] of [filterFiles]; the dot
    stands for any character but a newline. *)
Definition anyPy : Regexp.re :=
  Regexp.items [Regexp.Cls notNewline; Regexp.Chr "p"; Regexp.Chr "y"].
Definition anyGo : Regexp.re :=
  Regexp.items [Regexp.Cls notNewline; Regexp.Chr "g"; Regexp.Chr "o"].

(** [regexp.MatchString(".py|.go", s)]: an alternation matches somewhere
    in the text when one of its branches does.  The pattern is a constant
    that compiles, so [err] is nil. *)
Definition MatchPyOrGo (s : string) : bool :=
  match Regexp.FindStringSubmatch anyPy s with
  | Some _ => true
  | None =>
      match Regexp.FindStringSubmatch anyGo s with
      | Some _ => true
      | None => false
      end
  end.

(** One iteration of the loop of [filterFiles].  [join] is [path.Join] and
    [workingDir] is [config.WorkingDir]; [path.Ext] is the loop of
    [filepath.Ext]. *)
Definition filterStep (join : string -> string -> string) (workingDir : string)
  (goodstuffs : list string) (filepath : string) : list string :=
  if (0 <? String.length filepath)%nat then
    if MatchPyOrGo (Ext filepath) then
      let filepath :=
        if negb (HasPrefix filepath "/") then join workingDir filepath
        else filepath in
      goodstuffs ++ [filepath]
    else goodstuffs
  else goodstuffs.

(** [func filterFiles(filepaths []string) []string]. *)
Definition filterFiles (join : string -> string -> string) (workingDir : string)
  (filepaths : list string) : list string :=
  fold_left (filterStep join workingDir) filepaths [].

(** [func gitBranchFiles() []string]. *)
Definition gitBranchFiles (w : World) (join : string -> string -> string)
  (workingDir : string) : Outcome (list string) :=
  let dirtyFiles := Output w "git" ["diff"; "--name-only"] in
  if dirtyFiles.2 then Fatal "Failed to list dirty files"
  else
    let branchFiles := Output w "git" ["diff"; "--name-only"; "master..HEAD"] in
    if branchFiles.2 then Fatal "Failed to list branch files:"
    else
      let allFiles := Split dirtyFiles.1 "010" ++ Split branchFiles.1 "010" in
      Ok (filterFiles join workingDir allFiles).

(** A path that [filterFiles] keeps: it is not empty and its extension
    contains "py" or "go" after a character that is not a newline. *)
Definition watched (filepath : string) : Prop :=
  filepath <> "" /\
  exists pre c x rest,
    bytes (Ext filepath) = pre ++ c :: x ++ rest /\ c <> "010"%char /\
    (x = ["p"; "y"]%char \/ x = ["g"; "o"]%char).

(** The path under which a kept path is watched. *)
Definition watchedAs (join : string -> string -> string) (workingDir : string)
  (filepath : string) : string :=
  if HasPrefix filepath "/" then filepath else join workingDir filepath.

(** The bytes of a text without the white space at both ends. *)
Definition trimmed (s : list ascii) : list ascii :=
  rev (trimLeft (rev (trimLeft s))).

(** ** The author of a blame line *)

(** The text [s] starts with an opening parenthesis, then the bytes
    [author], one or more word or space characters, then the four digits
    [year], then [rest]. *)
Definition authorAt (s author year rest : list ascii) : Prop :=
  s = "("%char :: author ++ year ++ rest /\
  someOf isWordOrSpace author /\
  length year = 4%nat /\ Forall (fun c => isDigit c = true) year.

(** [author] is the author that the pattern [blameName] finds in a blame
    line: what stands between the first opening parenthesis from which an
    author and a year can be read and the last four digits that can be
    taken for the year from there. *)
Definition blameAuthor (blameLine : string) (author : list ascii) : Prop :=
  exists pre year rest,
    bytes blameLine = pre ++ "("%char :: author ++ year ++ rest /\
    authorAt ("("%char :: author ++ year ++ rest) author year rest /\
    (forall pre' s' author' year' rest',
       bytes blameLine = pre' ++ s' -> authorAt s' author' year' rest' ->
       (length pre <= length pre')%nat) /\
    (forall author' year' rest',
       authorAt ("("%char :: author ++ year ++ rest) author' year' rest' ->
       (length author' <= length author)%nat).

(** * Properties *)

(** ** time.Time *)

Lemma After_spec t u : GoTime.After t u = true <-> u < t.
Proof. unfold GoTime.After. apply Z.ltb_lt. Qed.

Lemma After_false t u : GoTime.After t u = false <-> t <= u.
Proof. unfold GoTime.After. rewrite Z.ltb_ge. reflexivity. Qed.

Lemma Equal_spec t u : GoTime.Equal t u = true <-> t = u.
Proof. unfold GoTime.Equal. apply Z.eqb_eq. Qed.

Lemma Equal_refl t : GoTime.Equal t t = true.
Proof. apply Equal_spec. reflexivity. Qed.

(** ** The loop of [SortaSorted] *)

Lemma sortaStep_append acc mx p t :
  GoTime.After t mx = true -> sortaStep (acc, mx) (p, t) = (acc ++ [p], t).
Proof. intros H. unfold sortaStep. by rewrite H. Qed.

Lemma sortaStep_prepend acc mx p t :
  GoTime.After t mx = false -> sortaStep (acc, mx) (p, t) = (p :: acc, mx).
Proof. intros H. unfold sortaStep. by rewrite H. Qed.

Lemma sortaLoop_cons e visited st :
  sortaLoop (e :: visited) st = sortaLoop visited (sortaStep st e).
Proof. reflexivity. Qed.

Lemma sortaLoop_app l1 l2 st :
  sortaLoop (l1 ++ l2) st = sortaLoop l2 (sortaLoop l1 st).
Proof. unfold sortaLoop. apply fold_left_app. Qed.

(** Every visited path is put into the slice once, at one end or the other. *)
Lemma sortaLoop_perm visited : forall acc mx,
  (sortaLoop visited (acc, mx)).1 ≡ₚ acc ++ visited.*1.
Proof.
  induction visited as [|[p t] visited IH]; intros acc mx.
  - simpl. by rewrite app_nil_r.
  - rewrite sortaLoop_cons. simpl.
    destruct (GoTime.After t mx); rewrite IH.
    + by rewrite <- app_assoc.
    + simpl. by rewrite Permutation_middle.
Qed.

(** While no entry is after the running maximum, the maximum and the last
    element of the slice stay as they are. *)
Lemma sortaLoop_keeps_last visited : forall acc p mx,
  Forall (fun e => e.2 <= mx) visited ->
  exists front, sortaLoop visited (acc ++ [p], mx) = (front ++ [p], mx).
Proof.
  induction visited as [|[q t] visited IH]; intros acc p mx Hle.
  - exists acc. reflexivity.
  - apply Forall_cons in Hle as [Hq Hle]. simpl in Hq.
    rewrite sortaLoop_cons. simpl.
    apply After_false in Hq. rewrite Hq.
    apply (IH (q :: acc) p mx Hle).
Qed.

(** The running maximum stays below a strict bound of the timestamps. *)
Lemma sortaLoop_below bound visited : forall acc mx,
  Forall (fun e => e.2 < bound) visited -> mx < bound ->
  (sortaLoop visited (acc, mx)).2 < bound.
Proof.
  induction visited as [|[q t] visited IH]; intros acc mx Hlt Hmx.
  - exact Hmx.
  - apply Forall_cons in Hlt as [Hq Hlt]. simpl in Hq.
    rewrite sortaLoop_cons. simpl.
    destruct (GoTime.After t mx); apply IH; assumption.
Qed.

(** The entry that is strictly after all the others ends up last. *)
Lemma SortaSorted_last l1 l2 pmax tmax :
  GoTime.zero < tmax ->
  Forall (fun e => e.2 < tmax) l1 ->
  Forall (fun e => e.2 < tmax) l2 ->
  last (SortaSorted (l1 ++ (pmax, tmax) :: l2)) = Some pmax.
Proof.
  intros H0 H1 H2. unfold SortaSorted.
  rewrite sortaLoop_app, sortaLoop_cons.
  pose proof (sortaLoop_below tmax l1 [] GoTime.zero H1 H0) as Hb.
  destruct (sortaLoop l1 ([], GoTime.zero)) as [acc mx]. simpl in Hb.
  simpl. apply After_spec in Hb. rewrite Hb.
  destruct (sortaLoop_keeps_last l2 acc pmax tmax) as [front ->].
  - eapply Forall_impl; [exact H2|]. intros e He. simpl in He. lia.
  - simpl. apply last_snoc.
Qed.

(** ** [CheckTime] *)

Lemma CheckTime_unreadable stat m path :
  stat path = None -> CheckTime stat m path = (false, m).
Proof. intros H. unfold CheckTime. by rewrite H. Qed.

Lemma CheckTime_new stat m path mt :
  stat path = Some mt -> TimeMap m !! path = None ->
  CheckTime stat m path = (true, mkModifiedTimes (<[path := mt]> (TimeMap m))).
Proof. intros H1 H2. unfold CheckTime. by rewrite H1, H2. Qed.

Lemma CheckTime_same stat m path mt :
  stat path = Some mt -> TimeMap m !! path = Some mt ->
  CheckTime stat m path = (false, m).
Proof.
  intros H1 H2. unfold CheckTime. by rewrite H1, H2, Equal_refl.
Qed.

Lemma CheckTime_differs stat m path mt st :
  stat path = Some mt -> TimeMap m !! path = Some st -> st <> mt ->
  CheckTime stat m path = (true, mkModifiedTimes (<[path := mt]> (TimeMap m))).
Proof.
  intros H1 H2 Hne. unfold CheckTime. rewrite H1, H2.
  destruct (GoTime.Equal st mt) eqn:E; [|reflexivity].
  apply Equal_spec in E. contradiction.
Qed.

(** What [CheckTime] leaves in the map: other paths keep their entry, the
    observed path holds the time on disk or its old entry. *)
Lemma CheckTime_lookup stat m path q :
  TimeMap (CheckTime stat m path).2 !! q =
    if decide (q = path)
    then match stat path with
         | Some mt => Some mt
         | None => TimeMap m !! path
         end
    else TimeMap m !! q.
Proof.
  unfold CheckTime.
  destruct (stat path) as [mt|] eqn:Hs.
  - destruct (TimeMap m !! path) as [st|] eqn:Hm.
    + destruct (GoTime.Equal st mt) eqn:E; simpl.
      * apply Equal_spec in E. subst st.
        case_decide; [by subst|done].
      * case_decide; [subst; by rewrite lookup_insert_eq|by rewrite lookup_insert_ne].
    + simpl. case_decide; [subst; by rewrite lookup_insert_eq|by rewrite lookup_insert_ne].
  - simpl. case_decide; by subst.
Qed.

Lemma observeAll_app calls1 : forall calls2 m,
  observeAll (calls1 ++ calls2) m = observeAll calls2 (observeAll calls1 m).
Proof.
  induction calls1 as [|[s p] calls1 IH]; intros calls2 m; simpl; [done|].
  apply IH.
Qed.

(** ** Claims about the change tracker *)

(** C1. [TestSortaSorted]: for the snapshot holding [a] one day ago, [b] now
    and [c] two days ago, visited in the order a, b, c, [SortaSorted]
    returns exactly [c; a; b]: [a] is appended and becomes the running
    maximum, [b] is strictly after it and is appended, [c] is not after the
    running maximum and is prepended.  (One day ago is after the zero time
    for every clock reading later than the first day of year 1.) *)
Theorem SortaSorted_regression (a b c : string) (now : Z)
  (Hnow : GoTime.day < now) :
  sortaLoop [(a, GoTime.AddDays now (-1))] ([], GoTime.zero)
    = ([a], GoTime.AddDays now (-1)) /\
  sortaLoop [(b, now)] ([a], GoTime.AddDays now (-1)) = ([a; b], now) /\
  sortaLoop [(c, GoTime.AddDays now (-2))] ([a; b], now) = ([c; a; b], now) /\
  SortaSorted
    [(a, GoTime.AddDays now (-1)); (b, now); (c, GoTime.AddDays now (-2))]
    = [c; a; b].
Proof.
  assert (Ha : GoTime.After (GoTime.AddDays now (-1)) GoTime.zero = true).
  { apply After_spec. unfold GoTime.AddDays, GoTime.zero. lia. }
  assert (Hb : GoTime.After now (GoTime.AddDays now (-1)) = true).
  { apply After_spec. unfold GoTime.AddDays, GoTime.day. lia. }
  assert (Hc : GoTime.After (GoTime.AddDays now (-2)) now = false).
  { apply After_false. unfold GoTime.AddDays, GoTime.day. lia. }
  unfold SortaSorted.
  rewrite !sortaLoop_cons, (sortaStep_append _ _ _ _ Ha). simpl app.
  rewrite (sortaStep_append _ _ _ _ Hb). simpl app.
  rewrite (sortaStep_prepend _ _ _ _ Hc). simpl app.
  repeat split; reflexivity.
Qed.

Lemma SortaSorted_regression_witness :
  GoTime.day < 1793404800000000000 /\
  SortaSorted
    [("abc", GoTime.AddDays 1793404800000000000 (-1));
     ("def", 1793404800000000000);
     ("ghi", GoTime.AddDays 1793404800000000000 (-2))]
    = ["ghi"; "abc"; "def"].
Proof.
  split; [vm_compute; reflexivity|].
  apply (SortaSorted_regression "abc" "def" "ghi" 1793404800000000000).
  vm_compute; reflexivity.
Defined.

(** The result depends on the order of the visit: the same snapshot visited
    in the order c, b, a. *)
Example SortaSorted_other_order :
  SortaSorted
    [("ghi", GoTime.AddDays 1793404800000000000 (-2));
     ("def", 1793404800000000000);
     ("abc", GoTime.AddDays 1793404800000000000 (-1))]
    = ["abc"; "ghi"; "def"].
Proof. vm_compute. reflexivity. Qed.

(** C2. For a non-empty snapshot whose timestamps are all strictly after the
    zero time and which has a unique most recent timestamp, whatever the
    order in which the entries are visited, [SortaSorted] returns every
    tracked path exactly once (a permutation of the tracked paths, of length
    [Len]), and its last element is the path with the most recent
    timestamp. *)
Theorem SortaSorted_permutation_last (m : ModifiedTimes)
  (visited : list (string * Z)) (pmax : string) (tmax : Z) :
  rangeOrder m visited ->
  (forall p t, TimeMap m !! p = Some t -> GoTime.zero < t) ->
  TimeMap m !! pmax = Some tmax ->
  (forall p t, TimeMap m !! p = Some t -> p <> pmax -> t < tmax) ->
  SortaSorted visited ≡ₚ (map_to_list (TimeMap m)).*1 /\
  NoDup (SortaSorted visited) /\
  (forall p, p ∈ SortaSorted visited <-> is_Some (TimeMap m !! p)) /\
  length (SortaSorted visited) = Len m /\
  last (SortaSorted visited) = Some pmax.
Proof.
  intros Hord Hpos Hmax Huniq. unfold rangeOrder in Hord.
  assert (Hperm : SortaSorted visited ≡ₚ (map_to_list (TimeMap m)).*1).
  { unfold SortaSorted. rewrite sortaLoop_perm. simpl. by rewrite Hord. }
  split; [exact Hperm|]. split; [|split; [|split]].
  - rewrite Hperm. apply NoDup_fst_map_to_list.
  - intros p. rewrite Hperm. rewrite list_elem_of_fmap. split.
    + intros [[q t] [-> Hin]]. apply elem_of_map_to_list in Hin. by exists t.
    + intros [t Ht]. exists (p, t). split; [done|]. by apply elem_of_map_to_list.
  - rewrite Hperm. rewrite length_fmap. unfold Len. by rewrite length_map_to_list.
  - assert (Hin : (pmax, tmax) ∈ visited).
    { rewrite Hord. by apply elem_of_map_to_list. }
    apply list_elem_of_split in Hin as (l1 & l2 & ->).
    assert (Hnd : NoDup (l1 ++ (pmax, tmax) :: l2)).
    { rewrite Hord. apply NoDup_map_to_list. }
    assert (Hother : forall p t, (p, t) ∈ l1 ++ l2 -> t < tmax).
    { intros p t Hpt. apply (Huniq p t).
      - apply elem_of_map_to_list. rewrite <- Hord.
        rewrite elem_of_app in Hpt. rewrite elem_of_app, elem_of_cons. tauto.
      - intros ->.
        assert (t = tmax) as ->.
        { assert ((pmax, t) ∈ map_to_list (TimeMap m)) as Hx.
          { rewrite <- Hord. rewrite elem_of_app in Hpt.
            rewrite elem_of_app, elem_of_cons. tauto. }
          apply elem_of_map_to_list in Hx. congruence. }
        apply NoDup_app in Hnd as (_ & Hd & Hn2).
        apply NoDup_cons in Hn2 as [Hn2 _].
        rewrite elem_of_app in Hpt. destruct Hpt as [Hpt|Hpt].
        + apply (Hd _ Hpt). left.
        + done. }
    apply SortaSorted_last.
    + by apply (Hpos pmax).
    + apply Forall_forall. intros [p t] Hpt. simpl.
      apply (Hother p t). rewrite elem_of_app. by left.
    + apply Forall_forall. intros [p t] Hpt. simpl.
      apply (Hother p t). rewrite elem_of_app. by right.
Qed.

Lemma SortaSorted_permutation_last_witness :
  last (SortaSorted [("b.go", 30); ("a.go", 10); ("c.go", 20)]) = Some "b.go" /\
  length (SortaSorted [("b.go", 30); ("a.go", 10); ("c.go", 20)]) = 3%nat.
Proof.
  pose proof (SortaSorted_permutation_last
                (mkModifiedTimes (list_to_map [("b.go", 30); ("a.go", 10); ("c.go", 20)]))
                [("b.go", 30); ("a.go", 10); ("c.go", 20)] "b.go" 30) as H.
  destruct H as (_ & _ & _ & Hlen & Hlast).
  - unfold rangeOrder. cbn [TimeMap]. symmetry. apply map_to_list_to_map.
    compute_done.
  - intros p t. cbn [TimeMap]. intros Hp.
    apply elem_of_list_to_map_2 in Hp. unfold GoTime.zero.
    repeat (apply elem_of_cons in Hp as [[= -> ->]|Hp]; [lia|]).
    by apply elem_of_nil in Hp.
  - vm_compute. reflexivity.
  - intros p t. cbn [TimeMap]. intros Hp Hne.
    apply elem_of_list_to_map_2 in Hp.
    apply elem_of_cons in Hp as [[= -> ->]|Hp]; [done|].
    repeat (apply elem_of_cons in Hp as [[= -> ->]|Hp]; [lia|]).
    by apply elem_of_nil in Hp.
  - split; [exact Hlast|]. rewrite Hlen. vm_compute. reflexivity.
Defined.

(** C3. For a readable path [P], [CheckTime] returns true exactly when [P]
    is not yet tracked or its modification time on disk differs from the
    stored one, and it stores the time on disk exactly when it returns true
    (otherwise the tracker is left as it is).  So an unchanged timestamp
    gives false and an unchanged tracker, and a second call right after an
    observation gives false. *)
Theorem CheckTime_changed_iff (stat : Stat) (m : ModifiedTimes) (P : string)
  (mt : Z) :
  stat P = Some mt ->
  ((CheckTime stat m P).1 = true <->
     TimeMap m !! P = None \/
     exists storedTime, TimeMap m !! P = Some storedTime /\ storedTime <> mt) /\
  ((CheckTime stat m P).1 = true ->
     (CheckTime stat m P).2 = mkModifiedTimes (<[P := mt]> (TimeMap m))) /\
  ((CheckTime stat m P).1 = false -> (CheckTime stat m P).2 = m) /\
  (TimeMap m !! P = Some mt -> CheckTime stat m P = (false, m)) /\
  (CheckTime stat (CheckTime stat m P).2 P).1 = false.
Proof.
  intros Hs.
  assert (Hafter : TimeMap (CheckTime stat m P).2 !! P = Some mt).
  { rewrite CheckTime_lookup, Hs. by rewrite decide_True. }
  split; [|split; [|split; [|split]]].
  - destruct (TimeMap m !! P) as [st|] eqn:Hm.
    + destruct (decide (st = mt)) as [->|Hne].
      * rewrite (CheckTime_same _ _ _ _ Hs Hm). simpl. split; [done|].
        intros [?|(st & Heq & Hne)]; [done|]. congruence.
      * rewrite (CheckTime_differs _ _ _ _ _ Hs Hm Hne). simpl.
        split; [|done]. intros _. right. by exists st.
    + rewrite (CheckTime_new _ _ _ _ Hs Hm). simpl. split; [|done]. by left.
  - unfold CheckTime. rewrite Hs.
    destruct (TimeMap m !! P) as [st|]; [|done].
    by destruct (GoTime.Equal st mt).
  - unfold CheckTime. rewrite Hs.
    destruct (TimeMap m !! P) as [st|]; [|done].
    by destruct (GoTime.Equal st mt).
  - intros Hm. by apply CheckTime_same with mt.
  - by rewrite (CheckTime_same _ _ _ _ Hs Hafter).
Qed.

Lemma CheckTime_changed_iff_witness :
  (CheckTime (fun _ => Some 20) (mkModifiedTimes {["main.go" := 10]}) "main.go").1
    = true /\
  (CheckTime (fun _ => Some 20)
     (CheckTime (fun _ => Some 20) (mkModifiedTimes {["main.go" := 10]}) "main.go").2
     "main.go").1 = false.
Proof.
  pose proof (CheckTime_changed_iff (fun _ => Some 20)
                (mkModifiedTimes {["main.go" := 10]}) "main.go" 20 eq_refl)
    as (Hiff & _ & _ & _ & Hsecond).
  split; [|exact Hsecond].
  apply Hiff. right. exists 10. split; [reflexivity|lia].
Defined.

(** C5, as stated, fails: [CheckTime] stores the time on disk whenever it
    differs from the stored one, also when it is earlier. *)
Lemma CheckTime_not_monotone :
  let m := mkModifiedTimes {["main.go" := 10]} in
  let stat : Stat := fun _ => Some 5 in
  TimeMap m !! "main.go" = Some 10 /\
  CheckTime stat m "main.go" = (true, mkModifiedTimes {["main.go" := 5]}) /\
  ~ (forall (stat : Stat) (m : ModifiedTimes) (path q : string) (st : Z),
       TimeMap m !! q = Some st ->
       exists st', TimeMap (CheckTime stat m path).2 !! q = Some st' /\ st <= st').
Proof.
  split; [reflexivity|]. split.
  - unfold CheckTime. simpl. rewrite lookup_singleton_eq. simpl.
    by rewrite insert_singleton_eq.
  - intros H.
    destruct (H (fun _ => Some 5) (mkModifiedTimes {["main.go" := 10]})
                "main.go" "main.go" 10) as (st' & Hst & Hle).
    { apply lookup_singleton_eq. }
    rewrite CheckTime_lookup in Hst. rewrite decide_True in Hst by done.
    injection Hst as <-. lia.
Qed.

(** Every stored time was read from the disk by an earlier call for that
    path. *)
Lemma observeAll_stored calls : forall q st,
  TimeMap (observeAll calls emptyTimes) !! q = Some st ->
  exists i s, calls !! i = Some (s, q) /\ s q = Some st.
Proof.
  induction calls as [|[s p] calls IH] using rev_ind; intros q st Hq.
  - simpl in Hq. by rewrite lookup_empty in Hq.
  - rewrite observeAll_app in Hq. simpl in Hq.
    rewrite CheckTime_lookup in Hq.
    destruct (decide (q = p)) as [->|Hne].
    + destruct (s p) as [mt|] eqn:Hs.
      * injection Hq as <-. exists (length calls), s.
        split; [|done]. by rewrite list_lookup_middle.
      * destruct (IH _ _ Hq) as (i & s' & Hi & Hs').
        exists i, s'. split; [|done]. by apply lookup_app_l_Some.
    + destruct (IH _ _ Hq) as (i & s' & Hi & Hs').
      exists i, s'. split; [|done]. by apply lookup_app_l_Some.
Qed.

(** C5, amended.  For every path [q]: along any sequence of [CheckTime]
    calls on a fresh tracker during which the time on disk of [q] never
    goes backwards, no call replaces the stored timestamp of [q] with a
    strictly earlier one, whatever happens to the other paths; and the
    tracker holds at most one entry per path. *)
Theorem CheckTime_monotone_amended (calls : list (Stat * string))
  (stat : Stat) (path : string) :
  (forall q st,
     neverBackwards q (calls ++ [(stat, path)]) ->
     TimeMap (observeAll calls emptyTimes) !! q = Some st ->
     exists st',
       TimeMap (CheckTime stat (observeAll calls emptyTimes) path).2 !! q
         = Some st' /\ st <= st') /\
  NoDup (map_to_list
           (TimeMap (observeAll (calls ++ [(stat, path)]) emptyTimes))).*1.
Proof.
  split; [|apply NoDup_fst_map_to_list].
  intros q st Hmono Hq. rewrite CheckTime_lookup.
  destruct (decide (q = path)) as [->|Hne]; [|exists st; split; [done|lia]].
  destruct (stat path) as [mt|] eqn:Hs; [|exists st; split; [done|lia]].
  exists mt. split; [done|].
  destruct (observeAll_stored _ _ _ Hq) as (i & s & Hi & Hsi).
  apply (Hmono i (length calls) s stat st mt).
  - apply Nat.lt_le_incl. exact (lookup_lt_Some _ _ _ Hi).
  - by apply lookup_app_l_Some.
  - by rewrite list_lookup_middle.
  - done.
  - done.
Qed.

(** The time of [a.go] goes back from 10 to 5 during the run; the stored
    time of [main.go], whose time on disk goes from 10 to 20, does not. *)
Lemma CheckTime_monotone_amended_witness :
  neverBackwards "main.go"
    ([((fun _ => Some 10) : Stat, "main.go"); ((fun _ => Some 10) : Stat, "a.go");
      ((fun _ => Some 5) : Stat, "a.go")] ++ [((fun _ => Some 20) : Stat, "main.go")]) /\
  ~ neverBackwards "a.go"
    ([((fun _ => Some 10) : Stat, "main.go"); ((fun _ => Some 10) : Stat, "a.go");
      ((fun _ => Some 5) : Stat, "a.go")] ++ [((fun _ => Some 20) : Stat, "main.go")]) /\
  exists st',
    TimeMap (CheckTime (fun _ => Some 20)
               (observeAll
                  [((fun _ => Some 10) : Stat, "main.go");
                   ((fun _ => Some 10) : Stat, "a.go");
                   ((fun _ => Some 5) : Stat, "a.go")] emptyTimes)
               "main.go").2 !! "main.go" = Some st' /\ 10 <= st'.
Proof.
  assert (Hmain : neverBackwards "main.go"
    ([((fun _ => Some 10) : Stat, "main.go"); ((fun _ => Some 10) : Stat, "a.go");
      ((fun _ => Some 5) : Stat, "a.go")] ++ [((fun _ => Some 20) : Stat, "main.go")])).
  { intros i j s1 s2 t1 t2 Hij Hi Hj H1 H2.
    destruct i as [|[|[|[|i]]]]; simpl in Hi; try discriminate;
      destruct j as [|[|[|[|j]]]]; simpl in Hj; try discriminate;
      simplify_eq; lia. }
  split; [exact Hmain|]. split.
  - intros Hgo.
    pose proof (Hgo 1%nat 2%nat (fun _ => Some 10) (fun _ => Some 5) 10 5
                  (le_S _ _ (le_n _)) eq_refl eq_refl eq_refl eq_refl).
    lia.
  - refine (proj1 (CheckTime_monotone_amended
                     [((fun _ => Some 10) : Stat, "main.go");
                      ((fun _ => Some 10) : Stat, "a.go");
                      ((fun _ => Some 5) : Stat, "a.go")]
                     (fun _ => Some 20) "main.go") "main.go" 10 Hmain _).
    vm_compute. reflexivity.
Defined.

(** ** [strconv.ParseInt] and [NewWart] *)

Example ParseInt_examples :
  ParseInt "12" = Some 12 /\ ParseInt "-0012" = Some (-12) /\
  ParseInt "+7" = Some 7 /\ ParseInt "" = None /\ ParseInt "+" = None /\
  ParseInt "1x" = None /\ ParseInt " 1" = None /\
  ParseInt "9223372036854775807" = Some 9223372036854775807 /\
  ParseInt "9223372036854775808" = None /\
  ParseInt "-9223372036854775808" = Some (-9223372036854775808) /\
  ParseInt "-9223372036854775809" = None.
Proof. vm_compute. repeat split; reflexivity. Qed.

Lemma NewWart_ok reporter line column issueCode message l c :
  ParseInt line = Some l -> ParseInt column = Some c ->
  NewWart reporter line column issueCode message
    = Ok (mkWart reporter l c issueCode message).
Proof. intros Hl Hc. unfold NewWart. by rewrite Hl, Hc. Qed.

Lemma NewWart_bad_line reporter line column issueCode message :
  ParseInt line = None ->
  NewWart reporter line column issueCode message
    = Fatal ("Failed parsing line number " +:+ line).
Proof. intros Hl. unfold NewWart. by rewrite Hl. Qed.

Lemma NewWart_bad_column reporter line column issueCode message l :
  ParseInt line = Some l -> ParseInt column = None ->
  NewWart reporter line column issueCode message
    = Fatal ("Failed parsing column number " +:+ column).
Proof. intros Hl Hc. unfold NewWart. by rewrite Hl, Hc. Qed.

(** C7. [NewWart]: when the line and the column strings both parse as
    decimal integers, the result is the diagnostic with those integers and
    the given reporter, issue code and message; when either fails to parse,
    the program stops through [log.Fatalf] with a message naming the field,
    and no diagnostic is returned. *)
Theorem NewWart_parses_or_stops (reporter line column issueCode message : string) :
  (forall l c, ParseInt line = Some l -> ParseInt column = Some c ->
     NewWart reporter line column issueCode message
       = Ok {| Reporter := reporter; Line := l; Column := c;
               IssueCode := issueCode; Message := message |}) /\
  (ParseInt line = None \/ ParseInt column = None ->
     NewWart reporter line column issueCode message
       = Fatal ("Failed parsing line number " +:+ line) \/
     NewWart reporter line column issueCode message
       = Fatal ("Failed parsing column number " +:+ column)).
Proof.
  split.
  - intros l c Hl Hc. by apply NewWart_ok.
  - intros H. destruct (ParseInt line) as [l|] eqn:Hl.
    + destruct H as [H|H]; [discriminate|].
      right. by apply NewWart_bad_column with l.
    + left. by apply NewWart_bad_line.
Qed.

Lemma NewWart_parses_or_stops_witness :
  NewWart "PEP8" "3" "1" "E302" "expected 2 blank lines"
    = Ok (mkWart "PEP8" 3 1 "E302" "expected 2 blank lines") /\
  (NewWart "PEP8" "3" "99999999999999999999" "E302" "x"
     = Fatal "Failed parsing line number 3" \/
   NewWart "PEP8" "3" "99999999999999999999" "E302" "x"
     = Fatal "Failed parsing column number 99999999999999999999").
Proof.
  split.
  - apply (proj1 (NewWart_parses_or_stops "PEP8" "3" "1" "E302"
                    "expected 2 blank lines") 3 1); vm_compute; reflexivity.
  - apply (proj2 (NewWart_parses_or_stops "PEP8" "3" "99999999999999999999"
                    "E302" "x")).
    right. vm_compute. reflexivity.
Defined.

(** ** The adapters on the example lines *)

Lemma pylint_example :
  Regexp.FindAllStringSubmatch rexes.pylint "W: 12, 4: unused import"
    = [["W: 12, 4: unused import"; "W"; "12"; "4"; "unused import"]].
Proof. vm_compute. reflexivity. Qed.

Lemma goBuild_example :
  Regexp.FindAllStringSubmatch rexes.goBuild "file.go:7: undefined: foo"
    = [["go:7: undefined: foo"; "7"; "undefined: foo"]].
Proof. vm_compute. reflexivity. Qed.

(** C8. [PyLint], on a [.py] file for which pylint prints the line
    [W: 12, 4: unused import], adds exactly one diagnostic: reporter
    "Pylint", line 12, column 4, issue code "W", message "unused import"
    (the groups are severity letter, line, column, message). *)
Theorem PyLint_extracts (w : World) (tf : TargetFile) :
  Ext (Path tf) = ".py" ->
  (Output w "pylint" ["--output-format=text"; Path tf]).1
    = "W: 12, 4: unused import" ->
  PyLint w tf
    = Ok (AddWart tf {| Reporter := "Pylint"; Line := 12; Column := 4;
                        IssueCode := "W"; Message := "unused import" |}) /\
  (Warts tf = ∅ ->
   exists tf', PyLint w tf = Ok tf' /\
     Warts tf' = {[ 12 := [ {| Reporter := "Pylint"; Line := 12; Column := 4;
                               IssueCode := "W"; Message := "unused import" |} ] ]}).
Proof.
  intros Hext Hout.
  assert (Hrun : PyLint w tf
    = Ok (AddWart tf (mkWart "Pylint" 12 4 "W" "unused import"))).
  { unfold PyLint. rewrite Hext, Hout, pylint_example. reflexivity. }
  split; [exact Hrun|].
  intros Hempty. eexists. split; [exact Hrun|].
  unfold AddWart. simpl. rewrite Hempty. rewrite lookup_empty.
  rewrite lookup_insert_eq. simpl. by rewrite insert_insert_eq.
Qed.

Lemma PyLint_extracts_witness :
  exists tf',
    PyLint (mkWorld (fun _ => None)
              (fun _ _ => ("W: 12, 4: unused import", false))
              (fun _ _ => ("", false)))
           (mkTargetFile "pkg/mod.py" [] [] ∅) = Ok tf' /\
    Warts tf' = {[ 12 := [mkWart "Pylint" 12 4 "W" "unused import"] ]}.
Proof.
  apply (proj2 (PyLint_extracts
                  (mkWorld (fun _ => None)
                     (fun _ _ => ("W: 12, 4: unused import", false))
                     (fun _ _ => ("", false)))
                  (mkTargetFile "pkg/mod.py" [] [] ∅) eq_refl eq_refl)).
  reflexivity.
Defined.

(** C9. [GoCmd], on a [.go] file for which the go tool prints the line
    [file.go:7: undefined: foo], adds exactly one diagnostic: line 7,
    column 0 and issue code "-" (the defaults), message "undefined: foo";
    the reporter is the go command run. *)
Theorem GoCmd_extracts (w : World) (goCmd : string) (tf : TargetFile) :
  Ext (Path tf) = ".go" ->
  (CombinedOutput w "go" [goCmd; SplitFile (Path tf)]).1
    = "file.go:7: undefined: foo" ->
  GoCmd w goCmd tf
    = Ok (AddWart tf {| Reporter := goCmd; Line := 7; Column := 0;
                        IssueCode := "-"; Message := "undefined: foo" |}) /\
  (Warts tf = ∅ ->
   exists tf', GoCmd w goCmd tf = Ok tf' /\
     Warts tf' = {[ 7 := [ {| Reporter := goCmd; Line := 7; Column := 0;
                              IssueCode := "-"; Message := "undefined: foo" |} ] ]}).
Proof.
  intros Hext Hout.
  assert (Hrun : GoCmd w goCmd tf
    = Ok (AddWart tf (mkWart goCmd 7 0 "-" "undefined: foo"))).
  { unfold GoCmd, ExtEquals. rewrite Hext, Hout, goBuild_example.
    reflexivity. }
  split; [exact Hrun|].
  intros Hempty. eexists. split; [exact Hrun|].
  unfold AddWart. simpl. rewrite Hempty. rewrite lookup_empty.
  rewrite lookup_insert_eq. simpl. by rewrite insert_insert_eq.
Qed.

Lemma GoCmd_extracts_witness :
  exists tf',
    GoCmd (mkWorld (fun _ => None) (fun _ _ => ("", false))
             (fun _ _ => ("file.go:7: undefined: foo", true)))
          "build" (mkTargetFile "src/file.go" [] [] ∅) = Ok tf' /\
    Warts tf' = {[ 7 := [mkWart "build" 7 0 "-" "undefined: foo"] ]}.
Proof.
  apply (proj2 (GoCmd_extracts
                  (mkWorld (fun _ => None) (fun _ _ => ("", false))
                     (fun _ _ => ("file.go:7: undefined: foo", true)))
                  "build" (mkTargetFile "src/file.go" [] [] ∅)
                  eq_refl eq_refl)).
  reflexivity.
Defined.

(** ** The search of [run] finds what the pattern matches *)

Lemma lastOr_cons prev c w : lastOr prev (c :: w) = lastOr (Some c) w.
Proof.
  unfold lastOr. rewrite last_cons. by destruct (last w).
Qed.

Lemma lastOr_app prev w1 w2 :
  lastOr prev (w1 ++ w2) = lastOr (lastOr prev w1) w2.
Proof.
  unfold lastOr. rewrite last_app. by destruct (last w2).
Qed.

Lemma consumed_app w rest : Regexp.consumed (w ++ rest) rest = w.
Proof.
  unfold Regexp.consumed. rewrite length_app.
  replace (length w + length rest - length rest)%nat with (length w) by lia.
  apply take_app_length.
Qed.

(** A successful repetition took some bytes of the class, within the
    bounds, and the continuation succeeded after them. *)
Lemma rep_sound p k res : forall s min max prev caps,
  Regexp.rep p min max k prev s caps = Some res ->
  exists w rest,
    s = w ++ rest /\ Forall (fun c => p c = true) w /\
    (min <= length w)%nat /\ within max (length w) /\
    k (lastOr prev w) rest caps = Some res.
Proof.
  assert (Hstop : forall s min max prev caps,
    match min with O => k prev s caps | S _ => None end = Some res ->
    exists w rest,
      s = w ++ rest /\ Forall (fun c => p c = true) w /\
      (min <= length w)%nat /\ within max (length w) /\
      k (lastOr prev w) rest caps = Some res).
  { intros s min max prev caps H. destruct min; [|discriminate].
    exists [], s. repeat split; [constructor|done| |done].
    destruct max; simpl; [lia|done]. }
  induction s as [|c s IH]; intros min max prev caps H.
  - simpl in H. by apply Hstop.
  - simpl in H. destruct (p c && Regexp.allows max) eqn:Hpc; [|by apply Hstop].
    apply andb_true_iff in Hpc as [Hp Hmax].
    destruct (Regexp.rep p (Nat.pred min) (Regexp.less max) k (Some c) s caps)
      as [r|] eqn:Hrec; [|by apply Hstop].
    injection H as <-.
    apply IH in Hrec as (w & rest & -> & Hall & Hmin & Hwithin & Hk).
    exists (c :: w), rest. split; [done|]. split; [by constructor|].
    split; [simpl; lia|]. split.
    + destruct max as [[|m]|]; simpl in *; [discriminate|lia|done].
    + by rewrite lastOr_cons.
Qed.

(** If some number of bytes of the class, within the bounds, is followed by
    a success of the continuation, the greedy search succeeds. *)
Lemma rep_complete p k rest : forall w min max prev caps,
  Forall (fun c => p c = true) w ->
  (min <= length w)%nat -> within max (length w) ->
  (forall caps', is_Some (k (lastOr prev w) rest caps')) ->
  is_Some (Regexp.rep p min max k prev (w ++ rest) caps).
Proof.
  induction w as [|c w IH]; intros min max prev caps Hall Hmin Hmax Hk.
  - simpl in *. assert (min = O) as -> by lia.
    destruct rest as [|d rest']; simpl; [apply Hk|].
    destruct (p d && Regexp.allows max); [|apply Hk].
    destruct (Regexp.rep p 0 (Regexp.less max) k (Some d) rest' caps);
      [done|apply Hk].
  - apply Forall_cons in Hall as [Hc Hall]. simpl.
    assert (Regexp.allows max = true) as ->.
    { destruct max as [[|m]|]; simpl in *; [lia|done|done]. }
    rewrite Hc. simpl.
    destruct (IH (Nat.pred min) (Regexp.less max) (Some c) caps) as [r ->].
    + done.
    + simpl in Hmin. lia.
    + destruct max as [m|]; simpl in *; [lia|done].
    + intros caps'. rewrite <- (lastOr_cons prev). apply Hk.
    + done.
Qed.

Lemma run_sound r : forall k prev s caps res,
  Regexp.run r k prev s caps = Some res ->
  exists w rest caps',
    s = w ++ rest /\ Matches r prev w rest /\
    k (lastOr prev w) rest caps' = Some res.
Proof.
  induction r as [|c|p|p min max|i r IH| | |r1 IH1 r2 IH2];
    intros k prev s caps res H; simpl in H.
  - exists [], s, caps. repeat split; [constructor|done].
  - destruct s as [|d s]; [discriminate|].
    destruct (isByte d c) eqn:Hd; [|discriminate].
    exists [d], s, caps. repeat split; [by constructor|done].
  - destruct s as [|d s]; [discriminate|].
    destruct (p d) eqn:Hd; [|discriminate].
    exists [d], s, caps. repeat split; [by constructor|done].
  - apply rep_sound in H as (w & rest & -> & Hall & Hmin & Hmax & Hk).
    exists w, rest, caps. repeat split; [by constructor|done].
  - apply IH in H as (w & rest & caps' & -> & Hm & Hk).
    exists w, rest, ((i, Regexp.consumed (w ++ rest) rest) :: caps').
    repeat split; [by constructor|done].
  - destruct (Regexp.atLineStart prev) eqn:Hb; [|discriminate].
    exists [], s, caps. repeat split; [by constructor|done].
  - destruct (Regexp.atLineEnd s) eqn:He; [|discriminate].
    exists [], s, caps. repeat split; [by constructor|done].
  - apply IH1 in H as (w1 & rest1 & caps1 & -> & Hm1 & H).
    apply IH2 in H as (w2 & rest & caps2 & -> & Hm2 & Hk).
    exists (w1 ++ w2), rest, caps2. split; [by rewrite app_assoc|].
    split; [by constructor|]. by rewrite lastOr_app.
Qed.

Lemma run_complete r prev w rest :
  Matches r prev w rest ->
  forall k caps,
    (forall caps', is_Some (k (lastOr prev w) rest caps')) ->
    is_Some (Regexp.run r k prev (w ++ rest) caps).
Proof.
  induction 1 as [prev rest|c d prev rest Hd|p d prev rest Hd
                 |p min max w prev rest Hall Hmin Hmax
                 |i r prev w rest Hm IH|prev rest Hb|prev rest He
                 |r1 r2 prev w1 w2 rest Hm1 IH1 Hm2 IH2];
    intros k caps Hk; simpl.
  - apply Hk.
  - rewrite Hd. apply Hk.
  - rewrite Hd. apply Hk.
  - by apply rep_complete.
  - apply IH. intros caps'. apply Hk.
  - rewrite Hb. apply Hk.
  - rewrite He. apply Hk.
  - rewrite <- app_assoc. apply IH1. intros caps1.
    apply IH2. intros caps2. rewrite <- lastOr_app. apply Hk.
Qed.

Lemma run_accept_sound r prev s rest caps :
  Regexp.run r Regexp.accept prev s [] = Some (rest, caps) ->
  s = Regexp.consumed s rest ++ rest /\
  Matches r prev (Regexp.consumed s rest) rest.
Proof.
  intros Hrun.
  apply run_sound in Hrun as (w & rest' & caps' & -> & Hm & Hk).
  unfold Regexp.accept in Hk. injection Hk as <- <-.
  by rewrite consumed_app.
Qed.

(** [find] returns a match of the pattern. *)
Lemma find_sound r : forall s prev whole rest caps,
  Regexp.find r prev s = Some (whole, rest, caps) ->
  exists pre, s = pre ++ whole ++ rest /\ Matches r (lastOr prev pre) whole rest.
Proof.
  induction s as [|c s IH]; intros prev whole rest caps H; simpl in H.
  - destruct (Regexp.run r Regexp.accept prev [] []) as [[rest' caps']|] eqn:Hrun;
      [|discriminate].
    injection H as <- <- <-.
    apply run_accept_sound in Hrun as [Hs Hm]. by exists [].
  - destruct (Regexp.run r Regexp.accept prev (c :: s) []) as [[rest' caps']|] eqn:Hrun.
    + injection H as <- <- <-.
      apply run_accept_sound in Hrun as [Hs Hm]. by exists [].
    + apply IH in H as (pre & -> & Hm).
      exists (c :: pre). split; [done|]. by rewrite lastOr_cons.
Qed.

(** [find] succeeds when the pattern occurs at or after the position. *)
Lemma find_complete r : forall pre prev w rest,
  Matches r (lastOr prev pre) w rest ->
  is_Some (Regexp.find r prev (pre ++ w ++ rest)).
Proof.
  assert (Hhere : forall prev w rest,
    Matches r prev w rest -> is_Some (Regexp.find r prev (w ++ rest))).
  { intros prev w rest Hm.
    destruct (run_complete r prev w rest Hm Regexp.accept []) as [[rest' caps'] Hrun];
      [by eexists|].
    destruct (w ++ rest); simpl; by rewrite Hrun. }
  induction pre as [|c pre IH]; intros prev w rest Hm.
  - exact (Hhere prev w rest Hm).
  - simpl.
    destruct (Regexp.run r Regexp.accept prev (c :: pre ++ w ++ rest) [])
      as [[rest' caps']|]; [done|].
    apply IH. by rewrite <- (lastOr_cons prev).
Qed.

Lemma lastOr_None pre : lastOr None pre = last pre.
Proof. unfold lastOr. by destruct (last pre). Qed.

(** [FindStringSubmatch] returns a match exactly when the pattern occurs in
    the text, and then a slice of one entry per group after the whole
    match. *)
Lemma FindStringSubmatch_occurs r s :
  is_Some (Regexp.FindStringSubmatch r s) <-> occursIn r (bytes s).
Proof.
  unfold Regexp.FindStringSubmatch, occursIn. split.
  - destruct (Regexp.find r None (bytes s)) as [[[whole rest] caps]|] eqn:Hf.
    + intros _. apply find_sound in Hf as (pre & Hs & Hm).
      exists pre, whole, rest. split; [done|]. by rewrite <- lastOr_None.
    + by intros [? ?].
  - intros (pre & w & rest & -> & Hm).
    destruct (find_complete r pre None w rest) as [[[whole rest'] caps] ->].
    + by rewrite lastOr_None.
    + done.
Qed.

Lemma FindStringSubmatch_length r s groups :
  Regexp.FindStringSubmatch r s = Some groups ->
  length groups = S (Regexp.groups r).
Proof.
  unfold Regexp.FindStringSubmatch.
  destruct (Regexp.find r None (bytes s)) as [[[whole rest] caps]|]; [|done].
  intros [= <-]. unfold Regexp.submatch. simpl.
  by rewrite length_map, length_seq.
Qed.

(** The fuel of [findAll] is enough as soon as it exceeds the length of the
    input: more fuel gives the same matches. *)
Lemma findAll_fuel r : forall n m prev s,
  (length s < n)%nat -> (length s < m)%nat ->
  Regexp.findAll n r prev s = Regexp.findAll m r prev s.
Proof.
  induction n as [|n IH]; intros m prev s Hn Hm; [lia|].
  destruct m as [|m]; [lia|]. simpl.
  destruct (Regexp.find r prev s) as [[[whole rest] caps]|] eqn:Hf; [|done].
  f_equal. apply find_sound in Hf as (pre & -> & _).
  rewrite !length_app in Hn, Hm.
  destruct whole as [|c whole].
  - destruct rest as [|d rest]; [done|]. simpl in Hn, Hm. apply IH; lia.
  - simpl in Hn, Hm. apply IH; lia.
Qed.

Lemma length_bytes s : length (bytes s) = String.length s.
Proof. induction s as [|c s IH]; simpl; [done|]. by rewrite IH. Qed.

Lemma FindAllStringSubmatch_fuel r s n :
  (String.length s < n)%nat ->
  Regexp.FindAllStringSubmatch r s = Regexp.findAll n r None (bytes s).
Proof.
  intros Hn. unfold Regexp.FindAllStringSubmatch.
  apply findAll_fuel; rewrite length_bytes; lia.
Qed.

(** ** Blame names *)

Lemma isByte_eq c d : isByte c d = true <-> c = d.
Proof.
  unfold isByte, byte. rewrite Z.eqb_eq. split; [|by intros ->].
  intros H. apply N2Z.inj in H.
  rewrite <- (ascii_N_embedding c), <- (ascii_N_embedding d). by rewrite H.
Qed.

(** The pattern [blameName] occurs in a line exactly when the line has an
    opening parenthesis, word or space characters and four digits in a
    row. *)
Lemma blameName_occurs blameLine :
  occursIn rexes.blameName (bytes blameLine) <-> hasBlameName blameLine.
Proof.
  unfold occursIn, hasBlameName, rexes.blameName, Regexp.items,
    Regexp.plus, Regexp.times. simpl. split.
  - intros (pre & w & rest & Hs & Hm).
    inversion Hm as [| | | | | | |r1 r2 prev w1 w' rest1 Hm1 Hm']; subst.
    inversion Hm1 as [|c d prev1 rest1 Hd| | | | | |]; subst.
    apply isByte_eq in Hd as ->.
    inversion Hm' as [| | | | | | |r1 r2 prev w2 w'' rest1 Hm2 Hm'']; subst.
    inversion Hm2 as [| | | |i r prev2 w2' rest2 Hrep| | |]; subst.
    inversion Hrep as [| | |p min max w2' prev3 rest3 Hall2 Hmin2 Hmax2| | | |];
      subst.
    inversion Hm'' as [| | | | | | |r1 r2 prev w3 w4 rest1 Hm3 Hm4]; subst.
    inversion Hm3 as [| | |p min max w3' prev3 rest3 Hall3 Hmin3 Hmax3| | | |];
      subst.
    inversion Hm4; subst. simpl in Hmax3.
    exists pre, w2, w3, rest. split.
    { rewrite Hs. simpl. by rewrite app_nil_r, <- !app_assoc. }
    split; [by intros ->; simpl in Hmin2; lia|].
    split; [done|]. split; [lia|done].
  - intros (pre & name & year & rest & Hs & Hne & Hname & Hlen & Hyear).
    exists pre, (["("%char] ++ name ++ year ++ []), rest. split.
    { rewrite Hs. simpl. by rewrite app_nil_r, <- !app_assoc. }
    constructor; [by constructor; apply isByte_eq|].
    constructor.
    + constructor. constructor; [done| |done].
      destruct name; [done|simpl; lia].
    + constructor; [|constructor].
      constructor; [done|lia|simpl; lia].
Qed.

Lemma index_Ok {A : Type} (xs : list A) (i : Z) (x : A) :
  index xs i = Ok x <-> 0 <= i /\ xs !! Z.to_nat i = Some x.
Proof.
  unfold index. destruct (i <? 0) eqn:Hneg; simpl.
  - apply Z.ltb_lt in Hneg. split; [done|]. intros [? _]. lia.
  - apply Z.ltb_ge in Hneg.
    destruct (Z.of_nat (length xs) <=? i) eqn:Hlen.
    + apply Z.leb_le in Hlen. split; [done|]. intros [_ Hx].
      apply lookup_lt_Some in Hx. lia.
    + destruct (xs !! Z.to_nat i) as [y|]; split.
      * intros [= ->]. done.
      * intros [_ [= ->]]. done.
      * done.
      * by intros [_ ?].
Qed.

Lemma index_Panic {A : Type} (xs : list A) (i : Z) :
  index xs i = Panic "index out of range" <->
  i < 0 \/ Z.of_nat (length xs) <= i.
Proof.
  unfold index. destruct (i <? 0) eqn:Hneg; simpl.
  - apply Z.ltb_lt in Hneg. split; [by left|done].
  - apply Z.ltb_ge in Hneg.
    destruct (Z.of_nat (length xs) <=? i) eqn:Hlen.
    + apply Z.leb_le in Hlen. split; [by right|done].
    + apply Z.leb_gt in Hlen.
      destruct (xs !! Z.to_nat i) as [y|] eqn:Hy.
      * split; [done|]. lia.
      * apply lookup_ge_None in Hy. lia.
Qed.

(** [BlameName] on a file with blame lines: the line is looked up, panics
    apart. *)
Lemma BlameName_line tf line blameLine :
  BlameLines tf <> [] -> 0 <= line - 1 ->
  BlameLines tf !! Z.to_nat (line - 1) = Some blameLine ->
  BlameName tf line =
    match Regexp.FindStringSubmatch rexes.blameName blameLine with
    | Some groups => bind (index groups 1) (fun name => Ok (TrimSpace name))
    | None => Panic "index out of range"
    end.
Proof.
  intros Hne Hpos Hline. unfold BlameName.
  destruct (BlameLines tf) as [|l ls] eqn:Hbl; [done|]. simpl length.
  cbn [Nat.eqb].
  assert (index (l :: ls) (line - 1) = Ok blameLine) as ->.
  { apply index_Ok. by split. }
  simpl.
  by destruct (Regexp.FindStringSubmatch rexes.blameName blameLine).
Qed.

Lemma BlameName_out_of_range tf line :
  BlameLines tf <> [] ->
  line < 1 \/ Z.of_nat (length (BlameLines tf)) < line ->
  BlameName tf line = Panic "index out of range".
Proof.
  intros Hne Hout. unfold BlameName.
  destruct (BlameLines tf) as [|l ls] eqn:Hbl; [done|].
  cbn [length Nat.eqb].
  assert (index (l :: ls) (line - 1) = Panic "index out of range") as ->.
  { apply index_Panic. lia. }
  reflexivity.
Qed.

Lemma BlameName_no_match tf line blameLine :
  BlameLines tf <> [] -> 1 <= line ->
  BlameLines tf !! Z.to_nat (line - 1) = Some blameLine ->
  ~ hasBlameName blameLine ->
  BlameName tf line = Panic "index out of range".
Proof.
  intros Hne Hpos Hline Hno.
  rewrite (BlameName_line tf line blameLine) by (done || lia).
  destruct (Regexp.FindStringSubmatch rexes.blameName blameLine) as [groups|] eqn:Hf;
    [|done].
  exfalso. apply Hno. apply blameName_occurs, FindStringSubmatch_occurs.
  by rewrite Hf.
Qed.

Lemma BlameName_match tf line blameLine :
  BlameLines tf <> [] -> 1 <= line ->
  BlameLines tf !! Z.to_nat (line - 1) = Some blameLine ->
  hasBlameName blameLine ->
  exists name, BlameName tf line = Ok name.
Proof.
  intros Hne Hpos Hline Hhas.
  rewrite (BlameName_line tf line blameLine) by (done || lia).
  apply blameName_occurs, FindStringSubmatch_occurs in Hhas as [groups Hf].
  rewrite Hf.
  pose proof (FindStringSubmatch_length _ _ _ Hf) as Hlen.
  destruct groups as [|whole [|name groups]]; try discriminate.
  exists (TrimSpace name).
  assert (index (whole :: name :: groups) 1 = Ok name) as ->; [|done].
  apply index_Ok. split; [lia|reflexivity].
Qed.

(** C10. On a file with blame lines, [BlameName line] returns a name only
    when [1 <= line <= len(BlameLines)] and the blame line at index
    [line - 1] contains the pattern (an opening parenthesis, word or space
    characters, a year of four digits); for a line outside that range, and
    for a blame line without the pattern, the call panics.  The branch that
    returns the sentinel covers the empty [BlameLines] only. *)
Theorem BlameName_safe_only_when_matching (tf : TargetFile) (line : Z) :
  BlameLines tf <> [] ->
  ((exists name, BlameName tf line = Ok name) <->
     1 <= line <= Z.of_nat (length (BlameLines tf)) /\
     exists blameLine,
       BlameLines tf !! Z.to_nat (line - 1) = Some blameLine /\
       hasBlameName blameLine) /\
  (line < 1 \/ Z.of_nat (length (BlameLines tf)) < line ->
     BlameName tf line = Panic "index out of range") /\
  (forall blameLine,
     1 <= line ->
     BlameLines tf !! Z.to_nat (line - 1) = Some blameLine ->
     ~ hasBlameName blameLine ->
     BlameName tf line = Panic "index out of range").
Proof.
  intros Hne. split; [|split].
  - split.
    + intros [name Hname].
      destruct (decide (line < 1 \/ Z.of_nat (length (BlameLines tf)) < line))
        as [Hout|Hin].
      { rewrite (BlameName_out_of_range tf line Hne Hout) in Hname. discriminate. }
      assert (1 <= line <= Z.of_nat (length (BlameLines tf))) as Hrange by lia.
      split; [exact Hrange|].
      destruct (BlameLines tf !! Z.to_nat (line - 1)) as [blameLine|] eqn:Hline.
      * exists blameLine. split; [done|].
        destruct (Regexp.FindStringSubmatch rexes.blameName blameLine)
          as [groups|] eqn:Hf.
        -- apply blameName_occurs, FindStringSubmatch_occurs. by rewrite Hf.
        -- rewrite (BlameName_line tf line blameLine) in Hname by (done || lia).
           rewrite Hf in Hname. discriminate.
      * apply lookup_ge_None in Hline. lia.
    + intros [Hrange (blameLine & Hline & Hhas)].
      apply (BlameName_match tf line blameLine); [done|lia|done|done].
  - by apply BlameName_out_of_range.
  - intros blameLine. by apply BlameName_no_match.
Qed.

Lemma BlameName_safe_only_when_matching_witness :
  BlameName
    (mkTargetFile "main.go" []
       ["1a2b3c4d (Jane Roe 2014-03-01 10:00:00 +0000 1) package main";
        "5e6f7a8b (J. Roe 2014-03-02 10:00:00 +0000 2) import x"] ∅) 3
    = Panic "index out of range".
Proof.
  apply (BlameName_safe_only_when_matching
           (mkTargetFile "main.go" []
              ["1a2b3c4d (Jane Roe 2014-03-01 10:00:00 +0000 1) package main";
               "5e6f7a8b (J. Roe 2014-03-02 10:00:00 +0000 2) import x"] ∅) 3);
    [discriminate|].
  right. simpl. lia.
Defined.

Example BlameName_examples :
  let tf := mkTargetFile "main.go" []
    ["1a2b3c4d (Jane Roe 2014-03-01 10:00:00 +0000 1) package main";
     "5e6f7a8b (J. Roe 2014-03-02 10:00:00 +0000 2) import x"] ∅ in
  BlameName tf 1 = Ok "Jane Roe" /\
  BlameName tf 2 = Panic "index out of range".
Proof. vm_compute. split; reflexivity. Qed.

(** ** The sentinel of [BlameName] *)

(** C6, as stated, fails: the sentinel for a file without blame lines is
    "-", not "unknown". *)
Lemma BlameName_sentinel_not_unknown :
  BlameName (mkTargetFile "notes.py" ["x = 1"] [] ∅) 1 = Ok "-" /\
  ~ (forall tf line, BlameLines tf = [] -> BlameName tf line = Ok "unknown").
Proof.
  split; [reflexivity|].
  intros H. specialize (H (mkTargetFile "notes.py" ["x = 1"] [] ∅) 1 eq_refl).
  discriminate H.
Qed.

(** C6, amended.  For a file without blame lines, [BlameName] returns the
    sentinel "-" for every line asked for; it neither panics nor stops the
    program. *)
Theorem BlameName_sentinel (tf : TargetFile) (line : Z) :
  BlameLines tf = [] -> BlameName tf line = Ok "-".
Proof. intros H. unfold BlameName. by rewrite H. Qed.

Lemma BlameName_sentinel_witness :
  BlameName (mkTargetFile "notes.py" ["x = 1"] [] ∅) 7 = Ok "-".
Proof.
  apply (BlameName_sentinel (mkTargetFile "notes.py" ["x = 1"] [] ∅) 7).
  reflexivity.
Defined.

(** ** Failures of one file and the rest of the batch *)

Lemma BlameName_sentinel_empty tf line :
  BlameLines tf = [] -> BlameName tf line = Ok "-".
Proof. intros H. unfold BlameName. by rewrite H. Qed.


Lemma lookup_AddWart tf wart line :
  Warts (AddWart tf wart) !! line =
    if decide (line = Line wart)
    then Some (default [] (Warts tf !! Line wart) ++ [wart])
    else Warts tf !! line.
Proof.
  unfold AddWart. cbn [Warts].
  destruct (Warts tf !! Line wart) as [ws|] eqn:Hws; case_decide; subst.
  - by rewrite lookup_insert_eq, Hws.
  - by rewrite lookup_insert_ne.
  - by rewrite !lookup_insert_eq.
  - by rewrite !lookup_insert_ne.
Qed.

Lemma wartsWithin_refl warts : wartsWithin warts warts.
Proof. intros line ws Hws. by exists ws. Qed.

Lemma degradedResult_refl tf : degradedResult tf tf.
Proof.
  unfold degradedResult. split; [done|]. split; [done|]. split; [by left|].
  apply wartsWithin_refl.
Qed.

Lemma degradedResult_AddWart tf tf' wart :
  degradedResult tf tf' -> degradedResult (AddWart tf wart) (AddWart tf' wart).
Proof.
  intros (Hp & Hc & Hb & Hd). unfold degradedResult.
  split; [done|]. split; [done|]. split; [done|].
  intros line ws'. rewrite !lookup_AddWart. case_decide; [|apply Hd].
  intros [= <-]. eexists. split; [done|].
  apply sublist_app; [|done].
  destruct (Warts tf' !! Line wart) as [ws0'|] eqn:Hws; [|apply sublist_nil_l].
  by destruct (Hd _ _ Hws) as (ws0 & -> & Hsub).
Qed.

Lemma degradedResult_AddWart_l tf tf' wart :
  degradedResult tf tf' -> degradedResult (AddWart tf wart) tf'.
Proof.
  intros (Hp & Hc & Hb & Hd). unfold degradedResult.
  split; [done|]. split; [done|]. split; [done|].
  intros line ws' Hws. rewrite lookup_AddWart.
  destruct (Hd _ _ Hws) as (ws & Hline & Hsub).
  case_decide; [|by exists ws]. subst line. rewrite Hline.
  eexists. split; [done|]. by apply sublist_inserts_r.
Qed.

(** The loop over the matches, run from a degraded file on the same
    matches, ends as it does from the file itself. *)
Lemma forEach_addMatch_same mk parsed : forall tf tf' tf1,
  degradedResult tf tf' ->
  forEach (addMatch mk) parsed tf = Ok tf1 ->
  exists tf1', forEach (addMatch mk) parsed tf' = Ok tf1' /\
               degradedResult tf1 tf1'.
Proof.
  induction parsed as [|group parsed IH]; intros tf tf' tf1 Hd Hrun.
  - injection Hrun as <-. by exists tf'.
  - simpl in Hrun. simpl. unfold addMatch in *.
    destruct (mk group) as [wart| |]; try discriminate. simpl in *.
    apply (IH (AddWart tf wart)); [|done]. by apply degradedResult_AddWart.
Qed.

(** Run on no match at all, the loop leaves the degraded file as it is. *)
Lemma forEach_addMatch_none mk parsed : forall tf tf' tf1,
  degradedResult tf tf' ->
  forEach (addMatch mk) parsed tf = Ok tf1 ->
  degradedResult tf1 tf'.
Proof.
  induction parsed as [|group parsed IH]; intros tf tf' tf1 Hd Hrun.
  - by injection Hrun as <-.
  - simpl in Hrun. unfold addMatch in *.
    destruct (mk group) as [wart| |]; try discriminate. simpl in *.
    apply (IH (AddWart tf wart)); [|done]. by apply degradedResult_AddWart_l.
Qed.

Lemma no_output_no_match :
  Regexp.FindAllStringSubmatch rexes.pep8 "" = [] /\
  Regexp.FindAllStringSubmatch rexes.pylint "" = [] /\
  Regexp.FindAllStringSubmatch rexes.goBuild "" = [].
Proof. vm_compute. repeat split; reflexivity. Qed.

Lemma forEach_unit {A : Type} (f : A -> Outcome unit) (xs : list A) :
  forEach (fun (_ : unit) x => f x) xs tt = Ok tt <->
  Forall (fun x => f x = Ok tt) xs.
Proof.
  induction xs as [|x xs IH]; simpl.
  - split; [constructor|done].
  - rewrite Forall_cons. destruct (f x) as [[]| |]; simpl.
    + rewrite IH. tauto.
    + split; [done|]. by intros [? _].
    + split; [done|]. by intros [? _].
Qed.

Lemma BlameName_ext tf tf' line :
  BlameLines tf' = BlameLines tf -> BlameName tf' line = BlameName tf line.
Proof. intros H. unfold BlameName. by rewrite H. Qed.

(** A degraded file is displayed without a panic if the file itself is. *)
Lemma printWarts_degraded tf tf' :
  degradedResult tf tf' -> printWarts tf = Ok tt -> printWarts tf' = Ok tt.
Proof.
  intros (Hp & Hc & Hb & Hd). unfold printWarts.
  rewrite !(forEach_unit (fun entry : Z * list Wart => _)).
  rewrite !Forall_forall. intros Hall [line warts'] Hin.
  apply elem_of_map_to_list in Hin.
  destruct (Hd _ _ Hin) as (warts & Hwarts & _).
  apply elem_of_map_to_list in Hwarts.
  specialize (Hall _ Hwarts). cbn [fst] in *.
  rewrite Hc.
  destruct (BlameName tf line) as [name| |] eqn:Hname; try discriminate.
  simpl in Hall.
  assert (exists name', BlameName tf' line = Ok name') as [name' ->].
  { destruct Hb as [Hb|Hb].
    - exists name. by rewrite (BlameName_ext _ _ _ Hb).
    - exists "-". by apply BlameName_sentinel_empty. }
  exact Hall.
Qed.

Section Isolation.

Variables w w' : World.
Hypothesis Hdeg : degradedFrom w w'.

Lemma Blame_degraded tf tf' :
  degradedResult tf tf' -> degradedResult (Blame w tf) (Blame w' tf').
Proof.
  intros (Hp & Hc & Hb & Hd). unfold degradedResult, Blame.
  cbn [Path ContentLines BlameLines Warts]. rewrite Hp.
  split; [done|]. split; [done|]. split; [|done].
  destruct Hdeg as (_ & Hgit & _).
  destruct (Hgit ["blame"; Path tf]) as [-> | ->]; [by left|by right].
Qed.

Lemma Pep8_degraded tf tf' tf1 :
  degradedResult tf tf' -> Pep8 w tf = Ok tf1 ->
  exists tf1', Pep8 w' tf' = Ok tf1' /\ degradedResult tf1 tf1'.
Proof.
  intros Hd Hrun. pose proof Hd as (Hp & _). unfold Pep8 in *. rewrite Hp.
  destruct (negb (Ext (Path tf) =? ".py")%string).
  - injection Hrun as <-. by exists tf'.
  - destruct Hdeg as (_ & _ & Hout & _).
    destruct (Hout "pep8" [Path tf]) as [-> | ->]; [done| |].
    + by apply forEach_addMatch_same with tf.
    + rewrite (proj1 no_output_no_match). exists tf'. split; [done|].
      by eapply forEach_addMatch_none.
Qed.

Lemma PyLint_degraded tf tf' tf1 :
  degradedResult tf tf' -> PyLint w tf = Ok tf1 ->
  exists tf1', PyLint w' tf' = Ok tf1' /\ degradedResult tf1 tf1'.
Proof.
  intros Hd Hrun. pose proof Hd as (Hp & _). unfold PyLint in *. rewrite Hp.
  destruct (negb (Ext (Path tf) =? ".py")%string).
  - injection Hrun as <-. by exists tf'.
  - destruct Hdeg as (_ & _ & Hout & _).
    destruct (Hout "pylint" ["--output-format=text"; Path tf]) as [-> | ->];
      [done| |].
    + by apply forEach_addMatch_same with tf.
    + rewrite (proj1 (proj2 no_output_no_match)). exists tf'. split; [done|].
      by eapply forEach_addMatch_none.
Qed.

Lemma GoCmd_degraded goCmd tf tf' tf1 :
  degradedResult tf tf' -> GoCmd w goCmd tf = Ok tf1 ->
  exists tf1', GoCmd w' goCmd tf' = Ok tf1' /\ degradedResult tf1 tf1'.
Proof.
  intros Hd Hrun. pose proof Hd as (Hp & _).
  unfold GoCmd, ExtEquals in *. rewrite Hp.
  destruct (negb (Ext (Path tf) =? ".go")%string).
  - injection Hrun as <-. by exists tf'.
  - destruct Hdeg as (_ & _ & _ & Hout).
    destruct (Hout "go" [goCmd; SplitFile (Path tf)]) as [-> | ->].
    + by apply forEach_addMatch_same with tf.
    + rewrite (proj2 (proj2 no_output_no_match)). exists tf'. split; [done|].
      by eapply forEach_addMatch_none.
Qed.

Lemma NewTargetFile_degraded path tf :
  NewTargetFile w path = Ok tf ->
  exists tf', NewTargetFile w' path = Ok tf' /\ degradedResult tf tf'.
Proof.
  unfold NewTargetFile. destruct Hdeg as (Hread & _). rewrite Hread.
  destruct (ReadFile w path) as [content|]; [|discriminate].
  cbn [Path BlameLines Warts].
  set (tf0 := mkTargetFile path (Split content "010") [] ∅).
  pose proof (Blame_degraded tf0 tf0 (degradedResult_refl tf0)) as Hb.
  destruct (Pep8 w (Blame w tf0)) as [tf1| |] eqn:H1; try discriminate.
  destruct (Pep8_degraded _ _ _ Hb H1) as (tf1' & -> & Hd1). simpl.
  destruct (PyLint w tf1) as [tf2| |] eqn:H2; try discriminate.
  destruct (PyLint_degraded _ _ _ Hd1 H2) as (tf2' & -> & Hd2). simpl.
  unfold GoBuild, GoVet.
  destruct (GoCmd w "build" tf2) as [tf3| |] eqn:H3; try discriminate.
  destruct (GoCmd_degraded _ _ _ _ Hd2 H3) as (tf3' & -> & Hd3). simpl.
  destruct (GoCmd w "vet" tf3) as [tf4| |] eqn:H4; try discriminate.
  destruct (GoCmd_degraded _ _ _ _ Hd3 H4) as (tf4' & -> & Hd4). simpl.
  intros [= <-]. by exists tf4'.
Qed.

Lemma fanOut_degraded filepaths : forall tfs,
  fanOut w filepaths = Ok tfs ->
  exists tfs', fanOut w' filepaths = Ok tfs' /\ Forall2 degradedResult tfs tfs'.
Proof.
  induction filepaths as [|path rest IH]; intros tfs Hrun; simpl in *.
  - injection Hrun as <-. exists []. by split.
  - destruct (NewTargetFile w path) as [tf| |] eqn:Hnew; try discriminate.
    destruct (NewTargetFile_degraded _ _ Hnew) as (tf' & -> & Hd). simpl in *.
    destruct (fanOut w rest) as [tfs0| |]; try discriminate.
    destruct (IH tfs0 eq_refl) as (tfs0' & -> & Hall). simpl in *.
    injection Hrun as <-. exists (tf' :: tfs0'). split; [done|].
    by constructor.
Qed.

Lemma printResults_degraded visited :
  printResults w visited = Ok tt -> printResults w' visited = Ok tt.
Proof.
  unfold printResults.
  destruct (fanOut w (SortaSorted visited)) as [tfs| |] eqn:Hfan;
    try discriminate.
  destruct (fanOut_degraded _ _ Hfan) as (tfs' & -> & Hall). simpl.
  rewrite !forEach_unit. intros Hprint. clear Hfan.
  induction Hall as [|tf tf' tfs tfs' Hd Hall IH]; [constructor|].
  apply Forall_cons in Hprint as [Htf Htfs].
  constructor; [by apply printWarts_degraded with tf|by apply IH].
Qed.

Lemma pollRound_degraded mtimes paths visit filepaths st st' :
  pollRound (mkEnv w mtimes paths visit) filepaths st = Ok st' ->
  pollRound (mkEnv w' mtimes paths visit) filepaths st = Ok st'.
Proof.
  unfold pollRound. destruct st as [modTimes loopCount].
  cbn [world stat targetPaths order].
  destruct (checkUntilChanged mtimes modTimes filepaths) as [runUpdate m1].
  cbn [fst snd].
  assert (Hprint : forall visited (b : bool),
    (if b then printResults w visited else Ok tt) = Ok tt ->
    (if b then printResults w' visited else Ok tt) = Ok tt).
  { intros visited [|]; [apply printResults_degraded|done]. }
  destruct (if runUpdate then printResults w (visit m1) else Ok tt)
    as [[]| |] eqn:H1; try discriminate.
  rewrite (Hprint _ _ H1). simpl.
  destruct (Z.rem loopCount 5 =? 0); [|done].
  destruct (NewModifiedTimes paths mtimes) as [m2| |]; try done. simpl.
  destruct (if negb (Len m2 =? Len m1)%nat then printResults w (visit m2)
            else Ok tt) as [[]| |] eqn:H2; try discriminate.
  by rewrite (Hprint _ _ H2).
Qed.

End Isolation.

(** A readable file whose blame fails and whose analyzers print nothing is
    analysed to its content alone. *)
Lemma NewTargetFile_nothing w path content :
  ReadFile w path = Some content ->
  (Output w "git" ["blame"; path]).2 = true ->
  (Output w "pep8" [path]).1 = "" ->
  (Output w "pylint" ["--output-format=text"; path]).1 = "" ->
  (CombinedOutput w "go" ["build"; SplitFile path]).1 = "" ->
  (CombinedOutput w "go" ["vet"; SplitFile path]).1 = "" ->
  NewTargetFile w path = Ok (mkTargetFile path (Split content "010") [] ∅).
Proof.
  intros Hread Hblame Hpep8 Hpylint Hbuild Hvet.
  destruct no_output_no_match as (Hno1 & Hno2 & Hno3).
  unfold NewTargetFile. rewrite Hread. unfold Blame.
  cbn [Path ContentLines BlameLines Warts]. rewrite Hblame.
  assert (Pep8 w (mkTargetFile path (Split content "010") [] ∅)
          = Ok (mkTargetFile path (Split content "010") [] ∅)) as ->.
  { unfold Pep8. cbn [Path]. rewrite Hpep8, Hno1.
    by destruct (negb (Ext path =? ".py")%string). }
  simpl.
  assert (PyLint w (mkTargetFile path (Split content "010") [] ∅)
          = Ok (mkTargetFile path (Split content "010") [] ∅)) as ->.
  { unfold PyLint. cbn [Path]. rewrite Hpylint, Hno2.
    by destruct (negb (Ext path =? ".py")%string). }
  simpl. unfold GoBuild, GoVet.
  assert (forall goCmd,
    (CombinedOutput w "go" [goCmd; SplitFile path]).1 = "" ->
    GoCmd w goCmd (mkTargetFile path (Split content "010") [] ∅)
      = Ok (mkTargetFile path (Split content "010") [] ∅)) as Hgo.
  { intros goCmd Hout. unfold GoCmd, ExtEquals. cbn [Path].
    rewrite Hout, Hno3. by destruct (negb (Ext path =? ".go")%string). }
  rewrite (Hgo "build" Hbuild). simpl. by rewrite (Hgo "vet" Hvet).
Qed.

(** The adapters add diagnostics and touch nothing else. *)
Lemma forEach_addMatch_fields mk parsed : forall tf tf1,
  forEach (addMatch mk) parsed tf = Ok tf1 ->
  Path tf1 = Path tf /\ ContentLines tf1 = ContentLines tf /\
  BlameLines tf1 = BlameLines tf.
Proof.
  induction parsed as [|group parsed IH]; intros tf tf1 Hrun.
  - by injection Hrun as <-.
  - simpl in Hrun. unfold addMatch in Hrun.
    destruct (mk group) as [wart| |]; try discriminate. simpl in Hrun.
    by apply IH in Hrun.
Qed.

Lemma Pep8_fields w tf tf1 :
  Pep8 w tf = Ok tf1 ->
  Path tf1 = Path tf /\ ContentLines tf1 = ContentLines tf /\
  BlameLines tf1 = BlameLines tf.
Proof.
  unfold Pep8. destruct (negb (Ext (Path tf) =? ".py")%string).
  - by intros [= <-].
  - apply forEach_addMatch_fields.
Qed.

Lemma PyLint_fields w tf tf1 :
  PyLint w tf = Ok tf1 ->
  Path tf1 = Path tf /\ ContentLines tf1 = ContentLines tf /\
  BlameLines tf1 = BlameLines tf.
Proof.
  unfold PyLint. destruct (negb (Ext (Path tf) =? ".py")%string).
  - by intros [= <-].
  - apply forEach_addMatch_fields.
Qed.

Lemma GoCmd_fields w goCmd tf tf1 :
  GoCmd w goCmd tf = Ok tf1 ->
  Path tf1 = Path tf /\ ContentLines tf1 = ContentLines tf /\
  BlameLines tf1 = BlameLines tf.
Proof.
  unfold GoCmd. destruct (negb (ExtEquals tf ".go")).
  - by intros [= <-].
  - apply forEach_addMatch_fields.
Qed.

(** An analysed file has the path asked for, the lines of the content
    read, and the blame lines [Blame] has set. *)
Lemma NewTargetFile_fields w path tf :
  NewTargetFile w path = Ok tf ->
  Path tf = path /\
  (exists content, ReadFile w path = Some content /\
                   ContentLines tf = Split content "010") /\
  BlameLines tf =
    (if (Output w "git" ["blame"; path]).2 then []
     else Split (Output w "git" ["blame"; path]).1 "010").
Proof.
  unfold NewTargetFile.
  destruct (ReadFile w path) as [content|]; [|discriminate].
  cbn [Path BlameLines Warts].
  set (tf0 := Blame w (mkTargetFile path (Split content "010") [] ∅)).
  destruct (Pep8 w tf0) as [tf1| |] eqn:H1; try discriminate. simpl.
  destruct (PyLint w tf1) as [tf2| |] eqn:H2; try discriminate. simpl.
  unfold GoBuild, GoVet.
  destruct (GoCmd w "build" tf2) as [tf3| |] eqn:H3; try discriminate. simpl.
  destruct (GoCmd w "vet" tf3) as [tf4| |] eqn:H4; try discriminate. simpl.
  intros [= <-].
  apply Pep8_fields in H1 as (P1 & C1 & B1).
  apply PyLint_fields in H2 as (P2 & C2 & B2).
  apply GoCmd_fields in H3 as (P3 & C3 & B3).
  apply GoCmd_fields in H4 as (P4 & C4 & B4).
  split; [by rewrite P4, P3, P2, P1|]. split.
  - exists content. split; [done|]. by rewrite C4, C3, C2, C1.
  - by rewrite B4, B3, B2, B1.
Qed.

Lemma NewTargetFile_unreadable w path :
  ReadFile w path = None ->
  NewTargetFile w path = Fatal ("Unable to read file " +:+ path).
Proof. intros H. unfold NewTargetFile. by rewrite H. Qed.

(** ** Failure isolation *)

(** C4, as stated, fails for the unreadable file: [NewTargetFile] calls
    [log.Fatal] and the process ends, the other file of the batch, which
    is analysed without trouble on its own, is lost with it. *)
Lemma unreadable_file_ends_the_batch :
  let w := mkWorld
             (fun path => if (path =? "gone.go")%string then None
                          else Some "package main")
             (fun _ _ => ("", false)) (fun _ _ => ("", false)) in
  fanOut w ["main.go"]
    = Ok [mkTargetFile "main.go" ["package main"] [""] ∅] /\
  NewTargetFile w "gone.go" = Fatal "Unable to read file gone.go" /\
  fanOut w ["gone.go"; "main.go"] = Fatal "Unable to read file gone.go" /\
  fanOut w ["main.go"; "gone.go"] = Fatal "Unable to read file gone.go" /\
  printResults w [("main.go", 2); ("gone.go", 1)]
    = Fatal "Unable to read file gone.go".
Proof. vm_compute. repeat split; reflexivity. Qed.

(** C4, amended.  Failing blame, analyzers that cannot be started and
    analyzers that exit with a non-zero status do not abort anything: when
    the analysis of a file, a fan-out or a round of the polling loop
    completes in a world, it completes in every world that adds such
    failures, each file keeping its path and content, with its blame lines
    or none and no diagnostic it did not have.  A file whose blame fails has
    no blame lines; a readable file whose blame fails and whose analyzers
    print nothing is analysed to its content, no blame lines and no
    diagnostics.  An unreadable file is not isolated: it ends the program
    through [log.Fatal]. *)
Theorem analysis_failures_isolated (w w' : World) :
  degradedFrom w w' ->
  (forall path tf,
     NewTargetFile w path = Ok tf ->
     exists tf', NewTargetFile w' path = Ok tf' /\ degradedResult tf tf') /\
  (forall filepaths tfs,
     fanOut w filepaths = Ok tfs ->
     exists tfs', fanOut w' filepaths = Ok tfs' /\
                  Forall2 degradedResult tfs tfs') /\
  (forall mtimes paths visit filepaths st st',
     pollRound (mkEnv w mtimes paths visit) filepaths st = Ok st' ->
     pollRound (mkEnv w' mtimes paths visit) filepaths st = Ok st') /\
  (forall path tf',
     NewTargetFile w' path = Ok tf' ->
     (Output w' "git" ["blame"; path]).2 = true ->
     BlameLines tf' = []) /\
  (forall path content,
     ReadFile w' path = Some content ->
     (Output w' "git" ["blame"; path]).2 = true ->
     (Output w' "pep8" [path]).1 = "" ->
     (Output w' "pylint" ["--output-format=text"; path]).1 = "" ->
     (CombinedOutput w' "go" ["build"; SplitFile path]).1 = "" ->
     (CombinedOutput w' "go" ["vet"; SplitFile path]).1 = "" ->
     NewTargetFile w' path
       = Ok (mkTargetFile path (Split content "010") [] ∅)) /\
  (forall path,
     ReadFile w' path = None ->
     NewTargetFile w' path = Fatal ("Unable to read file " +:+ path)).
Proof.
  intros Hdeg. split; [|split; [|split; [|split; [|split]]]].
  - intros path tf. by apply NewTargetFile_degraded.
  - intros filepaths tfs. by apply fanOut_degraded.
  - intros mtimes paths visit filepaths st st'. by apply pollRound_degraded.
  - intros path tf' Hrun Hblame.
    apply NewTargetFile_fields in Hrun as (_ & _ & ->). by rewrite Hblame.
  - intros path content. apply NewTargetFile_nothing.
  - intros path. apply NewTargetFile_unreadable.
Qed.

Lemma analysis_failures_isolated_witness :
  exists tfs',
    fanOut (mkWorld (fun _ => Some "import os")
              (fun _ _ => ("", true)) (fun _ _ => ("", true)))
           ["tool.py"; "main.go"] = Ok tfs'.
Proof.
  assert (Hdeg : degradedFrom
            (mkWorld (fun _ => Some "import os")
               (fun name _ =>
                  if (name =? "git")%string
                  then ("1a2b3c4d (Jane Roe 2014-03-01 10:00:00 +0000 1) import os",
                        false)
                  else ("W:  1, 0: Unused import os", false))
               (fun _ _ => ("main.go:1: expected 'package'", true)))
            (mkWorld (fun _ => Some "import os")
               (fun _ _ => ("", true)) (fun _ _ => ("", true)))).
  { unfold degradedFrom. cbn [ReadFile Output CombinedOutput].
    split; [done|]. split; [by right|]. split; by right. }
  destruct (analysis_failures_isolated _ _ Hdeg) as (_ & Hfan & _).
  destruct (Hfan ["tool.py"; "main.go"]
              [mkTargetFile "tool.py" ["import os"]
                 ["1a2b3c4d (Jane Roe 2014-03-01 10:00:00 +0000 1) import os"]
                 {[ 1 := [mkWart "Pylint" 1 0 "W" "Unused import os"] ]};
               mkTargetFile "main.go" ["import os"]
                 ["1a2b3c4d (Jane Roe 2014-03-01 10:00:00 +0000 1) import os"]
                 {[ 1 := [mkWart "build" 1 0 "-" "expected 'package'";
                          mkWart "vet" 1 0 "-" "expected 'package'"] ]}])
    as (tfs' & Hrun & _).
  - vm_compute. reflexivity.
  - by exists tfs'.
Defined.


(** * Further properties of the code *)

(** ** The change tracker *)

Lemma CheckTime_true_stale stat m path :
  (CheckTime stat m path).1 = true <-> stale stat m path.
Proof.
  unfold stale. destruct (stat path) as [mt|] eqn:Hs.
  - destruct (TimeMap m !! path) as [st|] eqn:Hm.
    + destruct (decide (st = mt)) as [->|Hne].
      * rewrite (CheckTime_same _ _ _ _ Hs Hm). simpl. split; [done|].
        intros (mt' & [= <-] & Hx). done.
      * rewrite (CheckTime_differs _ _ _ _ _ Hs Hm Hne). simpl.
        split; [|done]. intros _. exists mt. split; [done|]. congruence.
    + rewrite (CheckTime_new _ _ _ _ Hs Hm). simpl.
      split; [|done]. intros _. by exists mt.
  - rewrite (CheckTime_unreadable _ _ _ Hs). simpl. split; [done|].
    by intros (mt & ? & _).
Qed.

Lemma CheckTime_false_same stat m path :
  (CheckTime stat m path).1 = false -> (CheckTime stat m path).2 = m.
Proof.
  unfold CheckTime. destruct (stat path) as [mt|]; [|done].
  destruct (TimeMap m !! path) as [st|]; [|done].
  by destruct (GoTime.Equal st mt).
Qed.

Lemma CheckTime_true_insert stat m path :
  (CheckTime stat m path).1 = true ->
  exists mt, stat path = Some mt /\
    (CheckTime stat m path).2 = mkModifiedTimes (<[path := mt]> (TimeMap m)).
Proof.
  unfold CheckTime. destruct (stat path) as [mt|]; [|done].
  intros H. exists mt. split; [done|].
  destruct (TimeMap m !! path) as [st|]; [|done].
  by destruct (GoTime.Equal st mt).
Qed.

Lemma CheckTime_Len stat m path :
  (Len m <= Len (CheckTime stat m path).2 <= S (Len m))%nat.
Proof.
  destruct (CheckTime stat m path).1 eqn:Hr.
  - apply CheckTime_true_insert in Hr as (mt & _ & ->).
    unfold Len. cbn [TimeMap].
    rewrite map_size_insert. destruct (TimeMap m !! path); simpl; lia.
  - rewrite (CheckTime_false_same _ _ _ Hr). lia.
Qed.

Lemma observeAll_Len calls : forall m,
  (Len (observeAll calls m) <= Len m + length calls)%nat.
Proof.
  induction calls as [|[s p] calls IH]; intros m; simpl; [lia|].
  specialize (IH (CheckTime s m p).2).
  pose proof (CheckTime_Len s m p). lia.
Qed.

(** X1. [CheckTime] touches the entry of the observed path only: every
    other path keeps its entry, no path is ever dropped, the number of
    tracked paths grows by one at most, and a path that cannot be read
    leaves the tracker as it is and counts as unchanged. *)
Theorem CheckTime_frame (stat : Stat) (m : ModifiedTimes) (path : string) :
  (forall q, q <> path ->
     TimeMap (CheckTime stat m path).2 !! q = TimeMap m !! q) /\
  (forall q, is_Some (TimeMap m !! q) ->
     is_Some (TimeMap (CheckTime stat m path).2 !! q)) /\
  (Len m <= Len (CheckTime stat m path).2 <= S (Len m))%nat /\
  (stat path = None -> CheckTime stat m path = (false, m)).
Proof.
  split; [|split; [|split]].
  - intros q Hq. rewrite CheckTime_lookup. by rewrite decide_False.
  - intros q Hq. rewrite CheckTime_lookup. case_decide; [|done].
    subst q. by destruct (stat path).
  - apply CheckTime_Len.
  - apply CheckTime_unreadable.
Qed.

Lemma observeAll_same_stat stat paths : forall m p,
  TimeMap (observeAll (map (fun file => (stat, file)) paths) m) !! p =
    if decide (p ∈ paths)
    then match stat p with
         | Some mt => Some mt
         | None => TimeMap m !! p
         end
    else TimeMap m !! p.
Proof.
  induction paths as [|a paths IH]; intros m p.
  - destruct (decide (p ∈ [])) as [Hin|_]; [|done].
    by apply elem_of_nil in Hin.
  - cbn [map observeAll]. rewrite IH, !CheckTime_lookup.
    destruct (decide (p ∈ paths)) as [Hin|Hnin];
      destruct (decide (p = a)) as [->|Hne];
      destruct (decide (_ ∈ a :: paths)) as [Hin'|Hnin'];
      try done; try (by destruct (stat _)); exfalso;
      first [ apply Hnin'; by right
            | apply Hnin'; by left
            | apply elem_of_cons in Hin' as [?|?]; done ].
Qed.

(** X2. [NewModifiedTimes] tracks exactly the target paths whose
    modification time can be read, each with its time on disk: a path
    listed twice is tracked once, a path that cannot be read is left out,
    and a failure of [targetPaths] ends the program. *)
Theorem NewModifiedTimes_tracks (stat : Stat) (paths : list string) :
  (exists m,
     NewModifiedTimes (Ok paths) stat = Ok m /\
     (forall p, TimeMap m !! p = if decide (p ∈ paths) then stat p else None) /\
     (Len m <= length paths)%nat) /\
  (forall msg, NewModifiedTimes (Fatal msg) stat = Fatal msg).
Proof.
  split; [|done].
  eexists. split; [reflexivity|].
  assert (Hlook : forall p,
    TimeMap (observeAll (map (fun file => (stat, file)) paths) emptyTimes) !! p
      = if decide (p ∈ paths) then stat p else None).
  { intros p. rewrite observeAll_same_stat. cbn [emptyTimes TimeMap].
    rewrite lookup_empty. case_decide; [|done]. by destruct (stat p). }
  split; [exact Hlook|].
  etrans; [apply observeAll_Len|].
  rewrite length_map. unfold Len, emptyTimes. cbn [TimeMap].
  by rewrite map_size_empty.
Qed.

(** X3. The inner loop of [main] stops at the first path that has changed:
    it answers false exactly when no path of the list is stale, and then
    the tracker is as before; when it answers true, the paths before the
    first stale one were looked at and found unchanged, the time on disk
    of that path is stored, and the paths after it are not looked at. *)
Theorem checkUntilChanged_first_stale (stat : Stat) (m : ModifiedTimes)
  (filepaths : list string) :
  ((checkUntilChanged stat m filepaths).1 = false <->
     forall p, p ∈ filepaths -> ~ stale stat m p) /\
  ((checkUntilChanged stat m filepaths).1 = false ->
     (checkUntilChanged stat m filepaths).2 = m) /\
  ((checkUntilChanged stat m filepaths).1 = true ->
     exists before p after mt,
       filepaths = before ++ p :: after /\
       (forall q, q ∈ before -> ~ stale stat m q) /\
       stat p = Some mt /\ TimeMap m !! p <> Some mt /\
       (checkUntilChanged stat m filepaths).2
         = mkModifiedTimes (<[p := mt]> (TimeMap m))).
Proof.
  induction filepaths as [|file rest IH]; simpl.
  - split; [|split; [done|done]]. split; [|done].
    intros _ p Hp. by apply elem_of_nil in Hp.
  - destruct (CheckTime stat m file).1 eqn:Hr; simpl.
    + split; [|split; [done|]].
      * split; [done|]. intros Hall. exfalso.
        apply (Hall file); [by left|]. by apply CheckTime_true_stale.
      * intros _. pose proof Hr as Hst.
        apply CheckTime_true_stale in Hst as (mt & Hs & Hm).
        apply CheckTime_true_insert in Hr as (mt' & Hs' & ->).
        exists [], file, rest, mt. split; [done|]. split.
        { intros q Hq. by apply elem_of_nil in Hq. }
        split; [done|]. split; [done|]. congruence.
    + rewrite (CheckTime_false_same _ _ _ Hr).
      destruct IH as (IH1 & IH2 & IH3).
      assert (Hfile : ~ stale stat m file).
      { intros Hst. apply CheckTime_true_stale in Hst. congruence. }
      split; [|split; [done|]].
      * rewrite IH1. split.
        -- intros Hall p [->|Hp]%elem_of_cons; [done|by apply Hall].
        -- intros Hall p Hp. apply Hall. by right.
      * intros Htrue.
        destruct (IH3 Htrue) as (before & p & after & mt & -> & Hb & H3).
        exists (file :: before), p, after, mt. split; [done|].
        split; [|done].
        intros q [->|Hq]%elem_of_cons; [done|by apply Hb].
Qed.

(** ** The order of the paths *)

(** The loop of [SortaSorted] from any state: either no entry was after the
    running maximum, and the paths were all put in front, the last visited
    first; or the slice ends with an entry that holds the greatest time. *)
Lemma sortaLoop_outcome visited : forall acc mx,
  ((sortaLoop visited (acc, mx)).2 = mx /\
   Forall (fun e => e.2 <= mx) visited /\
   (sortaLoop visited (acc, mx)).1 = reverse visited.*1 ++ acc) \/
  (exists p,
     last (sortaLoop visited (acc, mx)).1 = Some p /\
     (p, (sortaLoop visited (acc, mx)).2) ∈ visited /\
     mx < (sortaLoop visited (acc, mx)).2 /\
     Forall (fun e => e.2 <= (sortaLoop visited (acc, mx)).2) visited).
Proof.
  induction visited as [|[q t] visited IH]; intros acc mx.
  - left. split; [done|]. split; [constructor|done].
  - rewrite sortaLoop_cons. cbn [sortaStep].
    destruct (GoTime.After t mx) eqn:Ht.
    + apply After_spec in Ht. right.
      destruct (IH (acc ++ [q]) t) as [(Hmx & Hall & Hacc)|(p & Hl & Hin & Hlt & Hall)].
      * exists q. rewrite Hacc, Hmx.
        split; [by rewrite app_assoc, last_snoc|].
        split; [by left|]. split; [done|].
        constructor; [simpl; lia|done].
      * exists p. split; [done|]. split; [by right|]. split; [lia|].
        constructor; [simpl; lia|done].
    + apply After_false in Ht.
      destruct (IH ([q] ++ acc) mx) as [(Hmx & Hall & Hacc)|(p & Hl & Hin & Hlt & Hall)].
      * left. split; [done|]. split; [by constructor|].
        rewrite Hacc. cbn [fmap list_fmap fst]. rewrite reverse_cons.
        by rewrite <- app_assoc.
      * right. exists p. split; [done|]. split; [by right|]. split; [done|].
        constructor; [|done].
        eapply Z.le_trans; [exact Ht|]. apply Z.lt_le_incl. exact Hlt.
Qed.

(** X4. Whatever the timestamps and the order of the visit, [SortaSorted]
    returns every visited path once: the result is a permutation of the
    paths visited, of the same length. *)
Theorem SortaSorted_every_path_once (visited : list (string * Z)) :
  SortaSorted visited ≡ₚ visited.*1 /\
  length (SortaSorted visited) = length visited.
Proof.
  assert (H : SortaSorted visited ≡ₚ visited.*1).
  { unfold SortaSorted. by rewrite sortaLoop_perm. }
  split; [exact H|]. by rewrite H, length_fmap.
Qed.

(** X5. When some timestamp is after the zero time, the last path of
    [SortaSorted] holds a greatest timestamp, unique or not. *)
Theorem SortaSorted_last_is_latest (visited : list (string * Z)) :
  Exists (fun e => GoTime.zero < e.2) visited ->
  exists p t,
    last (SortaSorted visited) = Some p /\ (p, t) ∈ visited /\
    Forall (fun e => e.2 <= t) visited.
Proof.
  intros Hex. unfold SortaSorted.
  destruct (sortaLoop_outcome visited [] GoTime.zero)
    as [(_ & Hall & _)|(p & Hl & Hin & _ & Hall)].
  - exfalso. apply Exists_exists in Hex as (e & He & Hpos).
    rewrite Forall_forall in Hall. specialize (Hall e He). lia.
  - by exists p, (sortaLoop visited ([], GoTime.zero)).2.
Qed.

Lemma SortaSorted_last_is_latest_witness :
  exists p t,
    last (SortaSorted [("a.go", 5); ("b.go", 9); ("c.go", 9); ("d.go", 2)])
      = Some p /\
    (p, t) ∈ [("a.go", 5); ("b.go", 9); ("c.go", 9); ("d.go", 2)] /\
    Forall (fun e => e.2 <= t) [("a.go", 5); ("b.go", 9); ("c.go", 9); ("d.go", 2)].
Proof.
  apply (SortaSorted_last_is_latest
           [("a.go", 5); ("b.go", 9); ("c.go", 9); ("d.go", 2)]).
  apply Exists_cons_hd. unfold GoTime.zero. simpl. lia.
Defined.

(** X6. When no timestamp is after the zero time (all files carry the zero
    time or an earlier one), nothing is appended: [SortaSorted] returns the
    paths in the reverse of the order visited. *)
Theorem SortaSorted_none_after_zero (visited : list (string * Z)) :
  Forall (fun e => e.2 <= GoTime.zero) visited ->
  SortaSorted visited = reverse visited.*1.
Proof.
  intros Hall. unfold SortaSorted.
  destruct (sortaLoop_outcome visited [] GoTime.zero)
    as [(_ & _ & Hacc)|(p & _ & Hin & Hlt & _)].
  - by rewrite Hacc, app_nil_r.
  - exfalso. rewrite Forall_forall in Hall. specialize (Hall _ Hin).
    simpl in Hall. lia.
Qed.

Lemma SortaSorted_none_after_zero_witness :
  SortaSorted [("a.go", 0); ("b.go", -3); ("c.go", 0)]
    = ["c.go"; "b.go"; "a.go"].
Proof.
  apply (SortaSorted_none_after_zero [("a.go", 0); ("b.go", -3); ("c.go", 0)]).
  unfold GoTime.zero. repeat constructor; simpl; lia.
Defined.

Lemma mostRecent_outcome visited : forall rp mx,
  (fold_left mostRecentStep visited (rp, mx) = (rp, mx) /\
   Forall (fun e => e.2 <= mx) visited) \/
  (((fold_left mostRecentStep visited (rp, mx)).1,
    (fold_left mostRecentStep visited (rp, mx)).2) ∈ visited /\
   mx < (fold_left mostRecentStep visited (rp, mx)).2 /\
   Forall (fun e => e.2 <= (fold_left mostRecentStep visited (rp, mx)).2)
     visited).
Proof.
  induction visited as [|[q t] visited IH]; intros rp mx.
  - left. split; [done|constructor].
  - cbn [fold_left mostRecentStep]. unfold GoTime.Before.
    destruct (mx <? t) eqn:Ht.
    + apply Z.ltb_lt in Ht. right.
      destruct (IH q t) as [(Heq & Hall)|(Hin & Hlt & Hall)].
      * rewrite Heq. cbn [fst snd]. split; [by left|]. split; [done|].
        constructor; [simpl; lia|done].
      * split; [by right|]. split; [lia|].
        constructor; [|done]. apply Z.lt_le_incl. exact Hlt.
    + apply Z.ltb_ge in Ht.
      destruct (IH rp mx) as [(Heq & Hall)|(Hin & Hlt & Hall)].
      * left. split; [done|by constructor].
      * right. split; [by right|]. split; [done|].
        constructor; [|done].
        eapply Z.le_trans; [exact Ht|]. apply Z.lt_le_incl. exact Hlt.
Qed.

(** The loops of [SortaSorted] and of [MostRecent] keep the same running
    maximum, and the path [MostRecent] holds is the last of the slice. *)
Lemma sortaLoop_mostRecent visited : forall acc mx rp,
  (sortaLoop visited (acc, mx)).2
    = (fold_left mostRecentStep visited (rp, mx)).2 /\
  (last acc = Some rp ->
   last (sortaLoop visited (acc, mx)).1
     = Some (fold_left mostRecentStep visited (rp, mx)).1) /\
  (mx < (sortaLoop visited (acc, mx)).2 ->
   last (sortaLoop visited (acc, mx)).1
     = Some (fold_left mostRecentStep visited (rp, mx)).1).
Proof.
  induction visited as [|[q t] visited IH]; intros acc mx rp.
  - simpl. split; [done|]. split; [done|]. lia.
  - rewrite sortaLoop_cons. cbn [fold_left mostRecentStep sortaStep].
    unfold GoTime.Before, GoTime.After.
    destruct (mx <? t) eqn:Ht.
    + destruct (IH (acc ++ [q]) t q) as (H1 & H2 & _).
      specialize (H2 (last_snoc _ _)). by repeat split.
    + destruct (IH ([q] ++ acc) mx rp) as (H1 & H2 & H3).
      split; [done|]. split; [|done].
      intros Hl. apply H2. simpl.
      destruct acc as [|a acc]; [done|]. by rewrite last_cons_cons.
Qed.

(** X7. [MostRecent] returns the empty string when no timestamp is after
    the zero time (in particular on an empty tracker); otherwise it returns
    a path that holds a greatest timestamp, and that path is the one
    [SortaSorted] puts last for the same order of visit. *)
Theorem MostRecent_latest (visited : list (string * Z)) :
  (Forall (fun e => e.2 <= GoTime.zero) visited -> MostRecent visited = "") /\
  (Exists (fun e => GoTime.zero < e.2) visited ->
   exists t,
     (MostRecent visited, t) ∈ visited /\
     Forall (fun e => e.2 <= t) visited /\
     last (SortaSorted visited) = Some (MostRecent visited)).
Proof.
  unfold MostRecent, SortaSorted.
  destruct (mostRecent_outcome visited "" GoTime.zero)
    as [(Heq & Hall)|(Hin & Hlt & Hall)].
  - split; [by rewrite Heq|].
    intros Hex. exfalso. apply Exists_exists in Hex as (e & He & Hpos).
    rewrite Forall_forall in Hall. specialize (Hall e He). lia.
  - split.
    + intros Hle. exfalso. rewrite Forall_forall in Hle.
      specialize (Hle _ Hin). simpl in Hle. lia.
    + intros _. eexists. split; [exact Hin|]. split; [exact Hall|].
      destruct (sortaLoop_mostRecent visited [] GoTime.zero "") as (H1 & _ & H3).
      apply H3. by rewrite H1.
Qed.

(** ** [PathsByModTime] *)

(** Every sorted permutation of a list of instants is the same list: the
    choice of the sorting algorithm does not matter. *)
Lemma sorted_times_unique (times sorted : list Z) :
  Sorted Z.le sorted -> sorted ≡ₚ times -> sorted = sortTimes times.
Proof.
  intros Hs Hp. apply (Sorted_unique Z.le); [done| |].
  - apply (Sorted_merge_sort Z.le).
  - unfold sortTimes. by rewrite merge_sort_Permutation.
Qed.

Lemma timesToPaths_other (visited : list (string * Z)) :
  forall (acc : gmap Z string) (t : Z),
  t ∉ visited.*2 ->
  fold_left (fun acc entry => <[entry.2 := entry.1]> acc) visited acc !! t
    = acc !! t.
Proof.
  induction visited as [|[q u] visited IH]; intros acc t Ht; [done|].
  cbn [fold_left]. rewrite IH.
  - rewrite lookup_insert_ne; [done|]. intros <-. apply Ht. by left.
  - intros Hin. apply Ht. by right.
Qed.

Lemma timesToPaths_lookup visited p t :
  NoDup visited.*2 -> (p, t) ∈ visited -> timesToPaths visited !! t = Some p.
Proof.
  unfold timesToPaths. generalize (∅ : gmap Z string).
  induction visited as [|[q u] visited IH]; intros acc Hnd Hin.
  - by apply elem_of_nil in Hin.
  - cbn [fmap list_fmap snd] in Hnd. apply NoDup_cons in Hnd as [Hu Hnd].
    cbn [fold_left]. apply elem_of_cons in Hin as [[= -> ->]|Hin].
    + rewrite timesToPaths_other by done. apply lookup_insert_eq.
    + by apply IH.
Qed.

Lemma StronglySorted_le_lt (l : list Z) :
  StronglySorted Z.le l -> NoDup l -> StronglySorted Z.lt l.
Proof.
  induction 1 as [|x l Hs IH Hall]; intros Hnd; [constructor|].
  apply NoDup_cons in Hnd as [Hx Hnd]. constructor; [by apply IH|].
  rewrite Forall_forall in Hall |- *. intros y Hy.
  specialize (Hall y Hy). assert (x <> y) by (by intros ->). lia.
Qed.

(** X8. When the tracked timestamps are pairwise distinct, [PathsByModTime]
    lists every tracked path once, by strictly increasing timestamp: it is
    the list of paths of the entries sorted by time. *)
Theorem PathsByModTime_sorted (visited : list (string * Z)) :
  NoDup visited.*2 ->
  exists entries,
    entries ≡ₚ visited /\
    StronglySorted Z.lt entries.*2 /\
    PathsByModTime visited = entries.*1.
Proof.
  intros Hnd.
  set (g := fun t : Z => (default "" (timesToPaths visited !! t), t)).
  exists (g <$> sortTimes visited.*2).
  assert (Hperm : sortTimes visited.*2 ≡ₚ visited.*2).
  { unfold sortTimes. apply merge_sort_Permutation. }
  split; [|split].
  - rewrite Hperm.
    assert (g <$> visited.*2 = visited) as ->; [|done].
    rewrite <- list_fmap_compose.
    etrans; [apply (list_fmap_ext _ id)|apply list_fmap_id].
    intros i [p t] Hi.
    apply list_elem_of_lookup_2 in Hi. unfold g. simpl.
    by rewrite (timesToPaths_lookup _ _ _ Hnd Hi).
  - rewrite <- list_fmap_compose.
    assert ((snd ∘ g) <$> sortTimes visited.*2 = sortTimes visited.*2) as ->.
    { etrans; [apply (list_fmap_ext _ id)|apply list_fmap_id]. done. }
    apply StronglySorted_le_lt.
    + apply (StronglySorted_merge_sort Z.le).
    + by rewrite Hperm.
  - unfold PathsByModTime. by rewrite <- list_fmap_compose.
Qed.

Lemma PathsByModTime_sorted_witness :
  PathsByModTime [("b.go", 30); ("a.go", 10); ("c.go", 20)]
    = ["a.go"; "c.go"; "b.go"].
Proof.
  destruct (PathsByModTime_sorted [("b.go", 30); ("a.go", 10); ("c.go", 20)])
    as (entries & _ & _ & Heq).
  - compute_done.
  - vm_compute. reflexivity.
Defined.

(** X9. [PathsByModTime] keeps one path per timestamp: when two tracked
    paths carry the same timestamp, the result, which has one slot per
    tracked path, lists some path twice and leaves another tracked path
    out. *)
Theorem PathsByModTime_tie (visited : list (string * Z)) (p1 p2 : string)
  (t : Z) :
  NoDup visited.*1 ->
  (p1, t) ∈ visited -> (p2, t) ∈ visited -> p1 <> p2 ->
  length (PathsByModTime visited) = length visited /\
  ~ NoDup (PathsByModTime visited) /\
  exists p, p ∈ visited.*1 /\ p ∉ PathsByModTime visited.
Proof.
  intros Hpaths H1 H2 Hne.
  assert (Hlen : length (PathsByModTime visited) = length visited).
  { unfold PathsByModTime, sortTimes.
    by rewrite length_fmap, merge_sort_Permutation, length_fmap. }
  assert (Hdup : ~ NoDup (PathsByModTime visited)).
  { unfold PathsByModTime. intros Hnd. apply NoDup_fmap_1 in Hnd.
    unfold sortTimes in Hnd. rewrite merge_sort_Permutation in Hnd.
    apply Hne.
    apply list_elem_of_split in H1 as (l1 & l2 & ->).
    rewrite fmap_app, fmap_cons in Hnd. simpl in Hnd.
    apply NoDup_app in Hnd as (_ & Hd & Hn2).
    apply NoDup_cons in Hn2 as [Hn2 _].
    rewrite elem_of_app, elem_of_cons in H2.
    destruct H2 as [H2|[[= ->]|H2]]; [|done|].
    - exfalso. apply (Hd t); [|by left].
      apply list_elem_of_fmap. by exists (p2, t).
    - exfalso. apply Hn2. apply list_elem_of_fmap. by exists (p2, t). }
  split; [exact Hlen|]. split; [exact Hdup|].
  destruct (decide (Forall (fun p => p ∈ PathsByModTime visited) visited.*1))
    as [Hall|Hnot].
  - exfalso. apply Hdup.
    assert (visited.*1 ⊆+ PathsByModTime visited) as Hsub.
    { apply NoDup_submseteq; [done|]. by apply Forall_forall. }
    apply submseteq_length_Permutation in Hsub.
    + by rewrite <- Hsub.
    + rewrite Hlen, length_fmap. done.
  - apply not_Forall_Exists in Hnot; [|apply _].
    apply Exists_exists in Hnot as (p & Hp & Hnin). by exists p.
Qed.

Lemma PathsByModTime_tie_witness :
  length (PathsByModTime [("a.go", 10); ("b.go", 10); ("c.go", 20)]) = 3%nat /\
  ~ NoDup (PathsByModTime [("a.go", 10); ("b.go", 10); ("c.go", 20)]).
Proof.
  destruct (PathsByModTime_tie [("a.go", 10); ("b.go", 10); ("c.go", 20)]
              "a.go" "b.go" 10) as (Hlen & Hdup & _).
  - compute_done.
  - by left.
  - right. by left.
  - done.
  - by split.
Defined.

(** ** The diagnostic index *)

(** What the loop of an adapter does: it builds one diagnostic per match and
    adds them in the order of the matches. *)
Lemma forEach_addMatch_collect mk parsed : forall tf tf',
  forEach (addMatch mk) parsed tf = Ok tf' ->
  exists warts,
    Forall2 (fun group wart => mk group = Ok wart) parsed warts /\
    tf' = fold_left AddWart warts tf.
Proof.
  induction parsed as [|group parsed IH]; intros tf tf' Hrun.
  - injection Hrun as <-. exists []. by split.
  - simpl in Hrun. unfold addMatch in Hrun.
    destruct (mk group) as [wart| |] eqn:Hmk; try discriminate.
    simpl in Hrun. apply IH in Hrun as (warts & Hall & ->).
    exists (wart :: warts). split; [by constructor|done].
Qed.

Lemma fold_AddWart_fields warts : forall tf,
  Path (fold_left AddWart warts tf) = Path tf /\
  ContentLines (fold_left AddWart warts tf) = ContentLines tf /\
  BlameLines (fold_left AddWart warts tf) = BlameLines tf.
Proof.
  induction warts as [|wart warts IH]; intros tf; [done|].
  simpl. destruct (IH (AddWart tf wart)) as (-> & -> & ->). done.
Qed.

Lemma fold_AddWart_lookup warts : forall tf line,
  Warts (fold_left AddWart warts tf) !! line =
    match filter (fun wart => Line wart = line) warts with
    | [] => Warts tf !! line
    | added => Some (default [] (Warts tf !! line) ++ added)
    end.
Proof.
  induction warts as [|wart warts IH]; intros tf line; [done|].
  cbn [fold_left]. rewrite IH, lookup_AddWart.
  rewrite filter_cons. destruct (decide (Line wart = line)) as [<-|Hne].
  - rewrite decide_True by done. simpl.
    destruct (filter _ warts) as [|w0 ws0]; [done|].
    simpl. by rewrite <- app_assoc.
  - rewrite decide_False by done. done.
Qed.

(** X10. The diagnostic index after a run of [AddWart] calls: at every
    line it holds the diagnostics it held, followed by the added
    diagnostics of that line in the order they were added; a line gets an
    entry only if it had one or a diagnostic of that line was added; path,
    content and blame lines are not touched. *)
Theorem AddWart_index (warts : list Wart) (tf : TargetFile) (line : Z) :
  default [] (Warts (fold_left AddWart warts tf) !! line)
    = default [] (Warts tf !! line)
      ++ filter (fun wart => Line wart = line) warts /\
  (is_Some (Warts (fold_left AddWart warts tf) !! line) <->
     is_Some (Warts tf !! line) \/ exists wart, wart ∈ warts /\ Line wart = line) /\
  Path (fold_left AddWart warts tf) = Path tf /\
  ContentLines (fold_left AddWart warts tf) = ContentLines tf /\
  BlameLines (fold_left AddWart warts tf) = BlameLines tf.
Proof.
  split; [|split; [|apply fold_AddWart_fields]].
  - rewrite fold_AddWart_lookup.
    destruct (filter _ warts) as [|w0 ws0]; [by rewrite app_nil_r|done].
  - rewrite fold_AddWart_lookup.
    destruct (filter (fun wart => Line wart = line) warts) as [|w0 ws0] eqn:Hf.
    + split; [by left|]. intros [H|(wart & Hin & Hline)]; [done|].
      assert (wart ∈ filter (fun wart => Line wart = line) warts) as Hx
        by (by apply list_elem_of_filter).
      rewrite Hf in Hx. by apply elem_of_nil in Hx.
    + split; [|by eexists]. intros _. right. exists w0.
      assert (w0 ∈ filter (fun wart => Line wart = line) warts) as Hx
        by (rewrite Hf; by left).
      apply list_elem_of_filter in Hx as [? ?]. done.
Qed.

(** ** The groups of a match *)

Lemma groupText_Grp_inner i r entry :
  groupText r entry -> groupText (Regexp.Grp i r) entry.
Proof. intros (r1 & prev & rest & Hin & Hm). exists r1, prev, rest. split; [by right|done]. Qed.

Lemma groupText_Cat_l r1 r2 entry :
  groupText r1 entry -> groupText (Regexp.Cat r1 r2) entry.
Proof. intros (r & prev & rest & Hin & Hm). exists r, prev, rest. split; [by left|done]. Qed.

Lemma groupText_Cat_r r1 r2 entry :
  groupText r2 entry -> groupText (Regexp.Cat r1 r2) entry.
Proof. intros (r & prev & rest & Hin & Hm). exists r, prev, rest. split; [by right|done]. Qed.

(** A successful search has recorded, for every group of the pattern, a
    text that the pattern of the group matches. *)
Lemma run_groups r : forall k prev s caps res,
  Regexp.run r k prev s caps = Some res ->
  exists w rest new,
    s = w ++ rest /\ Matches r prev w rest /\
    Forall (groupText r) new /\
    (forall i, i ∈ groupIds r -> i ∈ new.*1) /\
    k (lastOr prev w) rest (new ++ caps) = Some res.
Proof.
  induction r as [|c|p|p min max|i r IH| | |r1 IH1 r2 IH2];
    intros k prev s caps res H; simpl in H.
  - exists [], s, []. split; [done|]. split; [constructor|].
    split; [constructor|]. split; [by intros i Hi%elem_of_nil|done].
  - destruct s as [|d s]; [discriminate|].
    destruct (isByte d c) eqn:Hd; [|discriminate].
    exists [d], s, []. split; [done|]. split; [by constructor|].
    split; [constructor|]. split; [by intros i Hi%elem_of_nil|done].
  - destruct s as [|d s]; [discriminate|].
    destruct (p d) eqn:Hd; [|discriminate].
    exists [d], s, []. split; [done|]. split; [by constructor|].
    split; [constructor|]. split; [by intros i Hi%elem_of_nil|done].
  - apply rep_sound in H as (w & rest & -> & Hall & Hmin & Hmax & Hk).
    exists w, rest, []. split; [done|]. split; [by constructor|].
    split; [constructor|]. split; [by intros i Hi%elem_of_nil|done].
  - apply IH in H as (w & rest & new & -> & Hm & Hall & Hids & Hk).
    rewrite consumed_app in Hk.
    exists w, rest, ((i, w) :: new). split; [done|].
    split; [by constructor|]. split; [|split; [|done]].
    + constructor.
      * exists r, prev, rest. split; [by left|done].
      * eapply Forall_impl; [exact Hall|]. intros e. apply groupText_Grp_inner.
    + intros j [Hj|Hj]%elem_of_app.
      * right. by apply Hids.
      * apply list_elem_of_singleton in Hj as ->. by left.
  - destruct (Regexp.atLineStart prev) eqn:Hb; [|discriminate].
    exists [], s, []. split; [done|]. split; [by constructor|].
    split; [constructor|]. split; [by intros i Hi%elem_of_nil|done].
  - destruct (Regexp.atLineEnd s) eqn:He; [|discriminate].
    exists [], s, []. split; [done|]. split; [by constructor|].
    split; [constructor|]. split; [by intros i Hi%elem_of_nil|done].
  - apply IH1 in H as (w1 & rest1 & new1 & -> & Hm1 & Hall1 & Hids1 & H).
    apply IH2 in H as (w2 & rest & new2 & -> & Hm2 & Hall2 & Hids2 & Hk).
    exists (w1 ++ w2), rest, (new2 ++ new1). split; [by rewrite app_assoc|].
    split; [by constructor|]. split; [|split].
    + apply Forall_app. split.
      * eapply Forall_impl; [exact Hall2|]. intros e. apply groupText_Cat_r.
      * eapply Forall_impl; [exact Hall1|]. intros e. apply groupText_Cat_l.
    + intros j [Hj|Hj]%elem_of_app; rewrite fmap_app, elem_of_app.
      * right. by apply Hids1.
      * left. by apply Hids2.
    + by rewrite lastOr_app, <- app_assoc.
Qed.

Lemma find_groups r : forall s prev whole rest caps,
  Regexp.find r prev s = Some (whole, rest, caps) ->
  Forall (groupText r) caps /\ (forall i, i ∈ groupIds r -> i ∈ caps.*1).
Proof.
  assert (Hhere : forall prev s rest caps,
    Regexp.run r Regexp.accept prev s [] = Some (rest, caps) ->
    Forall (groupText r) caps /\ (forall i, i ∈ groupIds r -> i ∈ caps.*1)).
  { intros prev s rest caps Hrun.
    apply run_groups in Hrun as (w & rest' & new & _ & _ & Hall & Hids & Hk).
    unfold Regexp.accept in Hk. rewrite app_nil_r in Hk.
    injection Hk as <- <-. by split. }
  induction s as [|c s IH]; intros prev whole rest caps H; simpl in H.
  - destruct (Regexp.run r Regexp.accept prev [] []) as [[rest' caps']|] eqn:Hrun;
      [|discriminate].
    injection H as <- <- <-. by eapply Hhere.
  - destruct (Regexp.run r Regexp.accept prev (c :: s) []) as [[rest' caps']|] eqn:Hrun.
    + injection H as <- <- <-. by eapply Hhere.
    + by eapply IH.
Qed.

Lemma capture_elem (caps : Regexp.Caps) (i : nat) :
  i ∈ caps.*1 -> (i, Regexp.capture caps i) ∈ caps.
Proof.
  induction caps as [|[j w] caps IH]; intros Hin; [by apply elem_of_nil in Hin|].
  simpl. destruct (Nat.eqb i j) eqn:Hij.
  - apply Nat.eqb_eq in Hij as ->. by left.
  - apply Nat.eqb_neq in Hij. right. apply IH.
    cbn [fmap list_fmap fst] in Hin. apply elem_of_cons in Hin as [?|?]; done.
Qed.

(** Every match of [findAll] is the slice of a successful search. *)
Lemma findAll_groups r : forall fuel prev s group,
  group ∈ Regexp.findAll fuel r prev s ->
  exists whole caps,
    group = Regexp.submatch r whole caps /\
    Forall (groupText r) caps /\
    (forall i, i ∈ groupIds r -> i ∈ caps.*1).
Proof.
  induction fuel as [|fuel IH]; intros prev s group Hin; simpl in Hin.
  - by apply elem_of_nil in Hin.
  - destruct (Regexp.find r prev s) as [[[whole rest] caps]|] eqn:Hf;
      [|by apply elem_of_nil in Hin].
    apply elem_of_cons in Hin as [->|Hin].
    + apply find_groups in Hf as [Hall Hids]. by exists whole, caps.
    + destruct whole as [|c whole]; [destruct rest as [|d rest]|].
      * by apply elem_of_nil in Hin.
      * by eapply IH.
      * by eapply IH.
Qed.

Lemma someOf_Matches p min w prev rest :
  Matches (Regexp.Rep p (S min) None) prev w rest -> someOf p w.
Proof.
  intros Hm. inversion Hm; subst. split; [|done].
  intros ->. simpl in *. lia.
Qed.

Lemma someOf_Cls p w prev rest :
  Matches (Regexp.Cls p) prev w rest -> someOf p w.
Proof.
  intros Hm. inversion Hm; subst. split; [done|]. by repeat constructor.
Qed.

(** The text of group [i] of a match, with the pattern of the group. *)
Lemma group_capture r caps i :
  Forall (groupText r) caps ->
  (forall j, j ∈ groupIds r -> j ∈ caps.*1) ->
  i ∈ groupIds r ->
  exists r1 prev rest,
    inGroup i r1 r /\ Matches r1 prev (Regexp.capture caps i) rest.
Proof.
  intros Hall Hids Hi.
  rewrite Forall_forall in Hall.
  apply (Hall (i, Regexp.capture caps i)). apply capture_elem. by apply Hids.
Qed.

Ltac split_inGroup H :=
  cbn in H;
  repeat match type of H with
         | _ \/ _ => destruct H as [H|H]
         end;
  try (exfalso; exact H);
  try (destruct H as [? ->]; try discriminate).

Ltac group_of Hall Hids i Hg :=
  let r1 := fresh "r1" in
  let prev := fresh "prev" in
  let rest := fresh "rest" in
  let Hin := fresh "Hin" in
  destruct (group_capture _ _ i Hall Hids) as (r1 & prev & rest & Hin & Hg);
  [cbn; repeat first [by left | right] |];
  split_inGroup Hin;
  first [apply someOf_Matches in Hg | apply someOf_Cls in Hg].

(** The groups of a match of the pep8 pattern: line, column, code and
    message. *)
Lemma pep8_groups s group :
  group ∈ Regexp.FindAllStringSubmatch rexes.pep8 s ->
  exists whole g1 g2 g3 g4,
    group = [whole; text g1; text g2; text g3; text g4] /\
    someOf isDigit g1 /\ someOf isDigit g2 /\
    someOf isWord g3 /\ someOf notNewline g4.
Proof.
  intros Hin. apply findAll_groups in Hin as (whole & caps & -> & Hall & Hids).
  group_of Hall Hids 1%nat Hgroup1. group_of Hall Hids 2%nat Hgroup2.
  group_of Hall Hids 3%nat Hgroup3. group_of Hall Hids 4%nat Hgroup4.
  by eexists _, _, _, _, _.
Qed.

(** The groups of a match of the pylint pattern: severity letter, line,
    column and message. *)
Lemma pylint_groups s group :
  group ∈ Regexp.FindAllStringSubmatch rexes.pylint s ->
  exists whole g1 g2 g3 g4,
    group = [whole; text g1; text g2; text g3; text g4] /\
    someOf isWord g1 /\ someOf isDigit g2 /\
    someOf isDigit g3 /\ someOf notNewline g4.
Proof.
  intros Hin. apply findAll_groups in Hin as (whole & caps & -> & Hall & Hids).
  group_of Hall Hids 1%nat Hgroup1. group_of Hall Hids 2%nat Hgroup2.
  group_of Hall Hids 3%nat Hgroup3. group_of Hall Hids 4%nat Hgroup4.
  by eexists _, _, _, _, _.
Qed.

(** The groups of a match of the goBuild pattern: line and message. *)
Lemma goBuild_groups s group :
  group ∈ Regexp.FindAllStringSubmatch rexes.goBuild s ->
  exists whole g1 g2,
    group = [whole; text g1; text g2] /\
    someOf isDigit g1 /\ someOf notNewline g2.
Proof.
  intros Hin. apply findAll_groups in Hin as (whole & caps & -> & Hall & Hids).
  group_of Hall Hids 1%nat Hgroup1. group_of Hall Hids 2%nat Hgroup2.
  by eexists _, _, _.
Qed.

(** ** Numbers *)

Lemma bytes_text l : bytes (text l) = l.
Proof. apply list_ascii_of_string_of_list_ascii. Qed.

Lemma text_bytes s : text (bytes s) = s.
Proof. apply string_of_list_ascii_of_string. Qed.

Lemma text_nonempty l : l <> [] -> text l <> "".
Proof. by destruct l. Qed.

Lemma isDigit_byte c : isDigit c = true <-> 48 <= byte c <= 57.
Proof. unfold isDigit. rewrite andb_true_iff, !Z.leb_le. done. Qed.

Lemma isDigit_no_sign c :
  isDigit c = true -> isByte c "+" = false /\ isByte c "-" = false.
Proof.
  intros Hc%isDigit_byte. unfold isByte.
  change (byte "+") with 43. change (byte "-") with 45.
  split; apply Z.eqb_neq; lia.
Qed.

Lemma parseDigits_ge ds : forall acc n,
  parseDigits ds acc = Some n -> 0 <= acc -> acc <= n.
Proof.
  induction ds as [|c ds IH]; intros acc n H Hacc; simpl in H.
  - injection H as <-. lia.
  - destruct (isDigit c) eqn:Hc; [|discriminate].
    apply isDigit_byte in Hc. apply IH in H; lia.
Qed.

Lemma ParseInt_bounds s n :
  ParseInt s = Some n -> - 2 ^ 63 <= n <= 2 ^ 63 - 1.
Proof.
  unfold ParseInt. destruct (bytes s) as [|c rest]; [discriminate|].
  set (neg := isByte c "-").
  destruct (if isByte c "+" || neg then rest else c :: rest) as [|d ds];
    [discriminate|].
  destruct (parseDigits (d :: ds) 0) as [un|] eqn:Hun; [|discriminate].
  apply parseDigits_ge in Hun; [|lia].
  change (2 ^ (IntSize - 1)) with (2 ^ 63).
  destruct neg; simpl.
  - destruct (2 ^ 63 <? un) eqn:Hc; [discriminate|].
    apply Z.ltb_ge in Hc. intros [= <-]. lia.
  - destruct (2 ^ 63 <=? un) eqn:Hc; [discriminate|].
    apply Z.leb_gt in Hc. intros [= <-]. lia.
Qed.

(** A number written with digits only parses to a natural number. *)
Lemma ParseInt_digits ds n :
  someOf isDigit ds -> ParseInt (text ds) = Some n -> 0 <= n <= 2 ^ 63 - 1.
Proof.
  intros [Hne Hall] H. pose proof (ParseInt_bounds _ _ H) as Hb.
  split; [|lia]. unfold ParseInt in H. rewrite bytes_text in H.
  destruct ds as [|c ds]; [done|].
  apply Forall_cons in Hall as [Hc Hall].
  destruct (isDigit_no_sign c Hc) as [Hplus Hminus].
  rewrite Hplus, Hminus in H. cbn [orb negb andb parseDigits] in H.
  rewrite Hc in H.
  destruct (parseDigits ds (0 * 10 + (byte c - 48))) as [un|] eqn:Hun;
    [|discriminate].
  apply isDigit_byte in Hc. apply parseDigits_ge in Hun; [|lia].
  destruct (2 ^ (IntSize - 1) <=? un); [discriminate|].
  injection H as <-. lia.
Qed.

Lemma NewWart_Ok_inv reporter line column issueCode message wart :
  NewWart reporter line column issueCode message = Ok wart ->
  exists l c,
    ParseInt line = Some l /\ ParseInt column = Some c /\
    wart = mkWart reporter l c issueCode message.
Proof.
  unfold NewWart. destruct (ParseInt line) as [l|]; [|discriminate].
  destruct (ParseInt column) as [c|]; [|discriminate].
  intros [= <-]. by exists l, c.
Qed.

(** X11. A diagnostic returned by [NewWart] carries the reporter, issue
    code and message given, and a line and a column that are the numbers
    written in the strings given and fit the type [int]. *)
Theorem NewWart_fits_int (reporter line column issueCode message : string)
  (wart : Wart) :
  NewWart reporter line column issueCode message = Ok wart ->
  Reporter wart = reporter /\ IssueCode wart = issueCode /\
  Message wart = message /\
  ParseInt line = Some (Line wart) /\ ParseInt column = Some (Column wart) /\
  - 2 ^ 63 <= Line wart <= 2 ^ 63 - 1 /\
  - 2 ^ 63 <= Column wart <= 2 ^ 63 - 1.
Proof.
  intros (l & c & Hl & Hc & ->)%NewWart_Ok_inv. cbn.
  split; [done|]. split; [done|]. split; [done|].
  split; [done|]. split; [done|].
  split; [by apply ParseInt_bounds with line|by apply ParseInt_bounds with column].
Qed.

Lemma NewWart_fits_int_witness :
  - 2 ^ 63 <= Line (mkWart "PEP8" (-12) 7 "E1" "m") <= 2 ^ 63 - 1.
Proof.
  apply (NewWart_fits_int "PEP8" "-12" "+7" "E1" "m" (mkWart "PEP8" (-12) 7 "E1" "m")).
  vm_compute. reflexivity.
Defined.

(** ** What the adapters extract *)

(** One diagnostic of PEP8, of Pylint and of a go tool, from the groups of
    a match. *)
Lemma index_groups (a b c d e : string) :
  index [a; b; c; d; e] 1 = Ok b /\ index [a; b; c; d; e] 2 = Ok c /\
  index [a; b; c; d; e] 3 = Ok d /\ index [a; b; c; d; e] 4 = Ok e /\
  index [a; b; c] 1 = Ok b /\ index [a; b; c] 2 = Ok c.
Proof. repeat split; reflexivity. Qed.

Ltac index_groups_in H :=
  unfold bind in H;
  repeat first
    [ rewrite (proj1 (index_groups _ _ _ _ _)) in H
    | rewrite (proj1 (proj2 (index_groups _ _ _ _ _))) in H
    | rewrite (proj1 (proj2 (proj2 (index_groups _ _ _ _ _)))) in H
    | rewrite (proj1 (proj2 (proj2 (proj2 (index_groups _ _ _ _ _))))) in H
    | rewrite (proj1 (proj2 (proj2 (proj2 (proj2 (index_groups _ _ _ "" ""))))))
        in H
    | rewrite (proj2 (proj2 (proj2 (proj2 (proj2 (index_groups _ _ _ "" ""))))))
        in H ].

Lemma pep8_wart path g1 g2 g3 g4 wart :
  Ext path = ".py" ->
  someOf isDigit g1 -> someOf isDigit g2 -> someOf isWord g3 ->
  someOf notNewline g4 ->
  NewWart "PEP8" (text g1) (text g2) (text g3) (text g4) = Ok wart ->
  fromAdapter path wart.
Proof.
  intros Hext H1 H2 [H3 _] [H4 _] (l & c & Hl & Hc & ->)%NewWart_Ok_inv.
  unfold fromAdapter. cbn.
  split; [by apply ParseInt_digits with g1|].
  split; [by apply ParseInt_digits with g2|].
  split; [by apply text_nonempty|]. split; [by apply text_nonempty|].
  left. split; [done|by left].
Qed.

Lemma pylint_wart path g1 g2 g3 g4 wart :
  Ext path = ".py" ->
  someOf isWord g1 -> someOf isDigit g2 -> someOf isDigit g3 ->
  someOf notNewline g4 ->
  NewWart "Pylint" (text g2) (text g3) (text g1) (text g4) = Ok wart ->
  fromAdapter path wart.
Proof.
  intros Hext [H1 _] H2 H3 [H4 _] (l & c & Hl & Hc & ->)%NewWart_Ok_inv.
  unfold fromAdapter. cbn.
  split; [by apply ParseInt_digits with g2|].
  split; [by apply ParseInt_digits with g3|].
  split; [by apply text_nonempty|]. split; [by apply text_nonempty|].
  left. split; [done|by right].
Qed.

Lemma go_wart path goCmd g1 g2 wart :
  Ext path = ".go" -> goCmd = "build" \/ goCmd = "vet" ->
  someOf isDigit g1 -> someOf notNewline g2 ->
  NewWart goCmd (text g1) "0" "-" (text g2) = Ok wart ->
  fromAdapter path wart.
Proof.
  intros Hext Hcmd H1 [H2 _] (l & c & Hl & Hc & ->)%NewWart_Ok_inv.
  assert (c = 0) as -> by (vm_compute in Hc; congruence).
  unfold fromAdapter. cbn.
  split; [by apply ParseInt_digits with g1|].
  split; [lia|]. split; [done|]. split; [by apply text_nonempty|].
  right. done.
Qed.

Lemma Pep8_warts w tf tf' :
  Pep8 w tf = Ok tf' ->
  exists warts,
    tf' = fold_left AddWart warts tf /\ Forall (fromAdapter (Path tf)) warts.
Proof.
  unfold Pep8. destruct (negb (Ext (Path tf) =? ".py")%string) eqn:Hext.
  - intros [= <-]. exists []. by split.
  - apply negb_false_iff, String.eqb_eq in Hext.
    intros (warts & Hall & ->)%forEach_addMatch_collect.
    exists warts. split; [done|].
    apply (Forall2_Forall_r _ _ _ _ Hall). apply Forall_forall.
    intros group Hin wart Hmk.
    apply pep8_groups in Hin as (whole & g1 & g2 & g3 & g4 & -> & H1 & H2 & H3 & H4).
    index_groups_in Hmk. by apply (pep8_wart _ g1 g2 g3 g4).
Qed.

Lemma PyLint_warts w tf tf' :
  PyLint w tf = Ok tf' ->
  exists warts,
    tf' = fold_left AddWart warts tf /\ Forall (fromAdapter (Path tf)) warts.
Proof.
  unfold PyLint. destruct (negb (Ext (Path tf) =? ".py")%string) eqn:Hext.
  - intros [= <-]. exists []. by split.
  - apply negb_false_iff, String.eqb_eq in Hext.
    intros (warts & Hall & ->)%forEach_addMatch_collect.
    exists warts. split; [done|].
    apply (Forall2_Forall_r _ _ _ _ Hall). apply Forall_forall.
    intros group Hin wart Hmk.
    apply pylint_groups in Hin as (whole & g1 & g2 & g3 & g4 & -> & H1 & H2 & H3 & H4).
    index_groups_in Hmk. by apply (pylint_wart _ g1 g2 g3 g4).
Qed.

Lemma GoCmd_warts w goCmd tf tf' :
  goCmd = "build" \/ goCmd = "vet" ->
  GoCmd w goCmd tf = Ok tf' ->
  exists warts,
    tf' = fold_left AddWart warts tf /\ Forall (fromAdapter (Path tf)) warts.
Proof.
  intros Hcmd. unfold GoCmd, ExtEquals.
  destruct (negb (Ext (Path tf) =? ".go")%string) eqn:Hext.
  - intros [= <-]. exists []. by split.
  - apply negb_false_iff, String.eqb_eq in Hext.
    intros (warts & Hall & ->)%forEach_addMatch_collect.
    exists warts. split; [done|].
    apply (Forall2_Forall_r _ _ _ _ Hall). apply Forall_forall.
    intros group Hin wart Hmk.
    apply goBuild_groups in Hin as (whole & g1 & g2 & -> & H1 & H2).
    index_groups_in Hmk. by apply (go_wart _ goCmd g1 g2).
Qed.

(** The diagnostics of an analysed file are those the four adapters have
    extracted, added in turn to an empty index. *)
Lemma NewTargetFile_warts w path tf :
  NewTargetFile w path = Ok tf ->
  exists warts,
    Warts tf = Warts (fold_left AddWart warts (mkTargetFile path [] [] ∅)) /\
    Forall (fromAdapter path) warts.
Proof.
  unfold NewTargetFile.
  destruct (ReadFile w path) as [content|]; [|discriminate].
  cbn [Path BlameLines Warts].
  set (tf0 := Blame w (mkTargetFile path (Split content "010") [] ∅)).
  destruct (Pep8 w tf0) as [tf1| |] eqn:H1; try discriminate. simpl.
  destruct (PyLint w tf1) as [tf2| |] eqn:H2; try discriminate. simpl.
  unfold GoBuild, GoVet.
  destruct (GoCmd w "build" tf2) as [tf3| |] eqn:H3; try discriminate. simpl.
  destruct (GoCmd w "vet" tf3) as [tf4| |] eqn:H4; try discriminate. simpl.
  intros [= <-].
  apply Pep8_warts in H1 as (ws1 & -> & Hw1).
  apply PyLint_warts in H2 as (ws2 & -> & Hw2).
  apply GoCmd_warts in H3 as (ws3 & -> & Hw3); [|by left].
  apply GoCmd_warts in H4 as (ws4 & -> & Hw4); [|by right].
  rewrite !(proj1 (fold_AddWart_fields _ _)) in *.
  change (Path tf0) with path in *.
  exists (ws1 ++ ws2 ++ ws3 ++ ws4). split.
  - rewrite !fold_left_app.
    apply map_eq. intros line. rewrite !fold_AddWart_lookup. done.
  - by rewrite !Forall_app.
Qed.

(** X12. The diagnostic index of an analysed file: every entry is a
    non-empty list of diagnostics filed under their own line; each has a
    line and a column that are natural numbers fitting [int], a code and a
    message that are not empty, and a reporter that goes with the extension
    of the file (PEP8 or Pylint for [.py]; build or vet, with column 0 and
    code "-", for [.go]). *)
Theorem NewTargetFile_index_well_formed (w : World) (path : string)
  (tf : TargetFile) (line : Z) (warts : list Wart) :
  NewTargetFile w path = Ok tf ->
  Warts tf !! line = Some warts ->
  warts <> [] /\
  Forall (fun wart => Line wart = line /\ fromAdapter path wart) warts.
Proof.
  intros (all & -> & Hall)%NewTargetFile_warts.
  rewrite fold_AddWart_lookup. cbn [Warts]. rewrite lookup_empty.
  destruct (filter (fun wart => Line wart = line) all) as [|w0 ws0] eqn:Hf;
    [discriminate|].
  intros [= <-]. split; [done|]. cbn [default app]. rewrite <- Hf.
  apply Forall_forall. intros wart [Hline Hin]%list_elem_of_filter.
  split; [done|]. rewrite Forall_forall in Hall. by apply Hall.
Qed.

Lemma NewTargetFile_index_well_formed_witness :
  Forall (fun wart => Line wart = 12 /\ fromAdapter "pkg/mod.py" wart)
    [mkWart "Pylint" 12 4 "W" "unused import"].
Proof.
  apply (NewTargetFile_index_well_formed
           (mkWorld (fun _ => Some "import os")
              (fun name _ => if (name =? "pylint")%string
                             then ("W: 12, 4: unused import", false)
                             else ("", true))
              (fun _ _ => ("", false)))
           "pkg/mod.py"
           (mkTargetFile "pkg/mod.py" ["import os"] []
              {[ 12 := [mkWart "Pylint" 12 4 "W" "unused import"] ]})
           12 [mkWart "Pylint" 12 4 "W" "unused import"]).
  - vm_compute. reflexivity.
  - vm_compute. reflexivity.
Defined.

(** ** How an analysis ends *)

Lemma NewWart_outcome reporter line column issueCode message :
  someOf isDigit (bytes line) -> someOf isDigit (bytes column) ->
  match NewWart reporter line column issueCode message with
  | Ok _ => True
  | Fatal msg => numberTooBig msg
  | Panic _ => False
  end.
Proof.
  intros Hl Hc. unfold NewWart.
  destruct (ParseInt line) eqn:Hpl.
  - destruct (ParseInt column) eqn:Hpc; [done|].
    exists (bytes column). rewrite text_bytes. split; [done|]. split; [done|].
    by right.
  - exists (bytes line). rewrite text_bytes. split; [done|]. split; [done|].
    by left.
Qed.

(** The loop of an adapter ends well or with the failure of one of its
    matches. *)
Lemma forEach_addMatch_outcome mk (P : string -> Prop) parsed : forall tf,
  (forall group, group ∈ parsed ->
     match mk group with
     | Ok _ => True
     | Fatal msg => P msg
     | Panic _ => False
     end) ->
  match forEach (addMatch mk) parsed tf with
  | Ok _ => True
  | Fatal msg => P msg
  | Panic _ => False
  end.
Proof.
  induction parsed as [|group parsed IH]; intros tf Hall; [done|].
  simpl. unfold addMatch at 1.
  pose proof (Hall group (list_elem_of_here _ _)) as Hg.
  destruct (mk group) as [wart| |]; [|done|done]. simpl.
  apply IH. intros g Hin. apply Hall. by right.
Qed.

Lemma someOf_text p g : someOf p g -> someOf p (bytes (text g)).
Proof. by rewrite bytes_text. Qed.

Lemma Pep8_outcome w tf :
  match Pep8 w tf with
  | Ok _ => True
  | Fatal msg => numberTooBig msg
  | Panic _ => False
  end.
Proof.
  unfold Pep8. destruct (negb (Ext (Path tf) =? ".py")%string); [done|].
  apply forEach_addMatch_outcome. intros group Hin.
  apply pep8_groups in Hin as (whole & g1 & g2 & g3 & g4 & -> & H1 & H2 & _).
  unfold bind. rewrite !(proj1 (index_groups _ _ _ _ _)).
  rewrite !(proj1 (proj2 (index_groups _ _ _ _ _))).
  rewrite !(proj1 (proj2 (proj2 (index_groups _ _ _ _ _)))).
  rewrite !(proj1 (proj2 (proj2 (proj2 (index_groups _ _ _ _ _))))).
  apply NewWart_outcome; by apply someOf_text.
Qed.

Lemma PyLint_outcome w tf :
  match PyLint w tf with
  | Ok _ => True
  | Fatal msg => numberTooBig msg
  | Panic _ => False
  end.
Proof.
  unfold PyLint. destruct (negb (Ext (Path tf) =? ".py")%string); [done|].
  apply forEach_addMatch_outcome. intros group Hin.
  apply pylint_groups in Hin as (whole & g1 & g2 & g3 & g4 & -> & _ & H2 & H3 & _).
  unfold bind. rewrite !(proj1 (index_groups _ _ _ _ _)).
  rewrite !(proj1 (proj2 (index_groups _ _ _ _ _))).
  rewrite !(proj1 (proj2 (proj2 (index_groups _ _ _ _ _)))).
  rewrite !(proj1 (proj2 (proj2 (proj2 (index_groups _ _ _ _ _))))).
  apply NewWart_outcome; by apply someOf_text.
Qed.

Lemma GoCmd_outcome w goCmd tf :
  match GoCmd w goCmd tf with
  | Ok _ => True
  | Fatal msg => numberTooBig msg
  | Panic _ => False
  end.
Proof.
  unfold GoCmd. destruct (negb (ExtEquals tf ".go")); [done|].
  apply forEach_addMatch_outcome. intros group Hin.
  apply goBuild_groups in Hin as (whole & g1 & g2 & -> & H1 & _).
  unfold bind.
  rewrite !(proj1 (proj2 (proj2 (proj2 (proj2 (index_groups _ _ _ "" "")))))).
  rewrite !(proj2 (proj2 (proj2 (proj2 (proj2 (index_groups _ _ _ "" "")))))).
  apply NewWart_outcome; [by apply someOf_text|].
  split; [done|]. by repeat constructor.
Qed.

Lemma NewTargetFile_outcome w path :
  match NewTargetFile w path with
  | Ok _ => is_Some (ReadFile w path)
  | Fatal msg =>
      (ReadFile w path = None /\ msg = "Unable to read file " +:+ path) \/
      (is_Some (ReadFile w path) /\ numberTooBig msg)
  | Panic _ => False
  end.
Proof.
  unfold NewTargetFile.
  destruct (ReadFile w path) as [content|]; [|by left].
  cbn [Path BlameLines Warts].
  set (tf0 := Blame w (mkTargetFile path (Split content "010") [] ∅)).
  pose proof (Pep8_outcome w tf0) as H1.
  destruct (Pep8 w tf0) as [tf1| |]; [|by right|done]. simpl.
  pose proof (PyLint_outcome w tf1) as H2.
  destruct (PyLint w tf1) as [tf2| |]; [|by right|done]. simpl.
  unfold GoBuild, GoVet.
  pose proof (GoCmd_outcome w "build" tf2) as H3.
  destruct (GoCmd w "build" tf2) as [tf3| |]; [|by right|done]. simpl.
  pose proof (GoCmd_outcome w "vet" tf3) as H4.
  destruct (GoCmd w "vet" tf3) as [tf4| |]; [|by right|done]. simpl.
  done.
Qed.

(** X13. The analysis of a file never panics.  It ends the program in two
    cases only: the file cannot be read, or the output of an analyzer has a
    line or column number, written with digits only, that does not fit
    [int]; the message tells which.  The same holds of a fan-out, through
    one of its files. *)
Theorem analysis_never_panics (w : World) (filepaths : list string) :
  (forall path msg, NewTargetFile w path <> Panic msg) /\
  (forall path msg,
     NewTargetFile w path = Fatal msg ->
     (ReadFile w path = None /\ msg = "Unable to read file " +:+ path) \/
     (is_Some (ReadFile w path) /\ numberTooBig msg)) /\
  (forall msg, fanOut w filepaths <> Panic msg) /\
  (forall msg,
     fanOut w filepaths = Fatal msg ->
     exists path, path ∈ filepaths /\ NewTargetFile w path = Fatal msg).
Proof.
  split; [|split; [|split]].
  - intros path msg H. pose proof (NewTargetFile_outcome w path) as Ho.
    by rewrite H in Ho.
  - intros path msg H. pose proof (NewTargetFile_outcome w path) as Ho.
    by rewrite H in Ho.
  - induction filepaths as [|path rest IH]; intros msg; [done|]. simpl.
    pose proof (NewTargetFile_outcome w path) as Ho.
    destruct (NewTargetFile w path) as [tf| |]; [|done|done]. simpl.
    destruct (fanOut w rest) as [tfs| |]; [done|done|].
    by destruct (IH msg0).
  - induction filepaths as [|path rest IH]; intros msg; [done|]. simpl.
    destruct (NewTargetFile w path) as [tf| |] eqn:Hnew; simpl.
    + destruct (fanOut w rest) as [tfs| |]; [done| |done].
      simpl. intros [= ->]. destruct (IH msg eq_refl) as (p & Hp & Hf).
      exists p. split; [by right|done].
    + intros [= ->]. exists path. split; [by left|done].
    + done.
Qed.

(** A number too big for [int] in the output of an analyzer ends the
    program. *)
Example number_too_big_ends_the_program :
  NewTargetFile
    (mkWorld (fun _ => Some "import os")
       (fun name _ => if (name =? "pylint")%string
                      then ("W: 9223372036854775808, 4: unused import", false)
                      else ("", false))
       (fun _ _ => ("", false)))
    "pkg/mod.py"
  = Fatal "Failed parsing line number 9223372036854775808".
Proof. vm_compute. reflexivity. Qed.

(** X14. A fan-out that completes has received one analysed file per path,
    in the model in the order of the paths: each carries the path it was
    made for and the lines of the content read for it, of which there is
    always at least one. *)
Theorem fanOut_one_result_per_path (w : World) (filepaths : list string)
  (tfs : list TargetFile) :
  fanOut w filepaths = Ok tfs ->
  Path <$> tfs = filepaths /\
  Forall (fun tf =>
            exists content,
              ReadFile w (Path tf) = Some content /\
              ContentLines tf = Split content "010" /\
              ContentLines tf <> []) tfs.
Proof.
  revert tfs. induction filepaths as [|path rest IH]; intros tfs; simpl.
  - intros [= <-]. by split.
  - destruct (NewTargetFile w path) as [tf| |] eqn:Hnew; try discriminate.
    simpl. destruct (fanOut w rest) as [tfs0| |]; try discriminate. simpl.
    intros [= <-]. destruct (IH tfs0 eq_refl) as [Hpaths Hall].
    apply NewTargetFile_fields in Hnew as (Hp & (content & Hread & Hc) & _).
    split; [by rewrite fmap_cons, Hp, Hpaths|].
    constructor; [|done]. exists content. rewrite Hp.
    split; [done|]. split; [done|]. rewrite Hc. unfold Split.
    destruct (bytes content) as [|c l]; [done|]. simpl.
    destruct (isByte c "010"); [done|].
    by destruct (splitBytes "010" l).
Qed.

Lemma fanOut_one_result_per_path_witness :
  Path <$> [mkTargetFile "main.go" ["package main"] [""] ∅] = ["main.go"].
Proof.
  apply (fanOut_one_result_per_path
           (mkWorld (fun _ => Some "package main")
              (fun _ _ => ("", false)) (fun _ _ => ("", false)))
           ["main.go"] [mkTargetFile "main.go" ["package main"] [""] ∅]).
  vm_compute. reflexivity.
Defined.

(** ** Display *)

Lemma BlameName_Ok_iff tf line :
  (exists name, BlameName tf line = Ok name) <->
  BlameLines tf = [] \/
  (1 <= line <= Z.of_nat (length (BlameLines tf)) /\
   exists blameLine,
     BlameLines tf !! Z.to_nat (line - 1) = Some blameLine /\
     hasBlameName blameLine).
Proof.
  destruct (decide (BlameLines tf = [])) as [Hnil|Hne].
  { split; [by left|]. intros _. exists "-". by apply BlameName_sentinel_empty. }
  split.
  - intros [name Hname]. right.
    destruct (decide (line < 1 \/ Z.of_nat (length (BlameLines tf)) < line))
      as [Hout|Hin].
    { rewrite (BlameName_out_of_range tf line Hne Hout) in Hname. discriminate. }
    split; [lia|].
    destruct (BlameLines tf !! Z.to_nat (line - 1)) as [blameLine|] eqn:Hline.
    + exists blameLine. split; [done|].
      rewrite (BlameName_line tf line blameLine) in Hname by (done || lia).
      destruct (Regexp.FindStringSubmatch rexes.blameName blameLine)
        as [groups|] eqn:Hf; [|discriminate].
      apply blameName_occurs, FindStringSubmatch_occurs. by rewrite Hf.
    + apply lookup_ge_None in Hline. lia.
  - intros [Hnil|[Hrange (blameLine & Hline & Hhas)]]; [done|].
    apply (BlameName_match tf line blameLine); [done|lia|done|done].
Qed.

Lemma index_not_Fatal {A : Type} (xs : list A) i msg : index xs i <> Fatal msg.
Proof.
  unfold index. destruct ((i <? 0) || (Z.of_nat (length xs) <=? i)); [done|].
  by destruct (xs !! Z.to_nat i).
Qed.

Lemma BlameName_not_Fatal tf line msg : BlameName tf line <> Fatal msg.
Proof.
  unfold BlameName. destruct (length (BlameLines tf) =? 0)%nat; [done|].
  destruct (index (BlameLines tf) (line - 1)) as [bl|m|m] eqn:Hi; simpl;
    [|by destruct (index_not_Fatal (BlameLines tf) (line - 1) m)|done].
  destruct (index (default [] (Regexp.FindStringSubmatch rexes.blameName bl)) 1)
    as [x|m|m] eqn:Hj; simpl; [done| |done].
  by destruct (index_not_Fatal
                 (default [] (Regexp.FindStringSubmatch rexes.blameName bl)) 1 m).
Qed.

Lemma index_Ok_range {A : Type} (xs : list A) (i : Z) :
  (exists x, index xs i = Ok x) <-> 0 <= i < Z.of_nat (length xs).
Proof.
  split.
  - intros [x [Hi Hx]%index_Ok]. apply lookup_lt_Some in Hx. lia.
  - intros Hi. destruct (xs !! Z.to_nat i) as [x|] eqn:Hx.
    + exists x. apply index_Ok. split; [lia|done].
    + apply lookup_ge_None in Hx. lia.
Qed.

Lemma forEach_unit_outcome {A : Type} (f : A -> Outcome unit) (xs : list A) :
  (forall x msg, f x <> Fatal msg) ->
  forEach (fun (_ : unit) x => f x) xs tt = Ok tt \/
  exists msg, forEach (fun (_ : unit) x => f x) xs tt = Panic msg.
Proof.
  intros Hf. induction xs as [|x xs IH]; [by left|]. simpl.
  specialize (Hf x). destruct (f x) as [[]|msg|msg]; simpl.
  - exact IH.
  - by destruct (Hf msg).
  - right. by exists msg.
Qed.

(** X15. [printWarts] gets through a file exactly when every line that
    has diagnostics is a line of the content (between 1 and the number of
    content lines) and, unless there are no blame lines at all, has a blame
    line that carries an author.  Otherwise it panics: a diagnostic on line
    0, on a line past the end of the file or of the blame output, or on a
    line whose blame has no author in the expected form, ends the
    program. *)
Theorem printWarts_safe_iff (tf : TargetFile) :
  (printWarts tf = Ok tt <->
   forall line warts,
     Warts tf !! line = Some warts ->
     1 <= line <= Z.of_nat (length (ContentLines tf)) /\
     (BlameLines tf = [] \/
      (line <= Z.of_nat (length (BlameLines tf)) /\
       exists blameLine,
         BlameLines tf !! Z.to_nat (line - 1) = Some blameLine /\
         hasBlameName blameLine))) /\
  (printWarts tf = Ok tt \/ exists msg, printWarts tf = Panic msg).
Proof.
  split.
  - unfold printWarts.
    rewrite (forEach_unit (fun entry : Z * list Wart => _)).
    rewrite Forall_forall. split.
    + intros Hall line warts Hline.
      apply elem_of_map_to_list in Hline. specialize (Hall _ Hline).
      cbn [fst] in Hall.
      destruct (BlameName tf line) as [name| |] eqn:Hname; try discriminate.
      simpl in Hall.
      destruct (index (ContentLines tf) (line - 1)) as [content| |] eqn:Hc;
        try discriminate.
      assert (0 <= line - 1 < Z.of_nat (length (ContentLines tf))) as Hrange.
      { apply index_Ok_range. by exists content. }
      split; [lia|].
      assert (exists name, BlameName tf line = Ok name) as Hb by (by exists name).
      apply BlameName_Ok_iff in Hb as [Hb|[Hr Hb]]; [by left|right].
      split; [lia|done].
    + intros Hall [line warts] Hin. apply elem_of_map_to_list in Hin.
      destruct (Hall _ _ Hin) as [Hrange Hblame]. cbn [fst].
      assert (exists name, BlameName tf line = Ok name) as [name ->].
      { apply BlameName_Ok_iff. destruct Hblame as [?|[? ?]]; [by left|right].
        split; [lia|done]. }
      simpl.
      assert (exists content, index (ContentLines tf) (line - 1) = Ok content)
        as [content ->].
      { apply index_Ok_range. lia. }
      done.
  - unfold printWarts. apply forEach_unit_outcome.
    intros [line warts] msg. cbn [fst].
    destruct (BlameName tf line) as [name|m|m] eqn:Hname; simpl.
    + destruct (index (ContentLines tf) (line - 1)) as [c|m|m] eqn:Hc;
        simpl; [done| |done].
      by destruct (index_not_Fatal (ContentLines tf) (line - 1) m).
    + by destruct (BlameName_not_Fatal tf line m).
    + done.
Qed.

(** A diagnostic on line 0, which the patterns of the adapters let
    through, makes [printWarts] panic. *)
Example printWarts_line_zero :
  printWarts (mkTargetFile "pkg/mod.py" ["import os"] []
                {[ 0 := [mkWart "Pylint" 0 0 "C" "Missing docstring"] ]})
  = Panic "index out of range".
Proof. vm_compute. reflexivity. Qed.

(** ** Extensions *)

Lemma bytes_app s1 s2 : bytes (s1 +:+ s2) = bytes s1 ++ bytes s2.
Proof.
  unfold bytes. induction s1 as [|c s1 IH]; simpl; [done|]. f_equal. exact IH.
Qed.

Lemma text_app l1 l2 : text (l1 ++ l2) = text l1 +:+ text l2.
Proof.
  unfold text. induction l1 as [|c l1 IH]; simpl; [done|].
  rewrite IH. reflexivity.
Qed.

Lemma append_empty s : s +:+ "" = s.
Proof.
  induction s as [|c s IH]; [done|].
  change (String c (s +:+ "") = String c s). by rewrite IH.
Qed.

Lemma isByte_neq c d : isByte c d = false <-> c <> d.
Proof.
  rewrite <- isByte_eq. destruct (isByte c d); split; congruence.
Qed.

(** The loop of [filepath.Ext] over a path that ends with a dot and bytes
    that are neither a dot nor a separator. *)
Lemma extLoop_found x : forall rest suffix,
  Forall (fun c => c <> "."%char /\ c <> "/"%char) x ->
  extLoop (x ++ "."%char :: rest) suffix = "."%char :: rev x ++ suffix.
Proof.
  induction x as [|c x IH]; intros rest suffix Hx; [done|].
  apply Forall_cons in Hx as [[Hdot Hslash] Hx]. simpl.
  apply isByte_neq in Hdot, Hslash. rewrite Hdot, Hslash.
  rewrite IH by done. by rewrite <- app_assoc.
Qed.

(** What the loop of [filepath.Ext] returns: nothing, or the bytes from the
    last dot of the last element of the path. *)
Lemma extLoop_result before : forall suffix,
  extLoop before suffix = [] \/
  exists x rest,
    before = x ++ "."%char :: rest /\
    Forall (fun c => c <> "."%char /\ c <> "/"%char) x /\
    extLoop before suffix = "."%char :: rev x ++ suffix.
Proof.
  induction before as [|c before IH]; intros suffix; [by left|]. simpl.
  destruct (isByte c "/") eqn:Hslash; [by left|].
  destruct (isByte c ".") eqn:Hdot.
  - apply isByte_eq in Hdot as ->. right. exists [], before.
    split; [done|]. split; [constructor|done].
  - destruct (IH (c :: suffix)) as [Hnil|(x & rest & -> & Hx & Hext)];
      [by left|].
    right. exists (c :: x), rest. split; [done|]. split.
    + constructor; [|done]. by split; apply isByte_neq.
    + rewrite Hext. simpl. by rewrite <- app_assoc.
Qed.

Lemma Ext_of_suffix stem x :
  Forall (fun c => c <> "."%char /\ c <> "/"%char) (bytes x) ->
  Ext (stem +:+ "." +:+ x) = "." +:+ x.
Proof.
  intros Hx. unfold Ext. rewrite !bytes_app. cbn [bytes list_ascii_of_string].
  rewrite rev_app_distr. cbn [rev app]. rewrite <- app_assoc. cbn [app].
  rewrite extLoop_found.
  - rewrite rev_involutive, app_nil_r. cbn [text string_of_list_ascii].
    by rewrite text_bytes.
  - apply Forall_forall. intros c Hc%list_elem_of_In%in_rev%list_elem_of_In.
    rewrite Forall_forall in Hx. by apply Hx.
Qed.

Lemma Ext_is_suffix path :
  exists stem, path = stem +:+ Ext path.
Proof.
  unfold Ext.
  destruct (extLoop_result (rev (bytes path)) []) as [->|(x & rest & Hrev & _ & ->)].
  - exists path. symmetry. apply append_empty.
  - exists (text (rev rest)).
    rewrite <- text_app, app_nil_r.
    rewrite <- (text_bytes path) at 1. f_equal.
    rewrite <- (rev_involutive (bytes path)), Hrev.
    rewrite rev_app_distr. cbn [rev]. by rewrite <- app_assoc.
Qed.

(** X16. [ExtEquals] tests the end of the path: for an extension made of
    a dot followed by bytes that are neither a dot nor a separator, it
    answers true exactly when the path ends with that extension; so the
    analyzers for Go run on the paths that end with [.go], a file named
    [.go] included. *)
Theorem ExtEquals_end_of_path (tf : TargetFile) (x : string) :
  Forall (fun c => c <> "."%char /\ c <> "/"%char) (bytes x) ->
  (ExtEquals tf ("." +:+ x) = true <->
   exists stem, Path tf = stem +:+ "." +:+ x).
Proof.
  intros Hx. unfold ExtEquals. rewrite String.eqb_eq. split.
  - intros Hext. destruct (Ext_is_suffix (Path tf)) as [stem Hstem].
    exists stem. by rewrite <- Hext.
  - intros [stem ->]. by apply Ext_of_suffix.
Qed.

Lemma ExtEquals_end_of_path_witness :
  ExtEquals (mkTargetFile "src/cmd.d/main.go" [] [] ∅) ".go" = true.
Proof.
  apply (ExtEquals_end_of_path (mkTargetFile "src/cmd.d/main.go" [] [] ∅) "go").
  - repeat constructor; discriminate.
  - by exists "src/cmd.d/main".
Defined.

(** X17. A readable file whose extension is neither [.py] nor [.go] is
    read and blamed, and that is all: no analyzer is run for it, whatever
    the analyzers would print, it gets no diagnostic and its analysis does
    not fail. *)
Theorem NewTargetFile_other_extension (w : World) (path content : string) :
  ReadFile w path = Some content ->
  Ext path <> ".py" -> Ext path <> ".go" ->
  NewTargetFile w path
    = Ok (mkTargetFile path (Split content "010")
            (if (Output w "git" ["blame"; path]).2 then []
             else Split (Output w "git" ["blame"; path]).1 "010")
            ∅).
Proof.
  intros Hread Hpy Hgo. unfold NewTargetFile. rewrite Hread.
  apply String.eqb_neq in Hpy, Hgo.
  unfold Blame. cbn [Path ContentLines BlameLines Warts].
  set (tf := mkTargetFile path _ _ ∅).
  assert (Pep8 w tf = Ok tf) as ->.
  { unfold Pep8. cbn [tf Path]. by rewrite Hpy. }
  cbn [bind].
  assert (PyLint w tf = Ok tf) as ->.
  { unfold PyLint. cbn [tf Path]. by rewrite Hpy. }
  cbn [bind]. unfold GoBuild, GoVet.
  assert (forall goCmd, GoCmd w goCmd tf = Ok tf) as Hcmd.
  { intros goCmd. unfold GoCmd, ExtEquals. cbn [tf Path]. by rewrite Hgo. }
  rewrite Hcmd. cbn [bind]. rewrite Hcmd. reflexivity.
Qed.

Lemma NewTargetFile_other_extension_witness :
  NewTargetFile
    (mkWorld (fun _ => Some "see main.go")
       (fun _ _ => ("W: 1, 0: unused import", true))
       (fun _ _ => ("notes.copy:1: undefined: foo", true)))
    "notes.copy"
  = Ok (mkTargetFile "notes.copy" ["see main.go"] [] ∅).
Proof.
  apply (NewTargetFile_other_extension
           (mkWorld (fun _ => Some "see main.go")
              (fun _ _ => ("W: 1, 0: unused import", true))
              (fun _ _ => ("notes.copy:1: undefined: foo", true)))
           "notes.copy" "see main.go"); [reflexivity|discriminate|discriminate].
Defined.

(** ** Lines *)

Lemma splitBytes_nonempty sep s : splitBytes sep s <> [].
Proof.
  destruct s as [|c s]; [done|]. simpl.
  destruct (isByte c sep); [done|]. by destruct (splitBytes sep s).
Qed.

Lemma joinBytes_cons sep part rest :
  rest <> [] -> joinBytes sep (part :: rest) = part ++ sep :: joinBytes sep rest.
Proof. by destruct rest. Qed.

Lemma splitBytes_join sep s : joinBytes sep (splitBytes sep s) = s.
Proof.
  induction s as [|c s IH]; [done|]. simpl.
  pose proof (splitBytes_nonempty sep s) as Hne.
  destruct (isByte c sep) eqn:Hc.
  - apply isByte_eq in Hc as ->.
    rewrite joinBytes_cons by done. by rewrite IH.
  - destruct (splitBytes sep s) as [|p ps] eqn:Hs; [done|].
    destruct ps as [|q ps].
    + simpl in *. by rewrite IH.
    + rewrite joinBytes_cons by done. rewrite joinBytes_cons in IH by done.
      by rewrite <- IH.
Qed.

Lemma splitBytes_no_sep sep s :
  Forall (fun part => sep ∉ part) (splitBytes sep s).
Proof.
  induction s as [|c s IH]; simpl.
  - repeat constructor. apply not_elem_of_nil.
  - destruct (isByte c sep) eqn:Hc.
    + constructor; [apply not_elem_of_nil|done].
    + apply isByte_neq in Hc.
      destruct (splitBytes sep s) as [|p ps]; [|apply Forall_cons in IH as [Hp Hps]].
      * repeat constructor. intros [?|?%elem_of_nil]%elem_of_cons; done.
      * constructor; [|done]. intros [?|?]%elem_of_cons; done.
Qed.

Lemma splitBytes_length sep s :
  length (splitBytes sep s) = S (length (filter (fun c => c = sep) s)).
Proof.
  induction s as [|c s IH]; [done|]. simpl. rewrite filter_cons.
  destruct (isByte c sep) eqn:Hc.
  - apply isByte_eq in Hc as ->. rewrite decide_True by done. simpl.
    by rewrite IH.
  - apply isByte_neq in Hc. rewrite decide_False by done.
    destruct (splitBytes sep s) as [|p ps]; [discriminate|]. by rewrite <- IH.
Qed.

(** X18. [Split] cuts a text at every separator and loses nothing: there
    is one part more than there are separators (so at least one part, and
    an empty last part after a final separator), no part contains the
    separator, and joining the parts with the separator gives the text
    back.  The content lines and the blame lines of a file are such
    parts. *)
Theorem Split_round_trip (s : string) (sep : ascii) :
  Join (Split s sep) sep = s /\
  Forall (fun line => sep ∉ bytes line) (Split s sep) /\
  length (Split s sep) = S (length (filter (fun c => c = sep) (bytes s))).
Proof.
  unfold Join, Split. split; [|split].
  - rewrite <- list_fmap_compose.
    assert (bytes ∘ text <$> splitBytes sep (bytes s) = splitBytes sep (bytes s))
      as ->.
    { etrans; [apply (list_fmap_ext _ id)|apply list_fmap_id].
      intros i l _. apply bytes_text. }
    by rewrite splitBytes_join, text_bytes.
  - apply Forall_fmap. eapply Forall_impl; [apply splitBytes_no_sep|].
    intros part Hpart. simpl. by rewrite bytes_text.
  - by rewrite length_fmap, splitBytes_length.
Qed.

(** ** Printing and reading numbers *)

Lemma parseDigits_uint d : forall acc,
  parseDigits (bytes (DecimalString.NilEmpty.string_of_uint d)) acc
    = Some (uintValue d acc).
Proof.
  induction d; intros acc; simpl; [done|..];
    rewrite IHd; do 2 f_equal.
Qed.

Lemma of_uint_acc_value d : forall p,
  Z.pos (Pos.of_uint_acc d p) = uintValue d (Z.pos p).
Proof.
  induction d; intros p; simpl; [done|..]; rewrite IHd; f_equal; lia.
Qed.

Lemma of_uint_value d : Z.of_uint d = uintValue d 0.
Proof.
  unfold Z.of_uint.
  induction d; simpl; [done|exact IHd|..]; by rewrite of_uint_acc_value.
Qed.

Lemma string_of_uint_head d :
  d <> Decimal.Nil ->
  exists c rest,
    bytes (DecimalString.NilEmpty.string_of_uint d) = c :: rest /\
    isDigit c = true.
Proof. destruct d; [done|..]; intros _; by eexists _, _. Qed.

Lemma ParseInt_natural d :
  d <> Decimal.Nil -> Z.of_uint d < 2 ^ 63 ->
  ParseInt (DecimalString.NilEmpty.string_of_uint d) = Some (Z.of_uint d).
Proof.
  intros Hd Hr. unfold ParseInt.
  pose proof (parseDigits_uint d 0) as Hp.
  destruct (string_of_uint_head d Hd) as (c & rest & Hb & Hc).
  rewrite Hb in Hp |- *.
  destruct (isDigit_no_sign c Hc) as [-> ->]. cbn [orb negb andb].
  rewrite Hp, <- of_uint_value.
  change (2 ^ (IntSize - 1)) with (2 ^ 63).
  by replace (2 ^ 63 <=? Z.of_uint d) with false by (symmetry; apply Z.leb_gt; lia).
Qed.

Lemma ParseInt_negative d :
  d <> Decimal.Nil -> Z.of_uint d <= 2 ^ 63 ->
  ParseInt (String "-" (DecimalString.NilEmpty.string_of_uint d))
    = Some (- Z.of_uint d).
Proof.
  intros Hd Hr. unfold ParseInt.
  pose proof (parseDigits_uint d 0) as Hp.
  destruct (string_of_uint_head d Hd) as (c & rest & Hb & Hc).
  cbn [bytes list_ascii_of_string]. fold (bytes (DecimalString.NilEmpty.string_of_uint d)).
  rewrite Hb in Hp |- *.
  change (isByte "-" "-") with true. change (isByte "-" "+") with false.
  cbn [orb negb andb].
  rewrite Hp, <- of_uint_value.
  change (2 ^ (IntSize - 1)) with (2 ^ 63).
  by replace (2 ^ 63 <? Z.of_uint d) with false by (symmetry; apply Z.ltb_ge; lia).
Qed.

Lemma ParseInt_FormatInt n :
  - 2 ^ 63 <= n <= 2 ^ 63 - 1 -> ParseInt (FormatInt n) = Some n.
Proof.
  intros Hn. unfold FormatInt. pose proof (DecimalZ.of_to n) as Hof.
  destruct n as [|p|p]; [done| |].
  - cbn [Z.to_int DecimalString.NilZero.string_of_int] in *.
    pose proof (DecimalPos.Unsigned.to_uint_nonnil p) as Hnn.
    unfold DecimalString.NilZero.string_of_uint.
    cbn [Z.of_int] in Hof.
    destruct (Pos.to_uint p) eqn:Hd; [done|..];
      rewrite <- Hof; apply ParseInt_natural; (done || lia).
  - cbn [Z.to_int DecimalString.NilZero.string_of_int] in *.
    pose proof (DecimalPos.Unsigned.to_uint_nonnil p) as Hnn.
    unfold DecimalString.NilZero.string_of_uint.
    cbn [Z.of_int] in Hof.
    destruct (Pos.to_uint p) eqn:Hd; [done|..];
      rewrite <- Hof; apply ParseInt_negative; (done || lia).
Qed.

(** X19. [NewWart] reads numbers back as they are printed: for a line and
    a column within the range of [int], printed with [%d] as [Wart.String]
    and [printWarts] print them, [NewWart] returns the diagnostic with
    that line and that column. *)
Theorem NewWart_reads_printed_numbers (reporter issueCode message : string)
  (line column : Z) :
  - 2 ^ 63 <= line <= 2 ^ 63 - 1 -> - 2 ^ 63 <= column <= 2 ^ 63 - 1 ->
  NewWart reporter (FormatInt line) (FormatInt column) issueCode message
    = Ok (mkWart reporter line column issueCode message).
Proof.
  intros Hl Hc. apply NewWart_ok; by apply ParseInt_FormatInt.
Qed.

Lemma NewWart_reads_printed_numbers_witness :
  NewWart "vet" (FormatInt 120) (FormatInt (-3)) "-" "m"
    = Ok (mkWart "vet" 120 (-3) "-" "m").
Proof.
  apply (NewWart_reads_printed_numbers "vet" "-" "m" 120 (-3)); lia.
Defined.

Example Wart_String_example :
  Wart_String (mkWart "Pylint" 12 4 "W" "unused import")
    = "12: [Pylint W] unused import".
Proof. vm_compute. reflexivity. Qed.

(** ** The name of the author *)

Lemma trimLeft_suffix s :
  exists pre, s = pre ++ trimLeft s.
Proof.
  induction s as [|c s [pre IH]]; [by exists []|]. simpl.
  destruct (isSpaceByte c); [|by exists []].
  exists (c :: pre). simpl. by rewrite <- IH.
Qed.

Lemma trimLeft_head s c rest :
  trimLeft s = c :: rest -> isSpaceByte c = false.
Proof.
  induction s as [|d s IH]; [done|]. simpl.
  destruct (isSpaceByte d) eqn:Hd; [done|]. by intros [= -> _].
Qed.

Lemma trimLeft_Forall (P : ascii -> Prop) s :
  Forall P s -> Forall P (trimLeft s).
Proof.
  intros H. destruct (trimLeft_suffix s) as [pre Hs].
  rewrite Hs in H. by apply Forall_app in H as [_ ?].
Qed.

Lemma trimmed_Forall (P : ascii -> Prop) s :
  Forall P s -> Forall P (trimmed s).
Proof.
  intros H. unfold trimmed.
  by apply Forall_rev, trimLeft_Forall, Forall_rev, trimLeft_Forall.
Qed.

Lemma trimmed_head s c rest :
  trimmed s = c :: rest -> isSpaceByte c = false.
Proof.
  unfold trimmed. intros Ht.
  destruct (trimLeft_suffix (rev (trimLeft s))) as [pre Hs].
  apply (f_equal (@rev ascii)) in Hs. rewrite rev_involutive, rev_app_distr, Ht in Hs.
  simpl in Hs. by apply trimLeft_head in Hs.
Qed.

Lemma trimmed_last s c :
  last (trimmed s) = Some c -> isSpaceByte c = false.
Proof.
  unfold trimmed.
  destruct (trimLeft (rev (trimLeft s))) as [|d rest] eqn:Ht; [done|].
  simpl. rewrite last_snoc. intros [= ->]. by apply trimLeft_head in Ht.
Qed.

(** *** The greedy repetition *)

Lemma within_S max n :
  within max (S n) -> Regexp.allows max = true /\ within (Regexp.less max) n.
Proof.
  destruct max as [[|m]|]; simpl; [lia| |done]. intros H. split; [done|lia].
Qed.

(** When a repetition fails, the rest of the pattern fails after every
    number of bytes that the repetition could have taken. *)
Lemma rep_None p k : forall s min max prev caps,
  Regexp.rep p min max k prev s caps = None ->
  forall w rest,
    s = w ++ rest -> Forall (fun c => p c = true) w ->
    (min <= length w)%nat -> within max (length w) ->
    k (lastOr prev w) rest caps = None.
Proof.
  induction s as [|c s IH]; intros min max prev caps H w rest Hs Hall Hmin Hmax.
  - symmetry in Hs. apply app_eq_nil in Hs as [-> ->]. simpl in *.
    destruct min; [done|lia].
  - destruct w as [|d w].
    + simpl in Hs. subst rest. simpl in Hmin.
      assert (min = O) as -> by lia. simpl in H.
      destruct (p c && Regexp.allows max); [|done].
      by destruct (Regexp.rep p 0 (Regexp.less max) k (Some c) s caps).
    + simpl in Hs. injection Hs as <- ->.
      apply Forall_cons in Hall as [Hc Hall].
      apply within_S in Hmax as [Hallow Hmax]. simpl in H.
      rewrite Hc, Hallow in H. simpl in H.
      destruct (Regexp.rep p (Nat.pred min) (Regexp.less max) k (Some c)
                  (w ++ rest) caps) as [r|] eqn:Hrec; [discriminate|].
      rewrite lastOr_cons.
      apply (IH _ _ _ _ Hrec w rest); [done|done| |done].
      simpl in Hmin. lia.
Qed.

(** A repetition takes as many bytes as the rest of the pattern allows. *)
Lemma rep_greedy p k res : forall s min max prev caps,
  Regexp.rep p min max k prev s caps = Some res ->
  exists w rest,
    s = w ++ rest /\ Forall (fun c => p c = true) w /\
    (min <= length w)%nat /\ within max (length w) /\
    k (lastOr prev w) rest caps = Some res /\
    forall w' rest',
      s = w' ++ rest' -> Forall (fun c => p c = true) w' ->
      (length w < length w')%nat -> within max (length w') ->
      k (lastOr prev w') rest' caps = None.
Proof.
  induction s as [|c s IH]; intros min max prev caps H.
  - simpl in H. destruct min; [|discriminate].
    exists [], []. split; [done|]. split; [constructor|]. split; [done|].
    split; [by destruct max; simpl; lia|]. split; [done|].
    intros w' rest' Hs _ Hlen _. symmetry in Hs.
    apply app_eq_nil in Hs as [-> _]. simpl in Hlen. lia.
  - simpl in H. destruct (p c && Regexp.allows max) eqn:Hpc.
    + destruct (Regexp.rep p (Nat.pred min) (Regexp.less max) k (Some c) s caps)
        as [r|] eqn:Hrec.
      * injection H as ->.
        apply IH in Hrec as (w & rest & -> & Hall & Hmin & Hmax & Hk & Hgreedy).
        apply andb_true_iff in Hpc as [Hc Hallow].
        exists (c :: w), rest. split; [done|]. split; [by constructor|].
        split; [simpl; lia|]. split.
        { destruct max as [[|m]|]; simpl in *; [done|lia|done]. }
        split; [by rewrite lastOr_cons|].
        intros w' rest' Hs Hall' Hlen Hmax'.
        destruct w' as [|d w']; [simpl in Hlen; lia|].
        simpl in Hs. injection Hs as <- Hs.
        apply Forall_cons in Hall' as [_ Hall'].
        apply within_S in Hmax' as [_ Hmax'].
        rewrite lastOr_cons. apply Hgreedy; [done|done| |done].
        simpl in Hlen. lia.
      * destruct min; [|discriminate].
        exists [], (c :: s). split; [done|]. split; [constructor|].
        split; [done|]. split; [by destruct max; simpl; lia|].
        split; [done|].
        intros w' rest' Hs Hall' Hlen Hmax'.
        destruct w' as [|d w']; [simpl in Hlen; lia|].
        simpl in Hs. injection Hs as <- Hs.
        apply Forall_cons in Hall' as [_ Hall'].
        apply within_S in Hmax' as [_ Hmax'].
        rewrite lastOr_cons.
        apply (rep_None _ _ _ _ _ _ _ Hrec w' rest'); [done|done| |done].
        simpl. lia.
    + destruct min; [|discriminate].
      exists [], (c :: s). split; [done|]. split; [constructor|].
      split; [done|]. split; [by destruct max; simpl; lia|].
      split; [done|].
      intros w' rest' Hs Hall' Hlen Hmax'.
      destruct w' as [|d w']; [simpl in Hlen; lia|].
      simpl in Hs. injection Hs as <- Hs.
      apply Forall_cons in Hall' as [Hc _].
      apply within_S in Hmax' as [Hallow _].
      by rewrite Hc, Hallow in Hpc.
Qed.

(** [find] returns the match at the first position from which the pattern
    matches. *)
Lemma find_leftmost r : forall s prev whole rest caps,
  Regexp.find r prev s = Some (whole, rest, caps) ->
  exists pre,
    s = pre ++ whole ++ rest /\
    Regexp.run r Regexp.accept (lastOr prev pre) (whole ++ rest) []
      = Some (rest, caps) /\
    forall pre' s',
      s = pre' ++ s' -> (length pre' < length pre)%nat ->
      Regexp.run r Regexp.accept (lastOr prev pre') s' [] = None.
Proof.
  assert (Hhere : forall s prev whole rest caps rest' caps',
    Regexp.run r Regexp.accept prev s [] = Some (rest', caps') ->
    Some (Regexp.consumed s rest', rest', caps') = Some (whole, rest, caps) ->
    exists pre,
      s = pre ++ whole ++ rest /\
      Regexp.run r Regexp.accept (lastOr prev pre) (whole ++ rest) []
        = Some (rest, caps) /\
      forall pre' s',
        s = pre' ++ s' -> (length pre' < length pre)%nat ->
        Regexp.run r Regexp.accept (lastOr prev pre') s' [] = None).
  { intros s prev whole rest caps rest' caps' Hrun H.
    injection H as <- <- <-.
    pose proof (run_accept_sound _ _ _ _ _ Hrun) as [Hs _].
    exists []. split; [done|]. split; [by rewrite <- Hs|].
    intros pre' s' _ Hlen. simpl in Hlen. lia. }
  induction s as [|c s IH]; intros prev whole rest caps H; simpl in H.
  - destruct (Regexp.run r Regexp.accept prev [] []) as [[rest' caps']|] eqn:Hrun;
      [|discriminate].
    by eapply Hhere.
  - destruct (Regexp.run r Regexp.accept prev (c :: s) []) as [[rest' caps']|] eqn:Hrun.
    + by eapply Hhere.
    + apply IH in H as (pre & -> & Hmatch & Hleft).
      exists (c :: pre). split; [done|]. split; [by rewrite lastOr_cons|].
      intros pre' s' Hs Hlen. destruct pre' as [|d pre'].
      * simpl in Hs. by subst s'.
      * simpl in Hs. injection Hs as <- Hs. rewrite lastOr_cons.
        apply Hleft; [done|]. simpl in Hlen. lia.
Qed.

(** *** The pattern of the author *)

Lemma authorAt_run prev s author year rest :
  authorAt s author year rest ->
  is_Some (Regexp.run rexes.blameName Regexp.accept prev s []).
Proof.
  intros (-> & [Hne Hall] & Hlen & Hyear).
  replace ("("%char :: author ++ year ++ rest)
    with ((["("%char] ++ author ++ year ++ []) ++ rest)
    by (simpl; by rewrite app_nil_r, <- app_assoc).
  apply run_complete; [|by eexists].
  unfold rexes.blameName, Regexp.items, Regexp.plus, Regexp.times. simpl foldr.
  constructor; [by constructor; apply isByte_eq|].
  constructor.
  - constructor. constructor; [done| |done].
    destruct author; [done|simpl; lia].
  - constructor; [|constructor].
    constructor; [done|lia|simpl; lia].
Qed.

Lemma run_blameName prev s rest caps :
  Regexp.run rexes.blameName Regexp.accept prev s [] = Some (rest, caps) ->
  exists author year,
    authorAt s author year rest /\ caps = [(1%nat, author)] /\
    forall author' year' rest',
      authorAt s author' year' rest' ->
      (length author' <= length author)%nat.
Proof.
  unfold rexes.blameName, Regexp.items, Regexp.plus, Regexp.times.
  simpl. intros H.
  destruct s as [|d s]; [discriminate|].
  destruct (isByte d "(") eqn:Hd; [|discriminate].
  apply isByte_eq in Hd as ->.
  apply rep_greedy in H
    as (author & rest1 & -> & Hall & Hmin & _ & Hk & Hgreedy).
  rewrite consumed_app in Hk.
  apply rep_sound in Hk as (year & rest2 & -> & Hyear & Hmin4 & Hmax4 & Hacc).
  unfold Regexp.accept in Hacc. injection Hacc as <- <-.
  simpl in Hmax4.
  exists author, year. split; [|split; [done|]].
  - split; [done|]. split; [|split; [lia|done]].
    split; [|done]. intros ->. simpl in Hmin. lia.
  - intros author' year' rest' (Hs & [Hne' Hall'] & Hlen' & Hyear').
    injection Hs as Hs.
    destruct (decide (length author' <= length author)%nat) as [|Hlonger];
      [done|exfalso].
    assert (Hlt : (length author < length author')%nat) by lia.
    pose proof (Hgreedy author' (year' ++ rest') Hs Hall' Hlt I) as Hnone.
    simpl in Hnone.
    match type of Hnone with
    | ?run = None => assert (Hsome : is_Some run)
    end.
    { apply rep_complete; [done|lia|simpl; lia|by eexists]. }
    rewrite Hnone in Hsome. by destruct Hsome.
Qed.

Lemma blameAuthor_unique blameLine author author' :
  blameAuthor blameLine author -> blameAuthor blameLine author' ->
  author = author'.
Proof.
  intros (pre & year & rest & Hs & Hat & Hleft & Hlong)
         (pre' & year' & rest' & Hs' & Hat' & Hleft' & Hlong').
  pose proof (Hleft _ _ _ _ _ Hs' Hat') as Hle.
  pose proof (Hleft' _ _ _ _ _ Hs Hat) as Hle'.
  rewrite Hs in Hs'.
  apply app_inj_1 in Hs' as [-> Heq]; [|lia].
  rewrite <- Heq in Hat', Hlong'.
  pose proof (Hlong _ _ _ Hat') as Hl.
  pose proof (Hlong' _ _ _ Hat) as Hl'.
  injection Heq as Heq.
  apply app_inj_1 in Heq as [-> _]; [done|lia].
Qed.

Lemma index_second {A : Type} (x y : A) : index [x; y] 1 = Ok y.
Proof. apply index_Ok. split; [lia|reflexivity]. Qed.

Lemma FindStringSubmatch_blameName blameLine groups :
  Regexp.FindStringSubmatch rexes.blameName blameLine = Some groups ->
  exists whole author,
    groups = [whole; text author] /\ blameAuthor blameLine author.
Proof.
  unfold Regexp.FindStringSubmatch.
  destruct (Regexp.find rexes.blameName None (bytes blameLine))
    as [[[whole rest] caps]|] eqn:Hf; [|done].
  intros [= <-].
  apply find_leftmost in Hf as (pre & Hs & Hrun & Hleft).
  apply run_blameName in Hrun as (author & year & Hat & -> & Hlong).
  exists (text whole), author. split; [reflexivity|].
  pose proof Hat as (Hwhole & _).
  exists pre, year, rest. rewrite <- Hwhole. split; [done|]. split; [done|].
  split; [|done].
  intros pre' s' author' year' rest' Hs' Hat'.
  destruct (decide (length pre <= length pre')%nat) as [|Hshort];
    [done|exfalso].
  assert (Hnone : Regexp.run rexes.blameName Regexp.accept (lastOr None pre') s' []
                  = None) by (apply Hleft; [done|lia]).
  destruct (authorAt_run (lastOr None pre') _ _ _ _ Hat') as [res Hres].
  congruence.
Qed.

(** X20. The name that [BlameName] returns is the sentinel "-" on a file
    without blame lines, and otherwise the author found in the blame line
    of that line, with the white space at both ends removed.  The author
    is what stands between the first opening parenthesis of the line from
    which word or space characters followed by four digits can be read,
    and the last four digits that can be taken from there: the pattern
    takes as much as it can, so that the author can hold digits of the
    date.  [BlameName] returns that name and no other; the name holds
    only letters, digits, underscores and white space, and neither starts
    nor ends with white space. *)
Theorem BlameName_name_shape (tf : TargetFile) (line : Z) (name : string) :
  (BlameName tf line = Ok name <->
   (BlameLines tf = [] /\ name = "-") \/
   (exists blameLine author,
      1 <= line /\
      BlameLines tf !! Z.to_nat (line - 1) = Some blameLine /\
      blameAuthor blameLine author /\ name = text (trimmed author))) /\
  (BlameName tf line = Ok name -> BlameLines tf <> [] ->
   Forall (fun c => isWordOrSpace c = true) (bytes name) /\
   (forall c, head (bytes name) = Some c -> isSpaceByte c = false) /\
   (forall c, last (bytes name) = Some c -> isSpaceByte c = false)).
Proof.
  assert (Hforward : BlameName tf line = Ok name -> BlameLines tf <> [] ->
    exists blameLine author,
      1 <= line /\
      BlameLines tf !! Z.to_nat (line - 1) = Some blameLine /\
      blameAuthor blameLine author /\ name = text (trimmed author)).
  { intros Hname Hne.
    destruct (decide (line < 1 \/ Z.of_nat (length (BlameLines tf)) < line))
      as [Hout|Hin].
    { rewrite (BlameName_out_of_range tf line Hne Hout) in Hname. discriminate. }
    destruct (BlameLines tf !! Z.to_nat (line - 1)) as [blameLine|] eqn:Hline;
      [|apply lookup_ge_None in Hline; lia].
    rewrite (BlameName_line tf line blameLine) in Hname by (done || lia).
    destruct (Regexp.FindStringSubmatch rexes.blameName blameLine)
      as [groups|] eqn:Hf; [|discriminate].
    apply FindStringSubmatch_blameName in Hf as (whole & author & -> & Hauthor).
    rewrite index_second in Hname. cbn [bind] in Hname. injection Hname as <-.
    exists blameLine, author. split; [lia|]. split; [done|]. split; [done|].
    unfold TrimSpace. by rewrite bytes_text. }
  split; [split|].
  - intros Hname. destruct (decide (BlameLines tf = [])) as [Hnil|Hne].
    + left. split; [done|].
      rewrite BlameName_sentinel_empty in Hname by done. by injection Hname as <-.
    + right. by apply Hforward.
  - intros [[Hnil ->]|(blameLine & author & Hpos & Hline & Hauthor & ->)].
    + by apply BlameName_sentinel_empty.
    + assert (Hne : BlameLines tf <> []).
      { intros Hnil. by rewrite Hnil in Hline. }
      rewrite (BlameName_line tf line blameLine) by (done || lia).
      destruct (Regexp.FindStringSubmatch rexes.blameName blameLine)
        as [groups|] eqn:Hf.
      * apply FindStringSubmatch_blameName in Hf
          as (whole & author' & -> & Hauthor').
        rewrite (blameAuthor_unique _ _ _ Hauthor Hauthor').
        rewrite index_second. cbn [bind]. unfold TrimSpace.
        by rewrite bytes_text.
      * exfalso.
        assert (Hocc : is_Some (Regexp.FindStringSubmatch rexes.blameName blameLine)).
        { apply FindStringSubmatch_occurs, blameName_occurs.
          destruct Hauthor as (pre & year & rest & Hs & (_ & [Hn Ha] & Hl & Hy) & _).
          by exists pre, author, year, rest. }
        rewrite Hf in Hocc. by destruct Hocc.
  - intros Hname Hne.
    destruct (Hforward Hname Hne)
      as (blameLine & author & _ & _ & (pre & year & rest & _ & Hat & _) & ->).
    destruct Hat as (_ & [_ Hall] & _). rewrite bytes_text.
    split; [by apply trimmed_Forall|]. split.
    + intros c Hc. destruct (trimmed author) as [|d t] eqn:Ht; [done|].
      injection Hc as ->. by apply trimmed_head in Ht.
    + apply trimmed_last.
Qed.

Lemma BlameName_name_shape_witness :
  BlameName (mkTargetFile "main.go" ["package main"]
               ["4f2a91 (Jane Doe  20140102 10:00:00 +0000 1) package main"] ∅) 1
    = Ok "Jane Doe  2014" /\
  exists blameLine author,
    1 <= 1 /\
    [("4f2a91 (Jane Doe  20140102 10:00:00 +0000 1) package main")%string]
      !! Z.to_nat (1 - 1) = Some blameLine /\
    blameAuthor blameLine author /\ "Jane Doe  2014" = text (trimmed author).
Proof.
  split; [vm_compute; reflexivity|].
  destruct (proj1 (proj1 (BlameName_name_shape
              (mkTargetFile "main.go" ["package main"]
                 ["4f2a91 (Jane Doe  20140102 10:00:00 +0000 1) package main"] ∅)
              1 "Jane Doe  2014")) ltac:(vm_compute; reflexivity))
    as [[Hnil _]|Hauthor]; [discriminate|exact Hauthor].
Defined.

(** ** A round of the loop *)

Lemma checkUntilChanged_quiet stat m filepaths :
  (forall p, p ∈ filepaths -> ~ stale stat m p) ->
  checkUntilChanged stat m filepaths = (false, m).
Proof.
  induction filepaths as [|file rest IH]; intros Hall; [done|]. simpl.
  destruct (CheckTime stat m file).1 eqn:Hr.
  - exfalso. apply (Hall file); [by left|]. by apply CheckTime_true_stale.
  - rewrite (CheckTime_false_same _ _ _ Hr). apply IH.
    intros p Hp. apply Hall. by right.
Qed.

(** X21. A quiet round of the loop of [main] runs no analysis.  When no
    initial path is stale, a round whose counter is not a multiple of five
    leaves the tracker as it is and ends normally, whatever the
    analyzers, git and the files would answer: nothing is run.  A round
    whose counter is a multiple of five calls [targetPaths()]: when that
    fails, the program ends with its message; when it returns paths, the
    tracker is replaced by a fresh one built from them, and the results
    are printed exactly when the number of tracked paths has changed, so
    that a path that has taken the place of another one goes unnoticed,
    whatever the analyzers would answer. *)
Theorem pollRound_quiet (env : Env) (filepaths : list string)
  (m : ModifiedTimes) (loopCount : Z) :
  (forall p, p ∈ filepaths -> ~ stale (stat env) m p) ->
  (Z.rem loopCount 5 <> 0 ->
   pollRound env filepaths (m, loopCount) = Ok (m, loopCount + 1)) /\
  (Z.rem loopCount 5 = 0 ->
   (forall msg, targetPaths env = Fatal msg ->
      pollRound env filepaths (m, loopCount) = Fatal msg) /\
   (forall msg, targetPaths env = Panic msg ->
      pollRound env filepaths (m, loopCount) = Panic msg) /\
   (forall paths, targetPaths env = Ok paths ->
      (Len (observeAll (map (fun file => (stat env, file)) paths) emptyTimes)
         = Len m ->
       pollRound env filepaths (m, loopCount)
         = Ok (observeAll (map (fun file => (stat env, file)) paths) emptyTimes,
               loopCount + 1)) /\
      (Len (observeAll (map (fun file => (stat env, file)) paths) emptyTimes)
         <> Len m ->
       pollRound env filepaths (m, loopCount)
         = (_ <- printResults (world env)
                   (order env
                      (observeAll (map (fun file => (stat env, file)) paths)
                         emptyTimes)) ;;
            Ok (observeAll (map (fun file => (stat env, file)) paths) emptyTimes,
                loopCount + 1))))).
Proof.
  intros Hquiet. unfold pollRound.
  rewrite (checkUntilChanged_quiet _ _ _ Hquiet). cbn [fst snd bind].
  split.
  - intros Hfifth. apply Z.eqb_neq in Hfifth. by rewrite Hfifth.
  - intros Hfifth. apply Z.eqb_eq in Hfifth. rewrite Hfifth.
    unfold NewModifiedTimes. split; [|split].
    + intros msg ->. done.
    + intros msg ->. done.
    + intros paths ->. cbn [bind]. split.
      * intros ->. by rewrite Nat.eqb_refl.
      * intros Hlen. apply Nat.eqb_neq in Hlen. rewrite Hlen. cbn [negb].
        by destruct (printResults _ _).
Qed.

Lemma pollRound_quiet_witness :
  pollRound
    (mkEnv (mkWorld (fun _ => None) (fun _ _ => ("", true)) (fun _ _ => ("", true)))
       (fun path => if String.eqb path "b.go" then Some 7 else None)
       (Ok ["b.go"]) (fun m => map_to_list (TimeMap m)))
    ["a.go"] (mkModifiedTimes {["a.go" := 5]}, 10)
  = Ok (mkModifiedTimes {["b.go" := 7]}, 11) /\
  pollRound
    (mkEnv (mkWorld (fun _ => None) (fun _ _ => ("", true)) (fun _ _ => ("", true)))
       (fun path => if String.eqb path "b.go" then Some 7 else None)
       (Fatal "Failed to list dirty files") (fun m => map_to_list (TimeMap m)))
    ["a.go"] (mkModifiedTimes {["a.go" := 5]}, 10)
  = Fatal "Failed to list dirty files".
Proof.
  assert (Hquiet : forall (tp : Outcome (list string)) p,
    p ∈ ["a.go"] ->
    ~ stale (stat (mkEnv (mkWorld (fun _ => None) (fun _ _ => ("", true))
                            (fun _ _ => ("", true)))
                     (fun path => if String.eqb path "b.go" then Some 7 else None)
                     tp (fun m => map_to_list (TimeMap m))))
        (mkModifiedTimes {["a.go" := 5]}) p).
  { intros tp p Hp (mt & Hs & _). apply list_elem_of_singleton in Hp as ->.
    discriminate. }
  split.
  - destruct (pollRound_quiet _ ["a.go"] (mkModifiedTimes {["a.go" := 5]}) 10
                (Hquiet (Ok ["b.go"]))) as [_ Hfifth].
    destruct (Hfifth eq_refl) as (_ & _ & Hok).
    destruct (Hok ["b.go"] eq_refl) as [Hsame _].
    etrans; [apply Hsame|]; vm_compute; reflexivity.
  - destruct (pollRound_quiet _ ["a.go"] (mkModifiedTimes {["a.go" := 5]}) 10
                (Hquiet (Fatal "Failed to list dirty files"))) as [_ Hfifth].
    destruct (Hfifth eq_refl) as (Hfatal & _).
    apply Hfatal. reflexivity.
Defined.

(** ** The paths to watch *)

Lemma occursIn_three p a b s :
  occursIn (Regexp.items [Regexp.Cls p; Regexp.Chr a; Regexp.Chr b]) s <->
  exists pre c rest, s = pre ++ c :: a :: b :: rest /\ p c = true.
Proof.
  unfold occursIn. cbn [Regexp.items foldr]. split.
  - intros (pre & w & rest & -> & Hm).
    inversion Hm as [| | | | | | |r1 r2 prev w1 w23 rest1 H1 H23]; subst.
    inversion H1; subst.
    inversion H23 as [| | | | | | |r2' r3 prev2 w2 w3 rest2 H2 H3]; subst.
    inversion H2 as [|c2 d2 ? ? Hd2| | | | | |]; subst.
    inversion H3 as [| | | | | | |r3' r4 prev3 w3' w4 rest3 H3' H4]; subst.
    inversion H3' as [|c3 d3 ? ? Hd3| | | | | |]; subst.
    inversion H4; subst.
    apply isByte_eq in Hd2 as ->. apply isByte_eq in Hd3 as ->.
    by exists pre, d, rest.
  - intros (pre & c & rest & -> & Hc).
    exists pre, [c; a; b], rest. split; [done|].
    apply (Matches_Cat _ _ _ [c] [a; b]); [by constructor|].
    apply (Matches_Cat _ _ _ [a] [b]); [constructor; by apply isByte_eq|].
    apply (Matches_Cat _ _ _ [b] []); [constructor; by apply isByte_eq|].
    constructor.
Qed.

Lemma notNewline_spec c : notNewline c = true <-> c <> "010"%char.
Proof.
  unfold notNewline. rewrite negb_true_iff.
  change (byte c =? 10) with (isByte c "010"). apply isByte_neq.
Qed.

Lemma MatchPyOrGo_spec s :
  MatchPyOrGo s = true <->
  exists pre c x rest,
    bytes s = pre ++ c :: x ++ rest /\ c <> "010"%char /\
    (x = ["p"; "y"]%char \/ x = ["g"; "o"]%char).
Proof.
  unfold MatchPyOrGo. split.
  - destruct (Regexp.FindStringSubmatch anyPy s) as [g|] eqn:Hpy.
    + intros _.
      assert (Hocc : is_Some (Regexp.FindStringSubmatch anyPy s)) by by rewrite Hpy.
      apply FindStringSubmatch_occurs, occursIn_three in Hocc
        as (pre & c & rest & -> & Hc%notNewline_spec).
      exists pre, c, ["p"; "y"]%char, rest. split; [done|]. split; [done|by left].
    + destruct (Regexp.FindStringSubmatch anyGo s) as [g|] eqn:Hgo; [|done].
      intros _.
      assert (Hocc : is_Some (Regexp.FindStringSubmatch anyGo s)) by by rewrite Hgo.
      apply FindStringSubmatch_occurs, occursIn_three in Hocc
        as (pre & c & rest & -> & Hc%notNewline_spec).
      exists pre, c, ["g"; "o"]%char, rest. split; [done|]. split; [done|by right].
  - intros (pre & c & x & rest & Hs & Hc%notNewline_spec & [->| ->]).
    + assert (Hocc : is_Some (Regexp.FindStringSubmatch anyPy s)).
      { apply FindStringSubmatch_occurs, occursIn_three. by exists pre, c, rest. }
      by destruct Hocc as [g ->].
    + assert (Hocc : is_Some (Regexp.FindStringSubmatch anyGo s)).
      { apply FindStringSubmatch_occurs, occursIn_three. by exists pre, c, rest. }
      destruct Hocc as [g ->].
      by destruct (Regexp.FindStringSubmatch anyPy s).
Qed.

Lemma length_pos_nonempty (s : string) :
  (0 <? String.length s)%nat = true <-> s <> "".
Proof. destruct s; simpl; split; done. Qed.

Lemma filterStep_keep join workingDir goodstuffs filepath :
  watched filepath ->
  filterStep join workingDir goodstuffs filepath
    = goodstuffs ++ [watchedAs join workingDir filepath].
Proof.
  intros [Hne Hext]. unfold filterStep, watchedAs.
  apply length_pos_nonempty in Hne as ->.
  apply MatchPyOrGo_spec in Hext as ->.
  by destruct (HasPrefix filepath "/").
Qed.

Lemma filterStep_drop join workingDir goodstuffs filepath :
  ~ watched filepath ->
  filterStep join workingDir goodstuffs filepath = goodstuffs.
Proof.
  intros Hno. unfold filterStep.
  destruct (0 <? String.length filepath)%nat eqn:Hlen; [|done].
  destruct (MatchPyOrGo (Ext filepath)) eqn:Hm; [|done].
  exfalso. apply Hno. split.
  - by apply length_pos_nonempty.
  - by apply MatchPyOrGo_spec.
Qed.

Lemma watched_dec filepath : watched filepath \/ ~ watched filepath.
Proof.
  destruct (0 <? String.length filepath)%nat eqn:Hlen;
    [destruct (MatchPyOrGo (Ext filepath)) eqn:Hm|].
  - left. split; [by apply length_pos_nonempty|by apply MatchPyOrGo_spec].
  - right. intros [_ Hext%MatchPyOrGo_spec]. congruence.
  - right. intros [Hne%length_pos_nonempty _]. congruence.
Qed.

Lemma filterFiles_fold join workingDir filepaths : forall goodstuffs,
  fold_left (filterStep join workingDir) filepaths goodstuffs
    = goodstuffs ++ filterFiles join workingDir filepaths.
Proof.
  unfold filterFiles.
  induction filepaths as [|p rest IH]; intros goodstuffs; simpl.
  - by rewrite app_nil_r.
  - rewrite (IH (filterStep _ _ goodstuffs p)), (IH (filterStep _ _ [] p)).
    destruct (watched_dec p) as [Hw|Hw].
    + rewrite !filterStep_keep by done. by rewrite app_assoc.
    + by rewrite !filterStep_drop by done.
Qed.

Lemma filterFiles_cons join workingDir p rest :
  filterFiles join workingDir (p :: rest)
    = filterStep join workingDir [] p ++ filterFiles join workingDir rest.
Proof. unfold filterFiles at 1. simpl. apply filterFiles_fold. Qed.

Lemma filterFiles_app join workingDir xs ys :
  filterFiles join workingDir (xs ++ ys)
    = filterFiles join workingDir xs ++ filterFiles join workingDir ys.
Proof.
  unfold filterFiles at 1. rewrite fold_left_app.
  fold (filterFiles join workingDir xs). apply filterFiles_fold.
Qed.

Lemma filterFiles_spec (join : string -> string -> string)
  (workingDir : string) (filepaths : list string) :
  (forall q, q ∈ filterFiles join workingDir filepaths <->
     exists p, p ∈ filepaths /\ watched p /\ q = watchedAs join workingDir p) /\
  filterFiles join workingDir filepaths
    `sublist_of` (watchedAs join workingDir <$> filepaths).
Proof.
  induction filepaths as [|p rest [IHin IHsub]].
  - split; [|done]. intros q. split.
    + by intros ?%elem_of_nil.
    + by intros (p & ?%elem_of_nil & _).
  - rewrite filterFiles_cons. destruct (watched_dec p) as [Hw|Hw].
    + rewrite filterStep_keep by done. split.
      * intros q. cbn [app]. rewrite elem_of_cons, IHin. split.
        -- intros [->|(p' & Hp' & Hw' & ->)].
           ++ exists p. split; [by left|done].
           ++ exists p'. split; [by right|done].
        -- intros (p' & [->|Hp']%elem_of_cons & Hw' & ->); [by left|].
           right. by exists p'.
      * cbn [app fmap list_fmap]. by apply sublist_skip.
    + rewrite filterStep_drop by done. split.
      * intros q. cbn [app]. rewrite IHin. split.
        -- intros (p' & Hp' & Hw' & ->). exists p'. split; [by right|done].
        -- intros (p' & [->|Hp']%elem_of_cons & Hw' & ->); [done|].
           by exists p'.
      * cbn [app fmap list_fmap]. by apply sublist_cons.
Qed.

(** X22. [filterFiles] treats every listed path on its own, in the order
    of the list: the result for a list is the concatenation of the
    results for its paths, and a single path gives one path when it is
    watched and nothing otherwise, so that a path listed twice is kept
    twice.  A path is watched when it is not empty and its extension
    contains "py" or "go" after some character that is not a newline; it
    is kept as it is when it starts with a slash, and joined to the
    working directory otherwise.  The extension is not compared with
    ".py" and ".go": a path ending in ".pyc" or ".copy" is kept as
    well. *)
Theorem filterFiles_keeps (join : string -> string -> string)
  (workingDir : string) :
  filterFiles join workingDir [] = [] /\
  (forall xs ys,
     filterFiles join workingDir (xs ++ ys)
       = filterFiles join workingDir xs ++ filterFiles join workingDir ys) /\
  (forall p, watched p ->
     filterFiles join workingDir [p] = [watchedAs join workingDir p]) /\
  (forall p, ~ watched p -> filterFiles join workingDir [p] = []) /\
  (forall filepaths,
     length (filterFiles join workingDir filepaths) <= length filepaths)%nat /\
  (forall filepaths q,
     q ∈ filterFiles join workingDir filepaths <->
     exists p, p ∈ filepaths /\ watched p /\ q = watchedAs join workingDir p) /\
  watched "cache.pyc" /\ watched "notes.copy" /\ ~ watched "Makefile".
Proof.
  split; [done|]. split; [apply filterFiles_app|].
  split; [intros p Hw; apply (filterStep_keep join workingDir [] p Hw)|].
  split; [intros p Hw; apply (filterStep_drop join workingDir [] p Hw)|].
  split.
  { intros filepaths.
    destruct (filterFiles_spec join workingDir filepaths) as [_ Hsub].
    apply sublist_length in Hsub. by rewrite length_fmap in Hsub. }
  split; [intros filepaths; apply filterFiles_spec|].
  split; [|split].
  - split; [done|]. apply MatchPyOrGo_spec. vm_compute. reflexivity.
  - split; [done|]. apply MatchPyOrGo_spec. vm_compute. reflexivity.
  - intros [_ Hext%MatchPyOrGo_spec]. vm_compute in Hext. discriminate.
Qed.

Example filterFiles_example :
  filterFiles (fun dir file => dir +:+ "/" +:+ file) "/w"
    ["main.go"; ""; "/abs/tool.py"; "cache.pyc"; "Makefile"; "notes.copy"; "a.c"]
  = ["/w/main.go"; "/abs/tool.py"; "/w/cache.pyc"; "/w/notes.copy"].
Proof. vm_compute. reflexivity. Qed.

(** X23. In branch mode the paths to watch are the lines of the two runs
    of [git diff --name-only] that [filterFiles] keeps, those of the
    working tree before those of the branch, so that a file that is both
    modified and on the branch is listed twice; the empty line after the
    last newline of an output is not a path.  The program ends when one
    of the two runs fails, and only then. *)
Theorem gitBranchFiles_paths (w : World) (join : string -> string -> string)
  (workingDir : string) :
  ((exists paths, gitBranchFiles w join workingDir = Ok paths) <->
     (Output w "git" ["diff"; "--name-only"]).2 = false /\
     (Output w "git" ["diff"; "--name-only"; "master..HEAD"]).2 = false) /\
  (forall paths, gitBranchFiles w join workingDir = Ok paths ->
     paths
       = filterFiles join workingDir
           (Split (Output w "git" ["diff"; "--name-only"]).1 "010")
         ++ filterFiles join workingDir
              (Split (Output w "git" ["diff"; "--name-only"; "master..HEAD"]).1
                 "010") /\
     forall q, q ∈ paths <->
       exists line,
         (line ∈ Split (Output w "git" ["diff"; "--name-only"]).1 "010" \/
          line ∈ Split (Output w "git" ["diff"; "--name-only"; "master..HEAD"]).1
                   "010") /\
         line <> "" /\ watched line /\ q = watchedAs join workingDir line) /\
  (forall msg, gitBranchFiles w join workingDir <> Panic msg).
Proof.
  unfold gitBranchFiles.
  destruct (Output w "git" ["diff"; "--name-only"]) as [dirty errDirty].
  destruct (Output w "git" ["diff"; "--name-only"; "master..HEAD"])
    as [branch errBranch].
  cbn [fst snd]. split; [|split].
  - destruct errDirty, errBranch; split;
      first [by intros [? ?] | by intros [? ?] | by eexists].
  - intros paths Hok.
    destruct errDirty; [done|]. destruct errBranch; [done|].
    injection Hok as <-. rewrite filterFiles_app. split; [done|].
    intros q. rewrite elem_of_app.
    rewrite !(proj1 (filterFiles_spec join workingDir _) q). split.
    + intros [(p & Hp & Hw & ->)|(p & Hp & Hw & ->)]; exists p;
        (split; [by (left + right)|]); (split; [by destruct Hw|done]).
    + intros (line & [Hl|Hl] & _ & Hw & ->); [left|right]; by exists line.
  - intros msg. by destruct errDirty, errBranch.
Qed.
